(** * Vsrdle: the round-generation and selection engine

    A shallow embedding of the game core of the repository:
    - [js/tierUtils.js]   the tier ladder and [getStrongerCharacter];
    - [js/stats.js]       the lifetime counters and [recordRound];
    - [js/settings.js]    the settings record the engines read;
    - [js/gameLogic.js]   the Classic (two card) engine;
    - [js/gameLogicOdd.js] the Odd-One-Out (four card) engine.

    The repository holds two revisions of each engine file.  They are
    embedded as one definition with a [Revision] argument; the places where
    the revisions differ are marked in the definitions below. *)

From Stdlib Require Import ZArith Lia.
From stdpp Require Import base strings gmap list.

Local Open Scope string_scope.
Local Open Scope list_scope.
Local Open Scope Z_scope.

(** ** JavaScript values used by the core *)

(** A string-or-null/undefined value: [None] stands for [null] and
    [undefined]. *)
Abbreviation jsString := (option string).

(** Truthiness of such a value: [null], [undefined] and [''] are falsy. *)
Definition truthy (v : jsString) : bool :=
  match v with
  | Some s => negb (String.eqb s "")
  | None => false
  end.

(** [a || b] on such values. *)
Definition jsOr (a b : jsString) : jsString := if truthy a then a else b.

(** Interpolation [`${v}`] of a value that is a string. *)
Definition interpolate (v : jsString) : string := default "" v.

(** The two revisions of the engine files that the repository contains. *)
Inductive Revision : Set :=
| RevJs      (* js/gameLogic.js and js/gameLogicOdd.js, as named in the tree *)
| RevAlt.    (* the second copy of gameLogic.js and gameLogicOdd.js *)

(** [Math.floor(Math.random() * n)].  The random source is an oracle: the
    k-th call of [Math.random] is decided by [draws k], and every index in
    [0, n) can come out.  For [n = 0] the product is [0]. *)
Record Rng : Type := { draws : nat → nat; pos : nat }.

Definition randomIndex (n : nat) (g : Rng) : nat * Rng :=
  (match n with
   | O => O
   | S _ => (draws g (pos g) `mod` n)%nat
   end,
   {| draws := draws g; pos := S (pos g) |}).
Arguments randomIndex : simpl never.

(** A function returns, or an exception leaves it; both carry the state
    reached. *)
Inductive Completion (A : Type) : Type :=
| Returned (a : A)
| Threw (a : A).
Arguments Returned {A} a.
Arguments Threw {A} a.

(** ** js/tierUtils.js *)

Definition TIER_ORDER : list string :=
  [ "Tier 0";
    "High 1-A"; "1-A"; "Low 1-A";
    "High 1-B"; "1-B"; "1-C"; "Low 1-C";
    "2-A"; "2-B"; "2-C"; "Low 2-C";
    "High 3-A"; "3-A"; "3-B"; "3-C";
    "4-A"; "4-B"; "High 4-C"; "4-C"; "Low 4-C";
    "High 5-A"; "5-A"; "5-B"; "Low 5-B"; "5-C";
    "Tier 6"; "High 6-A"; "6-A"; "High 6-B"; "6-B"; "Low 6-B"; "High 6-C"; "6-C";
    "High 7-A"; "7-A"; "7-B"; "Low 7-B"; "High 7-C"; "7-C"; "Low 7-C";
    "8-A"; "8-B"; "High 8-C"; "8-C";
    "9-A"; "9-B"; "9-C";
    "10-A"; "10-B"; "10-C";
    "11-A"; "11-B"; "11-C" ].

(** [Array.prototype.indexOf] from position [k]: the first position holding
    the string, [-1] when there is none. *)
Fixpoint indexOfFrom (k : Z) (xs : list string) (x : string) : Z :=
  match xs with
  | [] => -1
  | y :: ys => if String.eqb y x then k else indexOfFrom (k + 1) ys x
  end.

Definition indexOf (xs : list string) (x : jsString) : Z :=
  match x with
  | Some s => indexOfFrom 0 xs s
  | None => -1                      (* null is no element of the ladder *)
  end.

Definition getTierIndex (tier : jsString) : Z := indexOf TIER_ORDER tier.

(** The raw JSON row a character was normalised from; only the two fields
    the engines read. *)
Record RawRow : Type := { Name : jsString; Origin : jsString }.

(** A normalised character, as [normalizeCharacter] of js/dataLoader.js
    builds it; the descriptive fields the core never reads are left out. *)
Record Character : Type := {
  id : string;
  name : string;
  origin : string;
  highestTier : jsString;
  _raw : option RawRow
}.

#[global] Instance RawRow_eq_dec : EqDecision RawRow.
Proof. solve_decision. Defined.
#[global] Instance Character_eq_dec : EqDecision Character.
Proof. solve_decision. Defined.

Definition getStrongerCharacter (a b : Character) : option Character :=
  let idxA := getTierIndex (highestTier a) in
  let idxB := getTierIndex (highestTier b) in
  if (idxA <? 0) || (idxB <? 0) then None
  else
    (* Lower index means higher power (Tier 0 at index 0) *)
    Some (if idxA <? idxB then a else b).

(** ** js/stats.js *)

Record Stats : Type := {
  totalRounds : nat;
  totalCorrectRounds : nat;
  bestStreak : nat
}.

(** The counters are JavaScript numbers that only ever grow by one; they
    are natural numbers here. *)

(** The module state of stats.js.  [recordRoundCalls] is a ghost trace of
    the calls of [recordRound], oldest first, with the arguments passed; the
    program does not read it.  [saveStats] writes to localStorage and
    swallows every failure, so it has no effect on this state. *)
Record StatsStore : Type := {
  stats : Stats;
  recordRoundCalls : list (bool * nat)
}.

Definition initialStats : Stats :=
  {| totalRounds := 0; totalCorrectRounds := 0; bestStreak := 0 |}.

Definition recordRoundStats (correct : bool) (streakAfterRound : nat) (s : Stats) : Stats :=
  let s1 := {| totalRounds := totalRounds s + 1;
               totalCorrectRounds := totalCorrectRounds s;
               bestStreak := bestStreak s |} in
  if correct then
    let s2 := {| totalRounds := totalRounds s1;
                 totalCorrectRounds := totalCorrectRounds s1 + 1;
                 bestStreak := bestStreak s1 |} in
    if (bestStreak s2 <? streakAfterRound)%nat then
      {| totalRounds := totalRounds s2;
         totalCorrectRounds := totalCorrectRounds s2;
         bestStreak := streakAfterRound |}
    else s2
  else s1.

Definition recordRound (correct : bool) (streakAfterRound : nat) (st : StatsStore) : StatsStore :=
  {| stats := recordRoundStats correct streakAfterRound (stats st);
     recordRoundCalls := recordRoundCalls st ++ [(correct, streakAfterRound)] |}.

(** A sequence of calls, oldest first. *)
Definition recordRounds (calls : list (bool * nat)) (st : StatsStore) : StatsStore :=
  foldl (λ acc call, recordRound call.1 call.2 acc) st calls.

(** ** js/settings.js *)

Record Settings : Type := {
  veryHardMode : bool;
  customMode : bool;
  customSeries : list string;
  lightMode : bool
}.

Definition defaultSettings : Settings :=
  {| veryHardMode := false; customMode := false; customSeries := []; lightMode := false |}.

(** ** Code shared by js/gameLogic.js and js/gameLogicOdd.js *)

Inductive Phase : Set := loading | inRound | afterCorrect | afterWrong | error.

#[global] Instance Phase_eq_dec : EqDecision Phase.
Proof. solve_decision. Defined.

(** [getCharacterKey], defined with the same body in both engine files:
    [c.name || c._raw?.Name || ''], the same for the origin, and the template
    [`${name}::${origin}`]. *)
Definition getCharacterKey (c : Character) : string :=
  let name := jsOr (jsOr (Some (name c)) (_raw c ≫= Name)) (Some "") in
  let origin := jsOr (jsOr (Some (origin c)) (_raw c ≫= Origin)) (Some "") in
  String.append (interpolate name) (String.append "::" (interpolate origin)).

(** The two mode filters that open [buildFilteredGroups] and
    [buildFilteredPoolForOdd] ([Array.isArray(settings.customSeries)] holds
    for a [list]). *)
Definition applyModeFilters (settings : Settings) (allChars : list Character) : list Character :=
  let pool := allChars in
  (* Very Hard: exclude Tier 0 entirely *)
  let pool :=
    if veryHardMode settings
    then filter (λ c, highestTier c ≠ Some "Tier 0") pool
    else pool in
  (* Custom series filter *)
  let pool :=
    if customMode settings && (0 <? length (customSeries settings))%nat
    then filter (λ c, origin c ∈ customSeries settings) pool
    else pool in
  pool.

(** A JavaScript [Map] from tier label to array of characters: keys are
    unique and kept in insertion order. *)
Abbreviation Groups := (list (string * list Character)).

(** [groups.get(key)]; [None] is [undefined]. *)
Fixpoint groupsGet (groups : Groups) (key : string) : option (list Character) :=
  match groups with
  | [] => None
  | (k, g) :: rest => if decide (k = key) then Some g else groupsGet rest key
  end.

(** [if (!groups.has(key)) groups.set(key, []); groups.get(key).push(c)]. *)
Fixpoint groupsPush (groups : Groups) (key : string) (c : Character) : Groups :=
  match groups with
  | [] => [(key, [c])]
  | (k, g) :: rest =>
      if decide (k = key) then (k, g ++ [c]) :: rest
      else (k, g) :: groupsPush rest key c
  end.

(** The body of the grouping loop: [if (!c.highestTier) continue;] and the
    push under [c.highestTier]. *)
Definition groupStep (groups : Groups) (c : Character) : Groups :=
  match highestTier c with
  | Some key => if truthy (Some key) then groupsPush groups key c else groups
  | None => groups
  end.

(** The grouping loop [for (const c of pool) { ... }] from an empty [Map]. *)
Definition groupByTier (pool : list Character) : Groups := foldl groupStep [] pool.

(** [Array.from(groups.keys())]. *)
Definition groupsKeys (groups : Groups) : list string := groups.*1.

(** ** js/gameLogic.js: the Classic engine *)

Module Classic.

Record GameState : Type := {
  phase : Phase;
  currentPair : option (Character * Character);   (* { left, right } or null *)
  correctId : jsString;
  streak : nat;
  usedCharacterKeys : gset string
}.

Definition initGameState : GameState :=
  {| phase := inRound; currentPair := None; correctId := None;
     streak := 0; usedCharacterKeys := ∅ |}.

Definition setPhase (p : Phase) (gs : GameState) : GameState :=
  {| phase := p; currentPair := currentPair gs; correctId := correctId gs;
     streak := streak gs; usedCharacterKeys := usedCharacterKeys gs |}.

Definition buildFilteredGroups (settings : Settings) (allChars : list Character) : Groups :=
  groupByTier (applyModeFilters settings allChars).

(** [pickCharacterFromGroup]: [Math.random] is called only when some
    character of the group is still unused. *)
Definition pickCharacterFromGroup (used : gset string) (group : option (list Character))
    (g : Rng) : option Character * Rng :=
  match group with
  | None => (None, g)
  | Some group =>
      if (length group =? 0)%nat then (None, g)
      else
        let available := filter (λ c, getCharacterKey c ∉ used) group in
        if (length available =? 0)%nat then (None, g)
        else
          let '(i, g') := randomIndex (length available) g in
          (available !! i, g')
  end.

(** The test that guards [candidatePairs.push([tA, tB])].  This is where the
    two revisions of gameLogic.js differ:
    - [RevJs]:  very hard [distance >= 3], otherwise every pair;
    - [RevAlt]: very hard [distance === 3], otherwise [distance > 0]. *)
Definition acceptsDistance (rev : Revision) (veryHard : bool) (distance : Z) : bool :=
  match rev with
  | RevJs => if veryHard then 3 <=? distance else true
  | RevAlt => if veryHard then distance =? 3 else 0 <? distance
  end.

Definition tierDistance (tA tB : string) : Z :=
  let idxA := getTierIndex (Some tA) in
  let idxB := getTierIndex (Some tB) in
  Z.abs (idxA - idxB).

(** The nested loops [for i ... for j = i + 1 ...] over [tiers]. *)
Fixpoint candidatePairsOf (rev : Revision) (veryHard : bool) (tiers : list string)
    : list (string * string) :=
  match tiers with
  | [] => []
  | tA :: rest =>
      ((λ tB, (tA, tB)) <$>
         filter (λ tB, acceptsDistance rev veryHard (tierDistance tA tB) = true) rest)
      ++ candidatePairsOf rev veryHard rest
  end.

(** The loop [while (attempts < 40)], by the number [40 - attempts] of
    attempts that remain; [left_] and [right_] are the source's [left] and
    [right].  [const [tierA, tierB] = candidatePairs[i]] throws a
    TypeError when the entry is [undefined]. *)
Fixpoint retryLoop (attemptsLeft : nat) (candidatePairs : list (string * string))
    (groups : Groups) (gs : GameState) (g : Rng) : Completion (GameState * Rng) :=
  match attemptsLeft with
  | O => Returned (setPhase error gs, g)
  | S n =>
      let '(i, g1) := randomIndex (length candidatePairs) g in
      match candidatePairs !! i with
      | None => Threw (gs, g1)
      | Some (tierA, tierB) =>
          let '(left_, g2) :=
            pickCharacterFromGroup (usedCharacterKeys gs) (groupsGet groups tierA) g1 in
          let '(right_, g3) :=
            pickCharacterFromGroup (usedCharacterKeys gs) (groupsGet groups tierB) g2 in
          match left_, right_ with
          | Some left_, Some right_ =>
              match getStrongerCharacter left_ right_ with
              | None => retryLoop n candidatePairs groups gs g3
              | Some stronger =>
                  Returned ({| phase := inRound;
                               currentPair := Some (left_, right_);
                               correctId := Some (id stronger);
                               streak := streak gs;
                               usedCharacterKeys := usedCharacterKeys gs |}, g3)
              end
          | _, _ => retryLoop n candidatePairs groups gs g3
          end
      end
  end.

Definition startNewRound (rev : Revision) (settings : Settings) (allChars : list Character)
    (gs : GameState) (g : Rng) : Completion (GameState * Rng) :=
  let groups := buildFilteredGroups settings allChars in
  let tiers :=
    filter (λ key, (0 < length (default [] (groupsGet groups key)))%nat) (groupsKeys groups) in
  if (length tiers <? 2)%nat then Returned (setPhase error gs, g)
  else
    let candidatePairs := candidatePairsOf rev (veryHardMode settings) tiers in
    if veryHardMode settings && (length candidatePairs =? 0)%nat
    then Returned (setPhase error gs, g)
    else retryLoop 40 candidatePairs groups gs g.

(** What [handleChoice] returns: [{ valid: false }], or
    [{ valid: true, correct, selectedId, correctId, streak, phase }]. *)
Inductive ChoiceResult : Type :=
| Invalid
| Valid (correct : bool) (selectedId : string) (correctId : jsString)
        (streak : nat) (phase : Phase).

Definition handleChoice (selectedId : string) (gs : GameState) (st : StatsStore)
    : ChoiceResult * GameState * StatsStore :=
  if decide (phase gs ≠ inRound) then (Invalid, gs, st)
  else
    match currentPair gs with
    | None => (Invalid, gs, st)
    | Some (left_, right_) =>
        let correctId := correctId gs in
        let selected :=
          if decide (id left_ = selectedId) then Some left_
          else if decide (id right_ = selectedId) then Some right_
          else None in
        match selected with
        | None => (Invalid, gs, st)
        | Some selected =>
            (* Mark both characters as used for this run *)
            let used :=
              {[ getCharacterKey right_ ]} ∪ ({[ getCharacterKey left_ ]} ∪ usedCharacterKeys gs) in
            let correct := bool_decide (Some (id selected) = correctId) in
            if correct then
              let streak1 := S (streak gs) in                 (* gameState.streak++ *)
              let st1 := recordRound true streak1 st in
              (Valid correct selectedId correctId streak1 afterCorrect,
               {| phase := afterCorrect; currentPair := currentPair gs;
                  correctId := correctId; streak := streak1;
                  usedCharacterKeys := used |},
               st1)
            else
              let st1 := recordRound false (streak gs) st in  (* before the reset *)
              (Valid correct selectedId correctId 0%nat afterWrong,
               {| phase := afterWrong; currentPair := currentPair gs;
                  correctId := correctId; streak := 0;         (* gameState.streak = 0 *)
                  usedCharacterKeys := used |},
               st1)
        end
    end.

Definition restartGame (rev : Revision) (settings : Settings) (allChars : list Character)
    (gs : GameState) (g : Rng) : Completion (GameState * Rng) :=
  startNewRound rev settings allChars
    {| phase := inRound; currentPair := None; correctId := None;
       streak := 0; usedCharacterKeys := ∅ |} g.

End Classic.

(** ** js/gameLogicOdd.js: the Odd-One-Out engine *)

Module Odd.

Record OddGameState : Type := {
  phase : Phase;
  options : list Character;
  oddId : jsString;
  streak : nat;
  usedCharacterKeys : gset string
}.

Definition initOddGameState : OddGameState :=
  {| phase := inRound; options := []; oddId := None;
     streak := 0; usedCharacterKeys := ∅ |}.

Definition setPhase (p : Phase) (gs : OddGameState) : OddGameState :=
  {| phase := p; options := options gs; oddId := oddId gs;
     streak := streak gs; usedCharacterKeys := usedCharacterKeys gs |}.

(** The loop that keeps the first character of every identity key, in
    order; [seen] holds the keys met so far.  [RevAlt] runs it twice: over
    the pool ([dedupedByKey], a [Map] whose values are read back in insertion
    order) and over the four shuffled options ([seenKeys], [uniqueOptions]). *)
Fixpoint uniqueByKey (seen : gset string) (cs : list Character) : list Character :=
  match cs with
  | [] => []
  | c :: rest =>
      if decide (getCharacterKey c ∈ seen) then uniqueByKey seen rest
      else c :: uniqueByKey ({[ getCharacterKey c ]} ∪ seen) rest
  end.

(** [buildFilteredPoolForOdd].  Only [RevAlt] has the closing de-duplication
    of the pool by Name+Origin. *)
Definition buildFilteredPoolForOdd (rev : Revision) (settings : Settings)
    (allChars : list Character) (used : gset string) : list Character :=
  let pool := applyModeFilters settings allChars in
  (* Enforce no repeats in this run by Name+Origin *)
  let pool := filter (λ c, getCharacterKey c ∉ used) pool in
  match rev with
  | RevJs => pool
  | RevAlt => uniqueByKey ∅ pool
  end.

(** The loop of [pickRandomDistinct]: [count] more picks from [copy].  The
    caller has checked [arr.length >= count], so [copy[idx]] is defined. *)
Fixpoint pickLoop (count : nat) (copy picked : list Character) (g : Rng)
    : list Character * Rng :=
  match count with
  | O => (picked, g)
  | S n =>
      let '(idx, g') := randomIndex (length copy) g in
      let picked := match copy !! idx with
                    | Some c => picked ++ [c]
                    | None => picked
                    end in
      pickLoop n (delete idx copy) picked g'
  end.

Definition pickRandomDistinct (arr : list Character) (count : nat) (g : Rng)
    : option (list Character) * Rng :=
  if (length arr <? count)%nat then (None, g)
  else let '(picked, g') := pickLoop count arr [] g in (Some picked, g').

(** [[a[i], a[j]] = [a[j], a[i]]]. *)
Definition swap (a : list Character) (i j : nat) : list Character :=
  match a !! i, a !! j with
  | Some x, Some y => <[j := x]> (<[i := y]> a)
  | _, _ => a
  end.

(** The loop [for (let i = a.length - 1; i > 0; i--)] of [shuffleArray]. *)
Fixpoint shuffleLoop (i : nat) (a : list Character) (g : Rng) : list Character * Rng :=
  match i with
  | O => (a, g)
  | S i' =>
      let '(j, g') := randomIndex (i + 1) g in
      shuffleLoop i' (swap a i j) g'
  end.

Definition shuffleArray (arr : list Character) (g : Rng) : list Character * Rng :=
  shuffleLoop (length arr - 1) arr g.

(** The number of characters of a tier's group, [(groups.get(tier) || []).length]. *)
Definition groupSize (groups : Groups) (tier : string) : nat :=
  length (default [] (groupsGet groups tier)).

(** [startNewOddRound].  The revisions differ in three marked places; the
    [console.error] calls have no effect on the state. *)
Definition startNewOddRound (rev : Revision) (settings : Settings) (allChars : list Character)
    (gs : OddGameState) (g : Rng) : Completion (OddGameState * Rng) :=
  let pool := buildFilteredPoolForOdd rev settings allChars (usedCharacterKeys gs) in
  if (length pool <? 4)%nat then Returned (setPhase error gs, g)
  else
    (* Group by highestTier *)
    let groups := groupByTier pool in
    let tierKeys := groupsKeys groups in
    if (length tierKeys <? 2)%nat then Returned (setPhase error gs, g)
    else
      let candidateMajorTiers :=
        filter (λ tier,
                  (3 ≤ groupSize groups tier)%nat ∧
                  Exists (λ otherTier, otherTier ≠ tier ∧ (1 ≤ groupSize groups otherTier)%nat)
                         tierKeys)
               tierKeys in
      if (length candidateMajorTiers =? 0)%nat then Returned (setPhase error gs, g)
      else
        (* Pick majority tier randomly *)
        let '(i, g1) := randomIndex (length candidateMajorTiers) g in
        let majorityTier : jsString := candidateMajorTiers !! i in
        match majorityTier ≫= groupsGet groups with
        | None =>
            match rev with
            | RevJs => Threw (gs, g1)                    (* majorityGroup.length of undefined *)
            | RevAlt => Returned (setPhase error gs, g1) (* !majorityGroup *)
            end
        | Some majorityGroup =>
            if (length majorityGroup <? 3)%nat then Returned (setPhase error gs, g1)
            else
              let '(majorityChars, g2) := pickRandomDistinct majorityGroup 3 g1 in
              match majorityChars with
              | None => Returned (setPhase error gs, g2)
              | Some majorityChars =>
                  if (length majorityChars <? 3)%nat then Returned (setPhase error gs, g2)
                  else
                    (* odd-one-out tier: any tier != majorityTier with >= 1 char *)
                    let otherTiers :=
                      filter (λ tier, Some tier ≠ majorityTier ∧ (0 < groupSize groups tier)%nat)
                             tierKeys in
                    if (length otherTiers =? 0)%nat then Returned (setPhase error gs, g2)
                    else
                      let '(j, g3) := randomIndex (length otherTiers) g2 in
                      let oddTier : jsString := otherTiers !! j in
                      let oddGroup := default [] (oddTier ≫= groupsGet groups) in
                      if (length oddGroup =? 0)%nat then Returned (setPhase error gs, g3)
                      else
                        let '(k, g4) := randomIndex (length oddGroup) g3 in
                        match oddGroup !! k with
                        | None => Threw (gs, g4)         (* oddChar.id of undefined *)
                        | Some oddChar =>
                            let '(options, g5) := shuffleArray (majorityChars ++ [oddChar]) g4 in
                            match rev with
                            | RevJs =>
                                Returned ({| phase := inRound; options := options;
                                             oddId := Some (id oddChar);
                                             streak := streak gs;
                                             usedCharacterKeys := usedCharacterKeys gs |}, g5)
                            | RevAlt =>
                                (* (Extra safety) remove any accidental same-name collisions. *)
                                let uniqueOptions := uniqueByKey ∅ options in
                                if (length uniqueOptions <? 4)%nat
                                then Returned (setPhase error gs, g5)
                                else
                                  Returned ({| phase := inRound; options := uniqueOptions;
                                               oddId := Some (id oddChar);
                                               streak := streak gs;
                                               usedCharacterKeys := usedCharacterKeys gs |}, g5)
                            end
                        end
              end
        end.

(** What [handleOddChoice] returns: [{ valid: false, message }], or
    [{ valid: true, correct, selectedId, oddId, options, streak, phase }]. *)
Inductive ChoiceResult : Type :=
| Invalid (message : string)
| Valid (correct : bool) (selectedId : string) (oddId : jsString)
        (options : list Character) (streak : nat) (phase : Phase).

(** The loop [for (const c of options) usedCharacterKeys.add(getCharacterKey(c))]. *)
Definition markUsed (used : gset string) (cs : list Character) : gset string :=
  foldl (λ u c, {[ getCharacterKey c ]} ∪ u) used cs.

Definition handleOddChoice (selectedId : string) (gs : OddGameState) (st : StatsStore)
    : ChoiceResult * OddGameState * StatsStore :=
  if bool_decide (phase gs ≠ inRound) || negb (length (options gs) =? 4)%nat
  then (Invalid "Not ready for selection.", gs, st)
  else
    match List.find (λ c, bool_decide (id c = selectedId)) (options gs) with
    | None => (Invalid "Unknown character selected.", gs, st)
    | Some selected =>
        let correct := bool_decide (Some selectedId = oddId gs) in
        (* Mark all 4 characters as used for this run (by Name+Origin) *)
        let used := markUsed (usedCharacterKeys gs) (options gs) in
        if correct then
          let streak1 := (streak gs + 1)%nat in
          let st1 := recordRound true streak1 st in
          (Valid correct selectedId (oddId gs) (options gs) streak1 afterCorrect,
           {| phase := afterCorrect; options := options gs; oddId := oddId gs;
              streak := streak1; usedCharacterKeys := used |},
           st1)
        else
          let st1 := recordRound false (streak gs) st in
          (Valid correct selectedId (oddId gs) (options gs) 0%nat afterWrong,
           {| phase := afterWrong; options := options gs; oddId := oddId gs;
              streak := 0; usedCharacterKeys := used |},
           st1)
    end.

Definition restartOddGame (rev : Revision) (settings : Settings) (allChars : list Character)
    (gs : OddGameState) (g : Rng) : Completion (OddGameState * Rng) :=
  startNewOddRound rev settings allChars
    {| phase := inRound; options := []; oddId := None;
       streak := 0; usedCharacterKeys := ∅ |} g.

End Odd.

(** ** Runs of an engine

    What the presentation layer does with an engine: it asks for a new
    round, passes the player's choice, or restarts.  A run of operations is
    executed from a state, and the rounds it commits and resolves are
    logged, oldest first. *)

Inductive Op : Type :=
| OpStart                          (* startNewRound / startNewOddRound *)
| OpChoice (selectedId : string)   (* handleChoice / handleOddChoice *)
| OpRestart.                       (* restartGame / restartOddGame *)

Inductive Event : Type :=
| Committed (cs : list Character)  (* a round was committed with these cards *)
| Resolved (cs : list Character)   (* the round with these cards was resolved *)
| Restarted.                       (* the run state was reset *)

Fixpoint runWith {W : Type} (step : Op → W → W * list Event) (ops : list Op) (w : W)
    : W * list Event :=
  match ops with
  | [] => (w, [])
  | op :: rest =>
      let '(w1, ev1) := step op w in
      let '(w2, ev2) := runWith step rest w1 in
      (w2, ev1 ++ ev2)
  end.

Definition keysOf (cs : list Character) : list string := getCharacterKey <$> cs.

(** No identity key of [cs] is a key of the round of event [e]. *)
Definition keysApart (cs : list Character) (e : Event) : Prop :=
  match e with
  | Committed cs' | Resolved cs' => Forall (λ c, getCharacterKey c ∉ keysOf cs') cs
  | Restarted => True
  end.

(** The events of a log up to the first restart. *)
Fixpoint sameRun (log : list Event) : list Event :=
  match log with
  | [] => []
  | Restarted :: _ => []
  | e :: rest => e :: sameRun rest
  end.

(** The no-repeat property of a log: the keys of a resolved round are keys
    of no round committed or resolved later in the same run. *)
Fixpoint noRepeat (log : list Event) : Prop :=
  match log with
  | [] => True
  | e :: rest =>
      match e with
      | Resolved cs => Forall (keysApart cs) (sameRun rest)
      | _ => True
      end ∧ noRepeat rest
  end.

(** The round in play of a Classic state, and the Classic engine's step. *)
Definition classicInPlay (gs : Classic.GameState) : option (list Character) :=
  match Classic.phase gs, Classic.currentPair gs with
  | inRound, Some (l, r) => Some [l; r]
  | _, _ => None
  end.

Abbreviation ClassicWorld := (Classic.GameState * StatsStore * Rng)%type.

Definition classicCommitted (gs : Classic.GameState) : list Event :=
  match classicInPlay gs with
  | Some cs => [Committed cs]
  | None => []
  end.

Definition classicStep (rev : Revision) (settings : Settings) (allChars : list Character)
    (op : Op) (w : ClassicWorld) : ClassicWorld * list Event :=
  let '(gs, st, g) := w in
  match op with
  | OpStart =>
      match Classic.startNewRound rev settings allChars gs g with
      | Returned (gs', g') => ((gs', st, g'), classicCommitted gs')
      | Threw (gs', g') => ((gs', st, g'), [])
      end
  | OpChoice selectedId =>
      let '(res, gs', st') := Classic.handleChoice selectedId gs st in
      ((gs', st', g),
       match res, Classic.currentPair gs with
       | Classic.Valid _ _ _ _ _, Some (l, r) => [Resolved [l; r]]
       | _, _ => []
       end)
  | OpRestart =>
      match Classic.restartGame rev settings allChars gs g with
      | Returned (gs', g') => ((gs', st, g'), Restarted :: classicCommitted gs')
      | Threw (gs', g') =>
          (* the reset is done before startNewRound throws *)
          ((gs', st, g'), [Restarted])
      end
  end.

Definition classicRun (rev : Revision) (settings : Settings) (allChars : list Character)
    : list Op → ClassicWorld → ClassicWorld * list Event :=
  runWith (classicStep rev settings allChars).

(** The same for the Odd-One-Out engine. *)
Definition oddInPlay (gs : Odd.OddGameState) : option (list Character) :=
  match Odd.phase gs with
  | inRound => if (length (Odd.options gs) =? 4)%nat then Some (Odd.options gs) else None
  | _ => None
  end.

Abbreviation OddWorld := (Odd.OddGameState * StatsStore * Rng)%type.

Definition oddCommitted (gs : Odd.OddGameState) : list Event :=
  match Odd.phase gs with
  | inRound => [Committed (Odd.options gs)]
  | _ => []
  end.

Definition oddStep (rev : Revision) (settings : Settings) (allChars : list Character)
    (op : Op) (w : OddWorld) : OddWorld * list Event :=
  let '(gs, st, g) := w in
  match op with
  | OpStart =>
      match Odd.startNewOddRound rev settings allChars gs g with
      | Returned (gs', g') => ((gs', st, g'), oddCommitted gs')
      | Threw (gs', g') => ((gs', st, g'), [])
      end
  | OpChoice selectedId =>
      let '(res, gs', st') := Odd.handleOddChoice selectedId gs st in
      ((gs', st', g),
       match res with
       | Odd.Valid _ _ _ options _ _ => [Resolved options]
       | Odd.Invalid _ => []
       end)
  | OpRestart =>
      match Odd.restartOddGame rev settings allChars gs g with
      | Returned (gs', g') => ((gs', st, g'), Restarted :: oddCommitted gs')
      | Threw (gs', g') => ((gs', st, g'), [Restarted])
      end
  end.

Definition oddRun (rev : Revision) (settings : Settings) (allChars : list Character)
    : list Op → OddWorld → OddWorld * list Event :=
  runWith (oddStep rev settings allChars).

(** ** js/dataLoader.js: the normalisation of a raw row *)

(** The part of the raw row that a character keeps in view as [_raw]. *)
Definition rawRowOf (rawName rawOrigin : jsString) : RawRow :=
  {| Name := rawName; Origin := rawOrigin |}.

Module DataLoader.

(** A row of a Tier_X.json file: the fields [normalizeCharacter] reads to
    build [id], [name], [origin] and [highestTier].  [Tier] holds the text
    that [`${raw.Tier}`] gives; [None] is an absent (or null) field, and for
    [AllTier] also a value that is no array. *)
Record Raw : Type := {
  ID : jsString;
  Name : jsString;
  Origin : jsString;
  mainTier : jsString;
  Tier : jsString;
  AllTier : option (list string)
}.

(** The loop of [computeHighestTier]; [bestIndex = None] is [Infinity]. *)
Fixpoint bestTierLoop (ts : list string) (best : jsString) (bestIndex : option Z)
    : jsString :=
  match ts with
  | [] => best
  | t :: rest =>
      let idx := indexOf TIER_ORDER (Some t) in
      if (0 <=? idx) && (match bestIndex with
                         | None => true
                         | Some b => idx <? b
                         end)
      then bestTierLoop rest (Some t) (Some idx)
      else bestTierLoop rest best bestIndex
  end.

Definition computeHighestTier (allTierArray : option (list string)) : jsString :=
  match allTierArray with
  | None => None                          (* !Array.isArray(allTierArray) *)
  | Some ts =>
      if (length ts =? 0)%nat then None
      else bestTierLoop ts None None
  end.

Definition normalizeCharacter (raw : Raw) : Character :=
  let name := interpolate (jsOr (Name raw) (Some "")) in
  let origin := interpolate (jsOr (Origin raw) (Some "")) in
  (* mainTier is often present; if not, derive from raw.Tier *)
  let mainTier :=
    if truthy (mainTier raw) then mainTier raw
    else match Tier raw with
         | Some t => Some (String.append "Tier " t)
         | None => mainTier raw
         end in
  let allTiers := default [] (AllTier raw) in
  let highestTier := computeHighestTier (Some allTiers) in
  let id :=
    jsOr (ID raw)
         (Some (String.append name
                  (String.append "-"
                     (String.append origin
                        (String.append "-"
                           (interpolate
                              (jsOr (jsOr highestTier mainTier) (Some "Unknown")))))))) in
  {| id := interpolate id;
     name := name;
     origin := origin;
     highestTier := jsOr highestTier None;
     _raw := Some (rawRowOf (Name raw) (Origin raw)) |}.

End DataLoader.

(** ** js/ui.js and js/uiOdd.js: the event handlers

    The handlers as far as they act on the engines, the settings and the
    stats; rendering is left out.  A handler that calls a function which
    throws is left by the exception, with the state reached. *)

Module Ui.

(** The argument of [onCardClick]: ['left'], or anything else. *)
Inductive Side : Set := sideLeft | sideRight.

Record World : Type := {
  settings : Settings;
  gameState : Classic.GameState;
  statsStore : StatsStore;
  rng : Rng
}.

Definition withEngine (w : World) (out : Completion (Classic.GameState * Rng)) : World :=
  match out with
  | Returned (gs, g) | Threw (gs, g) =>
      {| settings := settings w; gameState := gs; statsStore := statsStore w; rng := g |}
  end.

(** [restartAndRenderNewRound]: [restartGame(); render()]. *)
Definition restartAndRenderNewRound (rev : Revision) (allChars : list Character)
    (w : World) : World :=
  withEngine w (Classic.restartGame rev (settings w) allChars (gameState w) (rng w)).

Definition onCardClick (side : Side) (w : World) : World :=
  match Classic.currentPair (gameState w) with
  | None => w                                          (* if (!state.currentPair) return *)
  | Some (left_, right_) =>
      let selectedId := match side with
                        | sideLeft => id left_
                        | sideRight => id right_
                        end in
      let '(_, gs, st) := Classic.handleChoice selectedId (gameState w) (statsStore w) in
      {| settings := settings w; gameState := gs; statsStore := st; rng := rng w |}
  end.

(** [onApplySettings], from the state of the four controls of the menu:
    the series checked are read only when the custom toggle is on. *)
Definition onApplySettings (rev : Revision) (allChars : list Character)
    (veryHard customMode lightMode : bool) (checkedSeries : list string) (w : World) : World :=
  let selectedSeries := if customMode then checkedSeries else [] in
  let w1 := {| settings := {| veryHardMode := veryHard; customMode := customMode;
                              customSeries := selectedSeries; lightMode := lightMode |};
               gameState := gameState w; statsStore := statsStore w; rng := rng w |} in
  restartAndRenderNewRound rev allChars w1.

(** [showVsMode] of main.js: [initGameState(); startNewRound(); renderUI()]. *)
Definition showVsMode (rev : Revision) (allChars : list Character) (w : World) : World :=
  withEngine w
    (Classic.startNewRound rev (settings w) allChars Classic.initGameState (rng w)).

(** What the player and the page can do in the two-card mode. *)
Inductive Event : Type :=
| CardClick (side : Side)
| NextClick                     (* next-button: restartAndRenderNewRound *)
| RestartClick                  (* restart-button: restartAndRenderNewRound *)
| ApplyClick (veryHard customMode lightMode : bool) (checkedSeries : list string)
| ShowVs.

Definition handle (rev : Revision) (allChars : list Character) (e : Event) (w : World)
    : World :=
  match e with
  | CardClick side => onCardClick side w
  | NextClick | RestartClick => restartAndRenderNewRound rev allChars w
  | ApplyClick veryHard customMode lightMode checkedSeries =>
      onApplySettings rev allChars veryHard customMode lightMode checkedSeries w
  | ShowVs => showVsMode rev allChars w
  end.

Definition run (rev : Revision) (allChars : list Character) (events : list Event)
    (w : World) : World :=
  foldl (λ w e, handle rev allChars e w) w events.

(** [onOddCardClick(index)] of uiOdd.js on the Odd-One-Out state and the
    stats. *)
Definition onOddCardClick (index : nat) (gs : Odd.OddGameState) (st : StatsStore)
    : Odd.OddGameState * StatsStore :=
  match Odd.options gs !! index with
  | None => (gs, st)                                   (* !state.options[index] *)
  | Some c =>
      let '(_, gs', st') := Odd.handleOddChoice (id c) gs st in (gs', st')
  end.

End Ui.

(** ** Vocabulary of the statements below *)

(** Characters without a tier take no part in the grouping. *)
Definition usable (c : Character) : Prop := truthy (highestTier c) = true.

(** The tiers and candidate pairs [startNewRound] works with. *)
Definition classicTiers (settings : Settings) (allChars : list Character) : list string :=
  let groups := Classic.buildFilteredGroups settings allChars in
  filter (λ key, (0 < length (default [] (groupsGet groups key)))%nat) (groupsKeys groups).

Definition classicPairs (rev : Revision) (settings : Settings) (allChars : list Character)
    : list (string * string) :=
  Classic.candidatePairsOf rev (veryHardMode settings) (classicTiers settings allChars).

(** A round committed from [gs] out of [groups] and [pairs]: the two cards
    come from the groups of a candidate pair of tiers, neither is used, and
    the stronger one gives [correctId]. *)
Definition classicCommit (groups : Groups) (pairs : list (string * string))
    (gs gs' : Classic.GameState) : Prop :=
  ∃ tA tB gA gB l r s,
    (tA, tB) ∈ pairs ∧
    groupsGet groups tA = Some gA ∧ groupsGet groups tB = Some gB ∧
    l ∈ gA ∧ r ∈ gB ∧
    (getCharacterKey l ∉ Classic.usedCharacterKeys gs) ∧
    (getCharacterKey r ∉ Classic.usedCharacterKeys gs) ∧
    getStrongerCharacter l r = Some s ∧
    gs' = {| Classic.phase := inRound;
             Classic.currentPair := Some (l, r);
             Classic.correctId := Some (id s);
             Classic.streak := Classic.streak gs;
             Classic.usedCharacterKeys := Classic.usedCharacterKeys gs |}.

(** The state and the result of a valid Classic choice. *)
Definition classicResolved (correct : bool) (gs : Classic.GameState) (l r : Character)
    : Classic.GameState :=
  {| Classic.phase := if correct then afterCorrect else afterWrong;
     Classic.currentPair := Classic.currentPair gs;
     Classic.correctId := Classic.correctId gs;
     Classic.streak := if correct then S (Classic.streak gs) else 0%nat;
     Classic.usedCharacterKeys :=
       {[ getCharacterKey r ]} ∪ ({[ getCharacterKey l ]} ∪ Classic.usedCharacterKeys gs) |}.

(** A round committed from [gs]: three cards of the group of one tier, one
    card of the group of another tier, in some order; in [RevAlt] the four
    identity keys are distinct. *)
Definition oddCommit (rev : Revision) (settings : Settings) (allChars : list Character)
    (gs gs' : Odd.OddGameState) : Prop :=
  let groups :=
    groupByTier (Odd.buildFilteredPoolForOdd rev settings allChars (Odd.usedCharacterKeys gs)) in
  ∃ tM tO gM gO m1 m2 m3 o opts,
    groupsGet groups tM = Some gM ∧ groupsGet groups tO = Some gO ∧ tO ≠ tM ∧
    m1 ∈ gM ∧ m2 ∈ gM ∧ m3 ∈ gM ∧ o ∈ gO ∧
    opts ≡ₚ [m1; m2; m3; o] ∧
    (rev = RevAlt → NoDup (keysOf opts)) ∧
    gs' = {| Odd.phase := inRound; Odd.options := opts; Odd.oddId := Some (id o);
             Odd.streak := Odd.streak gs;
             Odd.usedCharacterKeys := Odd.usedCharacterKeys gs |}.

(** The state of a valid Odd-One-Out choice. *)
Definition oddResolved (correct : bool) (gs : Odd.OddGameState) : Odd.OddGameState :=
  {| Odd.phase := if correct then afterCorrect else afterWrong;
     Odd.options := Odd.options gs;
     Odd.oddId := Odd.oddId gs;
     Odd.streak := if correct then (Odd.streak gs + 1)%nat else 0%nat;
     Odd.usedCharacterKeys := Odd.markUsed (Odd.usedCharacterKeys gs) (Odd.options gs) |}.

(** What one step of an engine may do to the state and to the log; [used]
    reads the keys used in the run so far and [inPlay] the round in play. *)
Inductive StepSpec {W : Type} (used : W → gset string)
    (inPlay : W → option (list Character)) (w w' : W) : list Event → Prop :=
| step_quiet :
    used w' = used w → (inPlay w' = None ∨ inPlay w' = inPlay w) →
    StepSpec used inPlay w w' []
| step_commit cs :
    used w' = used w → inPlay w' = Some cs →
    Forall (λ c, getCharacterKey c ∉ used w) cs →
    StepSpec used inPlay w w' [Committed cs]
| step_resolve cs :
    inPlay w = Some cs → inPlay w' = None → used w ⊆ used w' →
    Forall (λ c, getCharacterKey c ∈ used w') cs →
    StepSpec used inPlay w w' [Resolved cs]
| step_restart :
    used w' = ∅ → inPlay w' = None → StepSpec used inPlay w w' [Restarted]
| step_restart_commit cs :
    used w' = ∅ → inPlay w' = Some cs →
    StepSpec used inPlay w w' [Restarted; Committed cs].

(** The invariant of a run.  [resolved] are the rounds resolved so far in
    the run: their keys are used, and none is a key of the round in play. *)
Definition RunInv {W : Type} (used : W → gset string)
    (inPlay : W → option (list Character)) (w : W)
    (resolved : list (list Character)) : Prop :=
  (∀ cs, cs ∈ resolved → Forall (λ c, getCharacterKey c ∈ used w) cs) ∧
  (∀ cs cs', cs ∈ resolved → inPlay w = Some cs' → keysApart cs (Committed cs')).

Definition classicUsed (w : ClassicWorld) : gset string := Classic.usedCharacterKeys w.1.1.
Definition classicWorldInPlay (w : ClassicWorld) : option (list Character) :=
  classicInPlay w.1.1.
Definition oddUsed (w : OddWorld) : gset string := Odd.usedCharacterKeys w.1.1.
Definition oddWorldInPlay (w : OddWorld) : option (list Character) := oddInPlay w.1.1.

(** Two characters of the filtered pool whose tiers are different labels
    at a distance that the revision and the mode accept. *)
Definition availablePair (rev : Revision) (settings : Settings)
    (allChars : list Character) : Prop :=
  ∃ a b tA tB,
    a ∈ applyModeFilters settings allChars ∧ b ∈ applyModeFilters settings allChars ∧
    highestTier a = Some tA ∧ highestTier b = Some tB ∧ tA ≠ tB ∧
    Classic.acceptsDistance rev (veryHardMode settings) (Classic.tierDistance tA tB) = true.

(** Every tier of the pool is a label of the ladder, as in a pool built by
    the data loader. *)
Definition rankedPool (allChars : list Character) : Prop :=
  Forall (λ c, highestTier c = None ∨ 0 ≤ getTierIndex (highestTier c)) allChars.

(** The number of rounds resolved in a log. *)
Fixpoint resolvedCount (log : list Event) : nat :=
  match log with
  | [] => 0
  | Resolved _ :: rest => S (resolvedCount rest)
  | _ :: rest => resolvedCount rest
  end.

(** What every handler of the two-card page keeps, relative to the stats
    [st0] the page was loaded with: the streak is at most 1, a round in play
    has streak 0, and every call of [recordRound] made since passed at
    most 1. *)
Definition firstRoundOnly (st0 : StatsStore) (w : Ui.World) : Prop :=
  (Classic.streak (Ui.gameState w) ≤ 1)%nat ∧
  (Classic.phase (Ui.gameState w) = inRound → Classic.streak (Ui.gameState w) = 0%nat) ∧
  (bestStreak (stats (Ui.statsStore w)) ≤ bestStreak (stats st0) `max` 1)%nat ∧
  ∃ calls, recordRoundCalls (Ui.statsStore w) = recordRoundCalls st0 ++ calls ∧
           Forall (λ c, (c.2 ≤ 1)%nat) calls.

(** A round of Odd-One-Out can be built from [pool]: some tier has three
    characters in its group and another tier has one. *)
Definition oddRoundPossible (pool : list Character) : Prop :=
  ∃ tM tO, tO ≠ tM ∧
           (3 ≤ Odd.groupSize (groupByTier pool) tM)%nat ∧
           (1 ≤ Odd.groupSize (groupByTier pool) tO)%nat.

(** ** Concrete inputs used by the examples below *)

Definition mkChar (i n o : string) (t : string) : Character :=
  {| id := i; name := n; origin := o; highestTier := Some t;
     _raw := Some {| Name := Some n; Origin := Some o |} |}.

Definition veryHardSettings : Settings :=
  {| veryHardMode := true; customMode := false; customSeries := []; lightMode := false |}.

Definition emptyStats : StatsStore := {| stats := initialStats; recordRoundCalls := [] |}.

(** An oracle whose k-th draw is k. *)
Definition countingRng : Rng := {| draws := λ k, k; pos := 0 |}.

Definition goku : Character := mkChar "c-goku" "Goku" "Dragon Ball" "2-C".
Definition saitama : Character := mkChar "c-saitama" "Saitama" "One Punch Man" "5-B".
Definition azathoth : Character := mkChar "c-azathoth" "Azathoth" "Cthulhu Mythos" "Tier 0".
Definition featherine : Character := mkChar "c-featherine" "Featherine" "Umineko" "1-A".
Definition kami : Character := mkChar "c-kami" "Kami Tenchi" "Tenchi Muyo" "High 1-A".
Definition zeno : Character := mkChar "c-zeno" "Zeno" "Dragon Ball" "High 1-B".
Definition beerus : Character := mkChar "c-beerus" "Beerus" "Dragon Ball" "1-B".
Definition gokuTwin : Character := mkChar "c-goku-2" "Goku" "Dragon Ball" "2-C".
Definition vegeta : Character := mkChar "c-vegeta" "Vegeta" "Dragon Ball" "2-C".
Definition frieza : Character := mkChar "c-frieza" "Frieza" "Dragon Ball" "2-C".

(** The Odd-One-Out round that [RevAlt] commits from
    [goku; vegeta; frieza; saitama] with the counting oracle. *)
Definition oddRoundOfFour : Odd.OddGameState :=
  {| Odd.phase := inRound; Odd.options := [saitama; vegeta; goku; frieza];
     Odd.oddId := Some (id saitama); Odd.streak := 0; Odd.usedCharacterKeys := ∅ |}.

(** A Classic run on four characters: a restart, a right answer, the next
    round, a wrong answer. *)
Definition rightThenWrongRun : ClassicWorld * list Event :=
  classicRun RevAlt defaultSettings [azathoth; featherine; goku; saitama]
    [OpRestart; OpChoice (id azathoth); OpStart; OpChoice (id saitama)]
    (Classic.initGameState, emptyStats, countingRng).

(** An Odd-One-Out round in play after two right answers. *)
Definition oddRoundStreakTwo : Odd.OddGameState :=
  {| Odd.phase := inRound; Odd.options := [saitama; vegeta; goku; frieza];
     Odd.oddId := Some (id saitama); Odd.streak := 2; Odd.usedCharacterKeys := ∅ |}.

(** The Classic round committed from [goku; saitama] at the start of a run. *)
Definition twoPoolAfterStart : Classic.GameState :=
  {| Classic.phase := inRound; Classic.currentPair := Some (goku, saitama);
     Classic.correctId := Some (id goku); Classic.streak := 0;
     Classic.usedCharacterKeys := ∅ |}.

(** The same round in play after two right answers of the run. *)
Definition twoPoolStreakTwo : Classic.GameState :=
  {| Classic.phase := inRound; Classic.currentPair := Some (goku, saitama);
     Classic.correctId := Some (id goku); Classic.streak := 2;
     Classic.usedCharacterKeys := ∅ |}.

(** The Classic round that [dragonBallOnly] commits from
    [goku; saitama; zeno; azathoth] at the start of a run. *)
Definition customRound : Classic.GameState :=
  {| Classic.phase := inRound; Classic.currentPair := Some (goku, zeno);
     Classic.correctId := Some (id zeno); Classic.streak := 0;
     Classic.usedCharacterKeys := ∅ |}.

(** Settings with the custom mode on and one series. *)
Definition dragonBallOnly : Settings :=
  {| veryHardMode := false; customMode := true;
     customSeries := ["Dragon Ball"]; lightMode := false |}.

(** Two characters whose tier labels are not on the ladder. *)
Definition offLadderA : Character := mkChar "c-off-a" "Alpha" "Elsewhere" "S".
Definition offLadderB : Character := mkChar "c-off-b" "Beta" "Elsewhere" "SS".

(** ** tierUtils.js: the ladder and the stronger of two characters *)

Lemma TIER_ORDER_NoDup : NoDup TIER_ORDER.
Proof. apply (bool_decide_unpack (NoDup TIER_ORDER)). vm_compute. exact I. Qed.

Lemma indexOfFrom_bounds k xs x :
  indexOfFrom k xs x = -1 ∨ k ≤ indexOfFrom k xs x < k + Z.of_nat (length xs).
Proof.
  revert k. induction xs as [|y ys IH]; intros k; simpl; [by left|].
  destruct (String.eqb y x); [right; lia|].
  destruct (IH (k + 1)) as [->|?]; [by left | right; lia].
Qed.

Lemma getTierIndex_range t : -1 ≤ getTierIndex t < Z.of_nat (length TIER_ORDER).
Proof.
  unfold getTierIndex, indexOf. destruct t as [s|].
  - pose proof (indexOfFrom_bounds 0 TIER_ORDER s) as H.
    generalize dependent (indexOfFrom 0 TIER_ORDER s). intros z Hz.
    change (length TIER_ORDER) with 54%nat in *. lia.
  - change (length TIER_ORDER) with 54%nat. lia.
Qed.

(** C5. [getStrongerCharacter] is a function of its two arguments alone; on
    two ranked characters it returns one of them and never a third value:
    the first exactly when its index is strictly lower, the second exactly
    when the second's index is lower or equal (so the lower index wins in
    either order of the arguments); it returns [null] exactly when one of the
    two is unranked; and "Tier 0" against "1-A" gives the "Tier 0"
    character, whichever of the two is passed first. *)
Theorem getStrongerCharacter_spec :
  (∀ a b, 0 ≤ getTierIndex (highestTier a) → 0 ≤ getTierIndex (highestTier b) →
     (getStrongerCharacter a b = Some a ∨ getStrongerCharacter a b = Some b) ∧
     (getTierIndex (highestTier a) < getTierIndex (highestTier b) →
        getStrongerCharacter a b = Some a) ∧
     (getTierIndex (highestTier b) ≤ getTierIndex (highestTier a) →
        getStrongerCharacter a b = Some b) ∧
     (getStrongerCharacter a b = Some a →
        getTierIndex (highestTier a) < getTierIndex (highestTier b) ∨ a = b) ∧
     (getStrongerCharacter a b = Some b →
        getTierIndex (highestTier b) ≤ getTierIndex (highestTier a) ∨ a = b)) ∧
  (∀ a b, getStrongerCharacter a b = None ↔
     getTierIndex (highestTier a) < 0 ∨ getTierIndex (highestTier b) < 0) ∧
  (∀ a b, highestTier a = Some "Tier 0" → highestTier b = Some "1-A" →
     getStrongerCharacter a b = Some a ∧ getStrongerCharacter b a = Some a).
Proof.
  split; [|split].
  - intros a b Ha Hb. unfold getStrongerCharacter.
    destruct (Z.ltb_spec (getTierIndex (highestTier a)) 0); [lia|].
    destruct (Z.ltb_spec (getTierIndex (highestTier b)) 0); [lia|]. cbn [orb].
    destruct (Z.ltb_spec (getTierIndex (highestTier a)) (getTierIndex (highestTier b))).
    + split_and!; [by left | done | lia | by left |]. intros [= ->]. by right.
    + split_and!; [by right | lia | done | | by left]. intros [= ->]. by right.
  - intros a b. unfold getStrongerCharacter.
    destruct (Z.ltb_spec (getTierIndex (highestTier a)) 0);
      destruct (Z.ltb_spec (getTierIndex (highestTier b)) 0); simpl;
      split; intros; try done; try (by left); try (by right); lia.
  - intros a b Ha Hb. unfold getStrongerCharacter. rewrite Ha, Hb. split; reflexivity.
Qed.

(** The stronger card passed second: "1-A" against "Tier 0" gives the
    "Tier 0" character, and so does "Tier 0" against "1-A". *)
Lemma getStrongerCharacter_spec_witness :
  getStrongerCharacter featherine azathoth = Some azathoth ∧
  getStrongerCharacter azathoth featherine = Some azathoth ∧
  (getStrongerCharacter azathoth featherine = Some azathoth ∧
   getStrongerCharacter featherine azathoth = Some azathoth).
Proof.
  split; [|split].
  - apply (proj1 getStrongerCharacter_spec featherine azathoth);
      [vm_compute; discriminate | vm_compute; discriminate | vm_compute; discriminate].
  - apply (proj1 getStrongerCharacter_spec azathoth featherine);
      [vm_compute; discriminate | vm_compute; discriminate | vm_compute; reflexivity].
  - apply (proj2 (proj2 getStrongerCharacter_spec) azathoth featherine); reflexivity.
Defined.

(** C10. On a tie (both labels at the same index of the ladder) the second
    argument is returned. *)
Theorem getStrongerCharacter_tie (a b : Character) :
  0 ≤ getTierIndex (highestTier a) →
  getTierIndex (highestTier a) = getTierIndex (highestTier b) →
  getStrongerCharacter a b = Some b.
Proof.
  intros Ha Heq. unfold getStrongerCharacter. rewrite <- Heq.
  destruct (Z.ltb_spec (getTierIndex (highestTier a)) 0); [lia|]. simpl.
  by rewrite Z.ltb_irrefl.
Qed.

Lemma getStrongerCharacter_tie_witness :
  getStrongerCharacter goku gokuTwin = Some gokuTwin ∧
  getStrongerCharacter goku vegeta = Some vegeta.
Proof.
  split.
  - apply (getStrongerCharacter_tie goku gokuTwin); [vm_compute; discriminate | reflexivity].
  - apply (getStrongerCharacter_tie goku vegeta); [vm_compute; discriminate | reflexivity].
Defined.

(** ** stats.js: the lifetime counters *)

Lemma recordRoundStats_best correct k s :
  bestStreak (recordRoundStats correct k s) =
  if correct then (bestStreak s `max` k)%nat else bestStreak s.
Proof.
  unfold recordRoundStats. destruct correct; simpl; [|done].
  destruct (Nat.ltb_spec (bestStreak s) k); simpl; lia.
Qed.

(** C7. One call of [recordRound] adds one to [totalRounds], adds one to
    [totalCorrectRounds] exactly when [correct] holds (and leaves it alone
    otherwise) and never lowers [bestStreak]; after any sequence of calls
    [bestStreak] is the larger of its initial value and the greatest
    [streakAfterRound] passed with [correct = true]. *)
Theorem recordRound_counters :
  (∀ correct k st,
     totalRounds (stats (recordRound correct k st)) = (totalRounds (stats st) + 1)%nat ∧
     (totalCorrectRounds (stats (recordRound correct k st))
        = (totalCorrectRounds (stats st) + 1)%nat ↔ correct = true) ∧
     (correct = false →
        totalCorrectRounds (stats (recordRound correct k st)) = totalCorrectRounds (stats st)) ∧
     (bestStreak (stats st) ≤ bestStreak (stats (recordRound correct k st)))%nat) ∧
  (∀ calls st,
     bestStreak (stats (recordRounds calls st))
       = (bestStreak (stats st) `max` max_list ((filter (λ call, call.1 = true) calls).*2))%nat).
Proof.
  split.
  - intros correct k st. unfold recordRound; simpl.
    pose proof (recordRoundStats_best correct k (stats st)) as Hb.
    unfold recordRoundStats in *. destruct correct; simpl in *.
    + destruct (Nat.ltb_spec (bestStreak (stats st)) k); simpl in *;
        repeat split; intros; try done; lia.
    + repeat split; intros; try done; lia.
  - intros calls. induction calls as [|[correct k] calls IH]; intros st.
    + unfold recordRounds; simpl. lia.
    + change (recordRounds ((correct, k) :: calls) st)
        with (recordRounds calls (recordRound correct k st)).
      rewrite IH. unfold recordRound; simpl. rewrite recordRoundStats_best.
      destruct correct.
      * rewrite filter_cons_True by done. simpl.
        rewrite <- Nat.max_assoc. reflexivity.
      * rewrite filter_cons_False by done. reflexivity.
Qed.

(** ** The two choice handlers *)

Lemma handleChoice_cases selectedId gs st :
  (Classic.handleChoice selectedId gs st = (Classic.Invalid, gs, st) ∧
   (Classic.phase gs ≠ inRound ∨ Classic.currentPair gs = None ∨
    ∃ l r, Classic.currentPair gs = Some (l, r) ∧ id l ≠ selectedId ∧ id r ≠ selectedId))
  ∨
  (∃ l r correct,
     Classic.phase gs = inRound ∧ Classic.currentPair gs = Some (l, r) ∧
     (id l = selectedId ∨ id r = selectedId) ∧
     correct = bool_decide (Some selectedId = Classic.correctId gs) ∧
     Classic.handleChoice selectedId gs st =
       (Classic.Valid correct selectedId (Classic.correctId gs)
          (if correct then S (Classic.streak gs) else 0%nat)
          (if correct then afterCorrect else afterWrong),
        classicResolved correct gs l r,
        recordRound correct (if correct then S (Classic.streak gs) else Classic.streak gs) st)).
Proof.
  unfold Classic.handleChoice.
  destruct (decide (Classic.phase gs ≠ inRound)) as [Hph|Hph]; [left; auto|].
  apply dec_stable in Hph.
  destruct (Classic.currentPair gs) as [[l r]|] eqn:Hpair; [|left; auto].
  destruct (decide (id l = selectedId)) as [Hl|Hl].
  - right. exists l, r, (bool_decide (Some selectedId = Classic.correctId gs)).
    rewrite Hl. unfold classicResolved. rewrite Hpair.
    destruct (bool_decide (Some selectedId = Classic.correctId gs)); auto 10.
  - destruct (decide (id r = selectedId)) as [Hr|Hr].
    + right. exists l, r, (bool_decide (Some selectedId = Classic.correctId gs)).
      rewrite Hr. unfold classicResolved. rewrite Hpair.
      destruct (bool_decide (Some selectedId = Classic.correctId gs)); auto 10.
    + left. split; [done|]. right; right. eauto.
Qed.

Lemma find_id_None selectedId (cs : list Character) :
  List.find (λ c, bool_decide (id c = selectedId)) cs = None ↔
  Forall (λ c, id c ≠ selectedId) cs.
Proof.
  induction cs as [|c cs IH]; simpl; [by split; auto|].
  destruct (decide (id c = selectedId)) as [He|He].
  - rewrite bool_decide_eq_true_2 by done. split; [done|].
    intros H. by apply Forall_cons in H as [? _].
  - rewrite bool_decide_eq_false_2 by done. rewrite IH, Forall_cons. tauto.
Qed.

Lemma handleOddChoice_cases selectedId gs st :
  ((∃ message, Odd.handleOddChoice selectedId gs st = (Odd.Invalid message, gs, st)) ∧
   (Odd.phase gs ≠ inRound ∨ length (Odd.options gs) ≠ 4%nat ∨
    Forall (λ c, id c ≠ selectedId) (Odd.options gs)))
  ∨
  (∃ correct,
     Odd.phase gs = inRound ∧ length (Odd.options gs) = 4%nat ∧
     Exists (λ c, id c = selectedId) (Odd.options gs) ∧
     correct = bool_decide (Some selectedId = Odd.oddId gs) ∧
     Odd.handleOddChoice selectedId gs st =
       (Odd.Valid correct selectedId (Odd.oddId gs) (Odd.options gs)
          (if correct then (Odd.streak gs + 1)%nat else 0%nat)
          (if correct then afterCorrect else afterWrong),
        oddResolved correct gs,
        recordRound correct
          (if correct then (Odd.streak gs + 1)%nat else Odd.streak gs) st)).
Proof.
  unfold Odd.handleOddChoice.
  destruct (decide (Odd.phase gs ≠ inRound)) as [Hph|Hph].
  { rewrite bool_decide_eq_true_2 by done. left. eauto. }
  rewrite bool_decide_eq_false_2 by done. apply dec_stable in Hph.
  destruct (Nat.eqb_spec (length (Odd.options gs)) 4) as [Hlen|Hlen]; simpl;
    [|left; eauto].
  destruct (List.find _ (Odd.options gs)) as [selected|] eqn:Hfind.
  - right. exists (bool_decide (Some selectedId = Odd.oddId gs)).
    assert (Exists (λ c, id c = selectedId) (Odd.options gs)) as Hex.
    { apply List.find_some in Hfind as [Hin Hid].
      apply Exists_exists. exists selected. split; [by apply list_elem_of_In|].
      by apply bool_decide_eq_true in Hid. }
    unfold oddResolved.
    destruct (bool_decide (Some selectedId = Odd.oddId gs)); auto 10.
  - left. split; [eauto|]. right; right. by apply find_id_None.
Qed.

(** C6. In either engine a choice of a card of the round in play is valid
    and resolves the round: it is correct exactly when [selectedId] is
    [correctId] / [oddId], and it sets the run streak, in the state and in
    the returned [streak] field, to the prior streak plus one when the answer
    is correct and to zero when it is not.  Conversely every valid result
    comes about in this way. *)
Theorem streak_after_valid_choice :
  (∀ selectedId gs st l r,
     Classic.phase gs = inRound → Classic.currentPair gs = Some (l, r) →
     id l = selectedId ∨ id r = selectedId →
     ∃ correct k ph gs' st',
       Classic.handleChoice selectedId gs st
         = (Classic.Valid correct selectedId (Classic.correctId gs) k ph, gs', st') ∧
       (correct = true ↔ Some selectedId = Classic.correctId gs) ∧
       Classic.streak gs' = k ∧
       k = if correct then (Classic.streak gs + 1)%nat else 0%nat) ∧
  (∀ selectedId gs st correct sid cid k ph gs' st',
     Classic.handleChoice selectedId gs st = (Classic.Valid correct sid cid k ph, gs', st') →
     (correct = true ↔ Some selectedId = Classic.correctId gs) ∧
     Classic.streak gs' = k ∧
     k = if correct then (Classic.streak gs + 1)%nat else 0%nat) ∧
  (∀ selectedId gs st c,
     Odd.phase gs = inRound → length (Odd.options gs) = 4%nat →
     c ∈ Odd.options gs → id c = selectedId →
     ∃ correct k ph gs' st',
       Odd.handleOddChoice selectedId gs st
         = (Odd.Valid correct selectedId (Odd.oddId gs) (Odd.options gs) k ph, gs', st') ∧
       (correct = true ↔ Some selectedId = Odd.oddId gs) ∧
       Odd.streak gs' = k ∧
       k = if correct then (Odd.streak gs + 1)%nat else 0%nat) ∧
  (∀ selectedId gs st correct sid oid opts k ph gs' st',
     Odd.handleOddChoice selectedId gs st = (Odd.Valid correct sid oid opts k ph, gs', st') →
     (correct = true ↔ Some selectedId = Odd.oddId gs) ∧
     Odd.streak gs' = k ∧
     k = if correct then (Odd.streak gs + 1)%nat else 0%nat).
Proof.
  split_and!.
  - intros selectedId gs st l r Hph Hpair Hsel.
    destruct (handleChoice_cases selectedId gs st)
      as [[_ Hbad]|(l' & r' & c & _ & Hpair' & _ & Hc & Hval)].
    { exfalso. destruct Hbad as [?|[?|(l' & r' & Hpair' & Hl & Hr)]]; [done|congruence|].
      rewrite Hpair in Hpair'. injection Hpair' as <- <-. by destruct Hsel. }
    rewrite Hval. do 5 eexists. split; [reflexivity|].
    subst c. rewrite bool_decide_eq_true. unfold classicResolved. rewrite Hpair'.
    cbn [Classic.streak].
    destruct (bool_decide _); split_and!; auto; lia.
  - intros selectedId gs st correct sid cid k ph gs' st' H.
    destruct (handleChoice_cases selectedId gs st)
      as [[Hinv _]|(l & r & c & _ & _ & _ & Hc & Hval)]; [congruence|].
    rewrite Hval in H. injection H as <- <- <- <- <- <- <-.
    subst c. rewrite bool_decide_eq_true. simpl.
    destruct (bool_decide _); repeat split; auto; lia.
  - intros selectedId gs st c0 Hph Hlen Hin Hid.
    destruct (handleOddChoice_cases selectedId gs st)
      as [[_ Hbad]|(c & _ & _ & _ & Hc & Hval)].
    { exfalso. destruct Hbad as [?|[?|Hall]]; [done|done|].
      rewrite Forall_forall in Hall. by apply (Hall c0 Hin). }
    rewrite Hval. do 5 eexists. split; [reflexivity|].
    subst c. rewrite bool_decide_eq_true. unfold oddResolved. cbn [Odd.streak].
    destruct (bool_decide _); split_and!; auto.
  - intros selectedId gs st correct sid oid opts k ph gs' st' H.
    destruct (handleOddChoice_cases selectedId gs st)
      as [[[m Hinv] _]|(c & _ & _ & _ & Hc & Hval)]; [congruence|].
    rewrite Hval in H. injection H as <- <- <- <- <- <- <- <-.
    subst c. rewrite bool_decide_eq_true. simpl.
    destruct (bool_decide _); repeat split; auto; lia.
Qed.

(** A right and a wrong answer to a round in play after two right answers,
    in each engine: the streak becomes 3, or 0. *)
Lemma streak_after_valid_choice_witness :
  Classic.streak (Classic.handleChoice (id goku) twoPoolStreakTwo emptyStats).1.2 = 3%nat ∧
  Classic.streak (Classic.handleChoice (id saitama) twoPoolStreakTwo emptyStats).1.2 = 0%nat ∧
  Odd.streak (Odd.handleOddChoice (id saitama) oddRoundStreakTwo emptyStats).1.2 = 3%nat ∧
  Odd.streak (Odd.handleOddChoice (id goku) oddRoundStreakTwo emptyStats).1.2 = 0%nat.
Proof.
  split_and!.
  - destruct (proj1 streak_after_valid_choice (id goku) twoPoolStreakTwo emptyStats
                goku saitama eq_refl eq_refl (or_introl eq_refl))
      as (correct & k & ph & gs' & st' & Heq & Hiff & Hs & Hk).
    rewrite Heq. cbn [fst snd]. rewrite Hs, Hk.
    destruct correct; [reflexivity|]. by destruct (proj2 Hiff eq_refl).
  - destruct (proj1 streak_after_valid_choice (id saitama) twoPoolStreakTwo emptyStats
                goku saitama eq_refl eq_refl (or_intror eq_refl))
      as (correct & k & ph & gs' & st' & Heq & Hiff & Hs & Hk).
    rewrite Heq. cbn [fst snd]. rewrite Hs, Hk.
    destruct correct; [|reflexivity]. by destruct (proj1 Hiff eq_refl).
  - destruct (proj1 (proj2 (proj2 streak_after_valid_choice)) (id saitama)
                oddRoundStreakTwo emptyStats saitama eq_refl eq_refl
                ltac:(left) eq_refl)
      as (correct & k & ph & gs' & st' & Heq & Hiff & Hs & Hk).
    rewrite Heq. cbn [fst snd]. rewrite Hs, Hk.
    destruct correct; [reflexivity|]. by destruct (proj2 Hiff eq_refl).
  - destruct (proj1 (proj2 (proj2 streak_after_valid_choice)) (id goku)
                oddRoundStreakTwo emptyStats goku eq_refl eq_refl
                ltac:(do 2 right; left) eq_refl)
      as (correct & k & ph & gs' & st' & Heq & Hiff & Hs & Hk).
    rewrite Heq. cbn [fst snd]. rewrite Hs, Hk.
    destruct correct; [|reflexivity]. by destruct (proj1 Hiff eq_refl).
Defined.

(** C8. A choice made when the phase is not [inRound], when there is no
    current pair, or with an id that is neither card's, returns
    [valid: false] and changes neither the engine state nor the stats; the
    same holds for the Odd-One-Out handler when the phase is not [inRound],
    there are not exactly four options, or the id is none of theirs. *)
Theorem invalid_choice_is_noop :
  (∀ selectedId gs st,
     (Classic.phase gs ≠ inRound ∨ Classic.currentPair gs = None ∨
      ∃ l r, Classic.currentPair gs = Some (l, r) ∧ id l ≠ selectedId ∧ id r ≠ selectedId) →
     Classic.handleChoice selectedId gs st = (Classic.Invalid, gs, st)) ∧
  (∀ selectedId gs st,
     (Odd.phase gs ≠ inRound ∨ length (Odd.options gs) ≠ 4%nat ∨
      Forall (λ c, id c ≠ selectedId) (Odd.options gs)) →
     ∃ message, Odd.handleOddChoice selectedId gs st = (Odd.Invalid message, gs, st)).
Proof.
  split.
  - intros selectedId gs st Hcond.
    destruct (handleChoice_cases selectedId gs st)
      as [[Hinv _]|(l & r & c & Hph & Hpair & Hsel & _)]; [done|].
    exfalso. destruct Hcond as [?|[?|(l' & r' & Hp & ? & ?)]]; [done|congruence|].
    rewrite Hpair in Hp. injection Hp as <- <-. tauto.
  - intros selectedId gs st Hcond.
    destruct (handleOddChoice_cases selectedId gs st)
      as [[Hinv _]|(c & Hph & Hlen & Hex & _)]; [done|].
    exfalso. destruct Hcond as [?|[?|HF]]; [done|done|].
    apply Exists_exists in Hex as (x & Hx & Hid).
    rewrite Forall_forall in HF. by apply (HF x).
Qed.

(** ** The random source *)

Lemma randomIndex_lt n g : (0 < n)%nat → ((randomIndex n g).1 < n)%nat.
Proof.
  intros Hn. unfold randomIndex; simpl. destruct n as [|n]; [lia|].
  apply Nat.mod_upper_bound. lia.
Qed.

Lemma randomIndex_lookup {A} (l : list A) g :
  l ≠ [] → is_Some (l !! (randomIndex (length l) g).1).
Proof.
  intros Hl. apply lookup_lt_is_Some, randomIndex_lt.
  destruct l; [done | simpl; lia].
Qed.

(** ** The tier groups *)

Lemma groupsGet_push groups key c t :
  groupsGet (groupsPush groups key c) t =
  if decide (key = t) then Some (default [] (groupsGet groups key) ++ [c])
  else groupsGet groups t.
Proof.
  induction groups as [|[k g] groups IH]; simpl.
  - destruct (decide (key = t)); [done|done].
  - destruct (decide (k = key)) as [->|Hk]; simpl.
    + destruct (decide (key = t)); [done|done].
    + rewrite IH. destruct (decide (k = t)) as [->|Ht].
      * by rewrite decide_False by done.
      * done.
Qed.

Lemma groupsKeys_push groups key c :
  groupsKeys (groupsPush groups key c) =
  if decide (key ∈ groupsKeys groups) then groupsKeys groups else groupsKeys groups ++ [key].
Proof.
  unfold groupsKeys. induction groups as [|[k g] groups IH]; csimpl; [done|].
  destruct (decide (k = key)) as [->|Hk]; csimpl.
  - destruct (decide (key ∈ key :: groups.*1)) as [|Hn]; [done|].
    exfalso. apply Hn. by left.
  - rewrite IH.
    destruct (decide (key ∈ groups.*1)) as [Hin|Hin];
      destruct (decide (key ∈ k :: groups.*1)) as [Hin'|Hin']; try done.
    + exfalso. apply Hin'. by right.
    + exfalso. apply elem_of_cons in Hin' as [?|?]; congruence.
Qed.

Section GroupMembers.
Variable P : string → Character → Prop.

Lemma groupStep_members acc c :
  (∀ t g x, groupsGet acc t = Some g → x ∈ g → P t x) →
  (∀ t, highestTier c = Some t → P t c) →
  ∀ t g x, groupsGet (groupStep acc c) t = Some g → x ∈ g → P t x.
Proof.
  intros Hacc Hc t g x. unfold groupStep.
  destruct (highestTier c) as [key|] eqn:Htier; [|by apply Hacc].
  destruct (truthy (Some key)); [|by apply Hacc].
  rewrite groupsGet_push. destruct (decide (key = t)) as [->|Hne]; [|by apply Hacc].
  intros [= <-] [Hx|Hx]%elem_of_app.
  - destruct (groupsGet acc t) as [g0|] eqn:Hg0; simpl in Hx.
    + by eapply Hacc.
    + by apply elem_of_nil in Hx.
  - apply list_elem_of_singleton in Hx as ->. by apply Hc.
Qed.

Lemma foldl_groupStep_members pool acc :
  (∀ t g x, groupsGet acc t = Some g → x ∈ g → P t x) →
  (∀ c t, c ∈ pool → highestTier c = Some t → P t c) →
  ∀ t g x, groupsGet (foldl groupStep acc pool) t = Some g → x ∈ g → P t x.
Proof.
  revert acc. induction pool as [|c pool IH]; intros acc Hacc Hpool; simpl; [done|].
  apply IH.
  - apply groupStep_members; [done|]. intros t Ht. apply Hpool; [by left | done].
  - intros c' t Hin. apply Hpool. by right.
Qed.
End GroupMembers.

(** Every member of the group of a tier is a character of the pool with
    that tier as its [highestTier]. *)
Lemma groupByTier_members pool t g c :
  groupsGet (groupByTier pool) t = Some g → c ∈ g →
  c ∈ pool ∧ highestTier c = Some t.
Proof.
  unfold groupByTier.
  apply (foldl_groupStep_members (λ t c, c ∈ pool ∧ highestTier c = Some t)).
  - intros ? ? ? [=].
  - auto.
Qed.

Lemma groupsGet_keys groups t : is_Some (groupsGet groups t) ↔ t ∈ groupsKeys groups.
Proof.
  unfold groupsKeys. induction groups as [|[k g] groups IH]; simpl.
  - split; [by intros [? [=]] | by intros ?%elem_of_nil].
  - destruct (decide (k = t)) as [->|Hk].
    + split; [by left | eauto].
    + rewrite IH. split; [by right|]. intros [?|?]%elem_of_cons; [congruence|done].
Qed.

Lemma applyModeFilters_subseteq settings allChars :
  applyModeFilters settings allChars ⊆ allChars.
Proof.
  unfold applyModeFilters. intros c.
  destruct (customMode settings && _), (veryHardMode settings);
    rewrite ?list_elem_of_filter; tauto.
Qed.

Lemma applyModeFilters_veryHard settings allChars c :
  veryHardMode settings = true → c ∈ applyModeFilters settings allChars →
  highestTier c ≠ Some "Tier 0".
Proof.
  unfold applyModeFilters. intros ->.
  destruct (customMode settings && _); rewrite ?list_elem_of_filter; tauto.
Qed.

(** ** The Classic engine: what [startNewRound] commits *)

Lemma candidatePairsOf_spec rev veryHard tiers tA tB :
  (tA, tB) ∈ Classic.candidatePairsOf rev veryHard tiers →
  Classic.acceptsDistance rev veryHard (Classic.tierDistance tA tB) = true ∧
  tA ∈ tiers ∧ tB ∈ tiers.
Proof.
  induction tiers as [|t tiers IH]; csimpl; [by intros ?%elem_of_nil|].
  intros [Hin|Hin]%elem_of_app.
  - apply list_elem_of_fmap in Hin as (tB' & [= -> ->] & Hin).
    apply list_elem_of_filter in Hin as [Hadm Hin].
    split; [done|]. split; [by left | by right].
  - destruct (IH Hin) as (? & ? & ?). split; [done|]. split; by right.
Qed.

Lemma pickCharacterFromGroup_Some used group g c g' :
  Classic.pickCharacterFromGroup used group g = (Some c, g') →
  ∃ grp, group = Some grp ∧ c ∈ grp ∧ getCharacterKey c ∉ used.
Proof.
  unfold Classic.pickCharacterFromGroup.
  destruct group as [grp|]; [|by intros [=]].
  destruct (length grp =? 0)%nat; [by intros [=]|].
  destruct (length (filter _ grp) =? 0)%nat; [by intros [=]|].
  destruct (randomIndex _ g) as [i g1]. intros [= Hi <-].
  apply list_elem_of_lookup_2, list_elem_of_filter in Hi as [? ?]. eauto.
Qed.

(** When every character of the group is used, nothing is picked and
    [Math.random] is not called. *)
Lemma pickCharacterFromGroup_exhausted used group g :
  Forall (λ c, getCharacterKey c ∈ used) (default [] group) →
  Classic.pickCharacterFromGroup used group g = (None, g).
Proof.
  unfold Classic.pickCharacterFromGroup. intros Hall.
  destruct group as [grp|]; [|done]. simpl in Hall.
  destruct (length grp =? 0)%nat; [done|].
  replace (filter (λ c, getCharacterKey c ∉ used) grp) with (@nil Character); [done|].
  symmetry. induction Hall as [|c grp Hc _ IH]; [done|].
  rewrite filter_cons_False; [done | by intros ?].
Qed.

Lemma retryLoop_cases n pairs groups gs g :
  match Classic.retryLoop n pairs groups gs g with
  | Returned (gs', _) => gs' = Classic.setPhase error gs ∨ classicCommit groups pairs gs gs'
  | Threw (gs', _) => gs' = gs ∧ pairs = []
  end.
Proof.
  revert g. induction n as [|n IH]; intros g; cbn [Classic.retryLoop]; [by left|].
  destruct (randomIndex (length pairs) g) as [i g1] eqn:Hi.
  destruct (pairs !! i) as [[tierA tierB]|] eqn:Hpair.
  - destruct (Classic.pickCharacterFromGroup (Classic.usedCharacterKeys gs)
                (groupsGet groups tierA) g1) as [left_ g2] eqn:Hleft.
    destruct (Classic.pickCharacterFromGroup (Classic.usedCharacterKeys gs)
                (groupsGet groups tierB) g2) as [right_ g3] eqn:Hright.
    destruct left_ as [l|]; [|apply IH]. destruct right_ as [r|]; [|apply IH].
    destruct (getStrongerCharacter l r) as [s|] eqn:Hs; [|apply IH].
    right. apply pickCharacterFromGroup_Some in Hleft as (gA & HgA & HlA & Hlu).
    apply pickCharacterFromGroup_Some in Hright as (gB & HgB & HrB & Hru).
    exists tierA, tierB, gA, gB, l, r, s.
    apply list_elem_of_lookup_2 in Hpair. auto 10.
  - split; [done|]. destruct pairs as [|p pairs]; [done|]. exfalso.
    destruct (randomIndex_lookup (p :: pairs) g) as [x Hx]; [done|].
    rewrite Hi in Hx. simpl in *. congruence.
Qed.

Lemma startNewRound_cases rev settings allChars gs g :
  match Classic.startNewRound rev settings allChars gs g with
  | Returned (gs', _) =>
      gs' = Classic.setPhase error gs ∨
      classicCommit (Classic.buildFilteredGroups settings allChars)
                    (classicPairs rev settings allChars) gs gs'
  | Threw (gs', _) =>
      gs' = gs ∧ veryHardMode settings = false ∧ classicPairs rev settings allChars = [] ∧
      (2 ≤ length (classicTiers settings allChars))%nat
  end.
Proof.
  unfold Classic.startNewRound. fold (classicTiers settings allChars).
  destruct (Nat.ltb_spec (length (classicTiers settings allChars)) 2) as [|Htwo];
    [by left|].
  fold (classicPairs rev settings allChars).
  destruct (veryHardMode settings) eqn:Hvh; cbn [andb].
  - destruct (length (classicPairs rev settings allChars) =? 0)%nat eqn:Hlen; [by left|].
    pose proof (retryLoop_cases 40 (classicPairs rev settings allChars)
                  (Classic.buildFilteredGroups settings allChars) gs g) as H.
    destruct (Classic.retryLoop _ _ _ _ _) as [[gs' g']|[gs' g']]; [done|].
    destruct H as [_ H]. rewrite H in Hlen. done.
  - pose proof (retryLoop_cases 40 (classicPairs rev settings allChars)
                  (Classic.buildFilteredGroups settings allChars) gs g) as H.
    destruct (Classic.retryLoop _ _ _ _ _) as [[gs' g']|[gs' g']]; [done|].
    destruct H as [? ?]. done.
Qed.

(** The two cards of a committed round: their tiers are an accepted pair,
    both are characters of the pool and unused. *)
Lemma classicCommit_cards rev settings allChars gs gs' :
  classicCommit (Classic.buildFilteredGroups settings allChars)
                (classicPairs rev settings allChars) gs gs' →
  ∃ l r tA tB,
    Classic.phase gs' = inRound ∧ Classic.currentPair gs' = Some (l, r) ∧
    Classic.usedCharacterKeys gs' = Classic.usedCharacterKeys gs ∧
    highestTier l = Some tA ∧ highestTier r = Some tB ∧
    Classic.acceptsDistance rev (veryHardMode settings) (Classic.tierDistance tA tB) = true ∧
    l ∈ allChars ∧ r ∈ allChars ∧
    (getCharacterKey l ∉ Classic.usedCharacterKeys gs) ∧
    (getCharacterKey r ∉ Classic.usedCharacterKeys gs).
Proof.
  intros (tA & tB & gA & gB & l & r & s & Hp & HgA & HgB & Hl & Hr & Hlu & Hru & Hs & ->).
  exists l, r, tA, tB. simpl.
  apply candidatePairsOf_spec in Hp as (Hadm & _ & _).
  destruct (groupByTier_members _ _ _ _ HgA Hl) as [Hlp Hlt].
  destruct (groupByTier_members _ _ _ _ HgB Hr) as [Hrp Hrt].
  apply applyModeFilters_subseteq in Hlp, Hrp. auto 12.
Qed.

(** ** Runs: every logged event comes from one step *)

Lemma runWith_events {W : Type} (step : Op → W → W * list Event) ops w e :
  e ∈ (runWith step ops w).2 → ∃ op w0, e ∈ (step op w0).2.
Proof.
  revert w. induction ops as [|op ops IH]; intros w; simpl; [by intros ?%elem_of_nil|].
  destruct (step op w) as [w1 ev1] eqn:Hstep.
  destruct (runWith step ops w1) as [w2 ev2] eqn:Hrun. simpl.
  intros [Hin|Hin]%elem_of_app.
  - exists op, w. by rewrite Hstep.
  - apply (IH w1). by rewrite Hrun.
Qed.

Lemma classicCommitted_commit rev settings allChars gs g gs' g' e :
  Classic.startNewRound rev settings allChars gs g = Returned (gs', g') →
  e ∈ classicCommitted gs' →
  classicCommit (Classic.buildFilteredGroups settings allChars)
                (classicPairs rev settings allChars) gs gs' ∧
  ∃ l r, Classic.currentPair gs' = Some (l, r) ∧ e = Committed [l; r].
Proof.
  intros Hstart He.
  pose proof (startNewRound_cases rev settings allChars gs g) as Hc.
  rewrite Hstart in Hc. unfold classicCommitted, classicInPlay in He.
  destruct Hc as [->|Hc].
  - simpl in He. by apply elem_of_nil in He.
  - split; [done|].
    destruct (Classic.phase gs'); try by apply elem_of_nil in He.
    destruct (Classic.currentPair gs') as [[l r]|]; [|by apply elem_of_nil in He].
    apply list_elem_of_singleton in He. eauto.
Qed.

(** A round logged as committed by a Classic step was committed by
    [startNewRound], from some state. *)
Lemma classicStep_committed rev settings allChars op w cs :
  Committed cs ∈ (classicStep rev settings allChars op w).2 →
  ∃ gs gs' l r,
    classicCommit (Classic.buildFilteredGroups settings allChars)
                  (classicPairs rev settings allChars) gs gs' ∧
    Classic.currentPair gs' = Some (l, r) ∧ cs = [l; r].
Proof.
  destruct w as [[gs st] g]. destruct op as [|selectedId|]; simpl.
  - destruct (Classic.startNewRound rev settings allChars gs g) as [[gs' g']|[gs' g']] eqn:Hs;
      simpl; [|by intros ?%elem_of_nil].
    intros He. destruct (classicCommitted_commit _ _ _ _ _ _ _ _ Hs He)
      as (Hc & l & r & Hp & [= ->]). eauto 10.
  - destruct (Classic.handleChoice selectedId gs st) as [[res gs'] st']. simpl.
    destruct res; [by intros ?%elem_of_nil|].
    destruct (Classic.currentPair gs) as [[l r]|]; [|by intros ?%elem_of_nil].
    intros [=]%list_elem_of_singleton.
  - unfold Classic.restartGame.
    destruct (Classic.startNewRound rev settings allChars _ g) as [[gs' g']|[gs' g']] eqn:Hs;
      simpl; [|by intros [=]%list_elem_of_singleton].
    intros [[=]|He]%elem_of_cons.
    destruct (classicCommitted_commit _ _ _ _ _ _ _ _ Hs He)
      as (Hc & l & r & Hp & [= ->]). eauto 10.
Qed.

(** C1, as the code has it.  In very hard mode every pair the Classic
    engine commits, in any run from any state, has tier indices exactly 3
    apart in the revision of gameLogic.js that tests [distance === 3], and at
    least 3 apart in the revision that tests [distance >= 3]. *)
Theorem very_hard_pair_distance rev settings allChars ops w l r :
  veryHardMode settings = true →
  Committed [l; r] ∈ (classicRun rev settings allChars ops w).2 →
  match rev with
  | RevAlt => Z.abs (getTierIndex (highestTier l) - getTierIndex (highestTier r)) = 3
  | RevJs => 3 ≤ Z.abs (getTierIndex (highestTier l) - getTierIndex (highestTier r))
  end.
Proof.
  intros Hvh Hin. apply runWith_events in Hin as (op & w0 & Hin).
  apply classicStep_committed in Hin as (gs & gs' & l' & r' & Hc & Hp & [= -> ->]).
  apply classicCommit_cards in Hc
    as (l & r & tA & tB & _ & Hp' & _ & Hl & Hr & Hadm & _).
  rewrite Hp in Hp'. injection Hp' as <- <-.
  rewrite Hl, Hr. rewrite Hvh in Hadm. unfold Classic.tierDistance in Hadm.
  unfold Classic.acceptsDistance in Hadm.
  destruct rev; [by apply Z.leb_le | by apply Z.eqb_eq].
Qed.

(** The claim as stated fails in the revision that tests [distance >= 3]:
    in very hard mode a restart commits "High 1-A" (index 1) against "1-B"
    (index 5), four apart. *)
Lemma very_hard_distance_four_RevJs :
  veryHardMode veryHardSettings = true ∧
  Committed [kami; beerus] ∈
    (classicRun RevJs veryHardSettings [kami; beerus] [OpRestart]
       (Classic.initGameState, emptyStats, countingRng)).2 ∧
  Z.abs (getTierIndex (highestTier kami) - getTierIndex (highestTier beerus)) = 4 ∧
  Z.abs (getTierIndex (highestTier kami) - getTierIndex (highestTier beerus)) ≠ 3.
Proof.
  split; [reflexivity|]. split; [|split; [reflexivity|]].
  - assert ((classicRun RevJs veryHardSettings [kami; beerus] [OpRestart]
               (Classic.initGameState, emptyStats, countingRng)).2
            = [Restarted; Committed [kami; beerus]]) as -> by (vm_compute; reflexivity).
    apply elem_of_cons. right. apply elem_of_cons. by left.
  - vm_compute. discriminate.
Qed.

Lemma very_hard_pair_distance_witness :
  Z.abs (getTierIndex (highestTier kami) - getTierIndex (highestTier zeno)) = 3.
Proof.
  apply (very_hard_pair_distance RevAlt veryHardSettings [kami; zeno] [OpRestart]
           (Classic.initGameState, emptyStats, countingRng) kami zeno).
  - reflexivity.
  - assert ((classicRun RevAlt veryHardSettings [kami; zeno] [OpRestart]
               (Classic.initGameState, emptyStats, countingRng)).2
            = [Restarted; Committed [kami; zeno]]) as -> by (vm_compute; reflexivity).
    apply elem_of_cons. right. apply elem_of_cons. by left.
Defined.

(** ** The Classic engine on an exhausted pool *)

Lemma foldl_groupStep_usable pool acc :
  foldl groupStep acc (filter usable pool) = foldl groupStep acc pool.
Proof.
  revert acc. induction pool as [|c pool IH]; intros acc; [done|].
  destruct (decide (usable c)) as [Hu|Hu].
  - rewrite filter_cons_True by done. simpl. apply IH.
  - rewrite filter_cons_False by done. simpl. rewrite IH. f_equal.
    unfold groupStep, usable in *. destruct (highestTier c) as [key|]; [|done].
    by destruct (truthy (Some key)).
Qed.

Lemma groupByTier_two a b :
  usable a → usable b → highestTier a ≠ highestTier b →
  ∃ ta tb, highestTier a = Some ta ∧ highestTier b = Some tb ∧ ta ≠ tb ∧
           groupByTier [a; b] = [(ta, [a]); (tb, [b])].
Proof.
  unfold usable, groupByTier. intros Ha Hb Hne. cbn [foldl]. unfold groupStep.
  destruct (highestTier a) as [ta|] eqn:Hta; [|done].
  destruct (highestTier b) as [tb|] eqn:Htb; [|done].
  exists ta, tb. rewrite Ha, Hb. cbn [groupsPush].
  destruct (decide (ta = tb)) as [->|Hd]; [done|]. auto.
Qed.

(** The tiers and candidate pairs of a pool of two characters in two tiers. *)
Lemma two_groups_pairs rev veryHard ta tb a b (groups : Groups) :
  ta ≠ tb → groups = [(ta, [a]); (tb, [b])] →
  filter (λ key, (0 < length (default [] (groupsGet groups key)))%nat) (groupsKeys groups)
    = [ta; tb] ∧
  ∀ p, p ∈ Classic.candidatePairsOf rev veryHard [ta; tb] → p = (ta, tb).
Proof.
  intros Hd ->. split.
  - unfold groupsKeys. cbn [fmap list_fmap fst].
    rewrite filter_cons_True.
    2:{ cbn [groupsGet]. rewrite decide_True by done. simpl. lia. }
    rewrite filter_cons_True; [done|].
    cbn [groupsGet]. rewrite decide_False by done. rewrite decide_True by done.
    simpl. lia.
  - intros p. cbn [Classic.candidatePairsOf].
    rewrite filter_nil, fmap_nil, !app_nil_r.
    intros [tB' [-> Hin]]%list_elem_of_fmap.
    apply list_elem_of_filter in Hin as [_ Hin].
    by apply list_elem_of_singleton in Hin as ->.
Qed.

(** With every grouped character used, all attempts fail and the phase is
    [error]; the function returns. *)
Lemma retryLoop_exhausted n pairs groups gs g :
  pairs ≠ [] →
  (∀ t grp, groupsGet groups t = Some grp →
            Forall (λ c, getCharacterKey c ∈ Classic.usedCharacterKeys gs) grp) →
  ∃ g', Classic.retryLoop n pairs groups gs g = Returned (Classic.setPhase error gs, g').
Proof.
  intros Hne Hused. revert g. induction n as [|n IH]; intros g; cbn [Classic.retryLoop]; [eauto|].
  destruct (randomIndex (length pairs) g) as [i g1] eqn:Hi.
  destruct (randomIndex_lookup pairs g Hne) as [[tierA tierB] Hp].
  rewrite Hi in Hp. simpl in Hp. rewrite Hp.
  rewrite !pickCharacterFromGroup_exhausted; [apply IH| |].
  - destruct (groupsGet groups tierB) eqn:Hg; simpl; [by eapply Hused | done].
  - destruct (groupsGet groups tierA) eqn:Hg; simpl; [by eapply Hused | done].
Qed.

(** C9. The filtered pool holds exactly two characters with a tier, in two
    different tiers.  Once a round committed by [startNewRound] has been
    resolved by a valid choice (right or wrong), the next [startNewRound]
    of the run returns, without an exception, and sets the phase to [error]. *)
Theorem two_character_pool_exhausted
    rev settings allChars a b gs0 g0 gs1 g1 selectedId st res gs2 st2 g :
  filter usable (applyModeFilters settings allChars) = [a; b] →
  highestTier a ≠ highestTier b →
  Classic.startNewRound rev settings allChars gs0 g0 = Returned (gs1, g1) →
  Classic.phase gs1 = inRound →
  Classic.handleChoice selectedId gs1 st = (res, gs2, st2) →
  res ≠ Classic.Invalid →
  ∃ g', Classic.startNewRound rev settings allChars gs2 g
        = Returned (Classic.setPhase error gs2, g').
Proof.
  intros Hpool Hne Hstart Hph1 Hchoice Hvalid.
  assert (usable a ∧ usable b) as [Ha Hb].
  { assert (a ∈ filter usable (applyModeFilters settings allChars)) as Hina
      by (rewrite Hpool; by left).
    assert (b ∈ filter usable (applyModeFilters settings allChars)) as Hinb
      by (rewrite Hpool; right; by left).
    apply list_elem_of_filter in Hina as [? _], Hinb as [? _]. done. }
  destruct (groupByTier_two a b Ha Hb Hne) as (ta & tb & Hta & Htb & Hd & Hgroups).
  assert (Classic.buildFilteredGroups settings allChars = [(ta, [a]); (tb, [b])]) as Hg.
  { unfold Classic.buildFilteredGroups, groupByTier.
    rewrite <- foldl_groupStep_usable, Hpool. exact Hgroups. }
  destruct (two_groups_pairs rev (veryHardMode settings) ta tb a b _ Hd Hg)
    as [Htiers Hpairs].
  (* the first round was committed with [a] and [b] *)
  pose proof (startNewRound_cases rev settings allChars gs0 g0) as Hc.
  rewrite Hstart in Hc. destruct Hc as [->|Hc]; [done|].
  destruct Hc as (tA & tB & gA & gB & l & r & s & Hp & HgA & HgB & Hl & Hr & _ & _ & _ & ->).
  assert (classicPairs rev settings allChars ≠ []) as Hsome.
  { intros Hnil. rewrite Hnil in Hp. by apply elem_of_nil in Hp. }
  unfold classicPairs, classicTiers in Hp, Hsome. rewrite Htiers in Hp, Hsome.
  apply Hpairs in Hp as [= -> ->].
  rewrite Hg in HgA, HgB. cbn [groupsGet] in HgA, HgB.
  rewrite decide_True in HgA by done.
  rewrite decide_False, decide_True in HgB by done.
  injection HgA as <-. injection HgB as <-.
  apply list_elem_of_singleton in Hl as ->, Hr as ->.
  (* the choice marks both as used *)
  destruct (handleChoice_cases selectedId
              {| Classic.phase := inRound; Classic.currentPair := Some (a, b);
                 Classic.correctId := Some (id s); Classic.streak := Classic.streak gs0;
                 Classic.usedCharacterKeys := Classic.usedCharacterKeys gs0 |} st)
    as [[Hinv _]|(l & r & c & _ & Hpair & _ & _ & Hval)].
  { rewrite Hinv in Hchoice. by injection Hchoice as <- _ _. }
  rewrite Hval in Hchoice. injection Hchoice as _ <- _.
  simpl in Hpair. injection Hpair as <- <-.
  (* the second call *)
  unfold Classic.startNewRound. rewrite Htiers. cbn [length Nat.ltb Nat.leb].
  destruct (veryHardMode settings && _) eqn:Hvh; [eauto|].
  apply retryLoop_exhausted; [done|].
  intros t grp. rewrite Hg. cbn [groupsGet]. unfold classicResolved; simpl.
  repeat case_decide; intros [= <-]; repeat constructor; set_solver.
Qed.

Lemma two_character_pool_exhausted_witness :
  ∃ g', Classic.startNewRound RevAlt defaultSettings [goku; saitama]
          (classicResolved false twoPoolAfterStart goku saitama) countingRng
        = Returned (Classic.setPhase error
                      (classicResolved false twoPoolAfterStart goku saitama), g').
Proof.
  apply (two_character_pool_exhausted RevAlt defaultSettings [goku; saitama] goku saitama
           Classic.initGameState countingRng twoPoolAfterStart
           {| draws := draws countingRng; pos := 3 |}
           (id saitama) emptyStats
           (Classic.Valid false (id saitama) (Some (id goku)) 0 afterWrong)
           (classicResolved false twoPoolAfterStart goku saitama)
           (recordRound false 0 emptyStats)).
  - reflexivity.
  - discriminate.
  - vm_compute. reflexivity.
  - reflexivity.
  - vm_compute. reflexivity.
  - discriminate.
Defined.

(** ** The Odd-One-Out engine: the helpers *)

Lemma uniqueByKey_elem seen cs c :
  c ∈ Odd.uniqueByKey seen cs → c ∈ cs ∧ getCharacterKey c ∉ seen.
Proof.
  revert seen. induction cs as [|x cs IH]; intros seen; simpl; [by intros ?%elem_of_nil|].
  destruct (decide (getCharacterKey x ∈ seen)) as [Hx|Hx].
  - intros [? ?]%IH. split; [by right | done].
  - intros [->|Hin]%elem_of_cons; [split; [by left | done]|].
    apply IH in Hin as [? Hn]. split; [by right|].
    intros Hs. apply Hn, elem_of_union. by right.
Qed.

Lemma uniqueByKey_NoDup seen cs : NoDup (keysOf (Odd.uniqueByKey seen cs)).
Proof.
  revert seen. induction cs as [|x cs IH]; intros seen; simpl; [constructor|].
  destruct (decide (getCharacterKey x ∈ seen)) as [Hx|Hx]; [apply IH|].
  unfold keysOf. rewrite fmap_cons. constructor; [|apply IH].
  intros (c & Hk & Hin)%list_elem_of_fmap.
  apply uniqueByKey_elem in Hin as [_ Hn]. set_solver.
Qed.

Lemma uniqueByKey_length seen cs :
  (length (Odd.uniqueByKey seen cs) ≤ length cs)%nat.
Proof.
  revert seen. induction cs as [|x cs IH]; intros seen; simpl; [done|].
  destruct (decide (getCharacterKey x ∈ seen)).
  - specialize (IH seen). lia.
  - simpl. specialize (IH ({[getCharacterKey x]} ∪ seen)). lia.
Qed.

(** When the loop drops nothing it returns its argument. *)
Lemma uniqueByKey_full seen cs :
  length (Odd.uniqueByKey seen cs) = length cs → Odd.uniqueByKey seen cs = cs.
Proof.
  revert seen. induction cs as [|x cs IH]; intros seen; simpl; [done|].
  destruct (decide (getCharacterKey x ∈ seen)).
  - pose proof (uniqueByKey_length seen cs). lia.
  - simpl. intros [= Hlen]. by rewrite IH.
Qed.

Lemma buildFilteredPoolForOdd_elem rev settings allChars used c :
  c ∈ Odd.buildFilteredPoolForOdd rev settings allChars used →
  c ∈ allChars ∧ getCharacterKey c ∉ used.
Proof.
  unfold Odd.buildFilteredPoolForOdd. intros Hin.
  assert (c ∈ filter (λ c, getCharacterKey c ∉ used) (applyModeFilters settings allChars))
    as [Hk Hp]%list_elem_of_filter.
  { destruct rev; [done|]. by apply uniqueByKey_elem in Hin as [? _]. }
  split; [by apply applyModeFilters_subseteq in Hp | done].
Qed.

Lemma pickLoop_elem count copy picked g x :
  x ∈ (Odd.pickLoop count copy picked g).1 → x ∈ picked ∨ x ∈ copy.
Proof.
  revert copy picked g. induction count as [|n IH]; intros copy picked g;
    cbn [Odd.pickLoop]; [auto|].
  destruct (randomIndex (length copy) g) as [idx g'].
  intros [Hin|Hin]%IH.
  - destruct (copy !! idx) as [c|] eqn:Hc; [|auto].
    apply elem_of_app in Hin as [?|Hx]; [auto|].
    apply list_elem_of_singleton in Hx as ->.
    right. by eapply list_elem_of_lookup_2.
  - right. revert Hin. apply sublist_subseteq, sublist_delete.
Qed.

Lemma pickLoop_length count copy picked g :
  (length (Odd.pickLoop count copy picked g).1 ≤ length picked + count)%nat.
Proof.
  revert copy picked g. induction count as [|n IH]; intros copy picked g;
    cbn [Odd.pickLoop]; [simpl; lia|].
  destruct (randomIndex (length copy) g) as [idx g'].
  etrans; [apply IH|]. destruct (copy !! idx); rewrite ?length_app; simpl; lia.
Qed.

(** Three picks that give at least three characters give exactly three
    characters of the array. *)
Lemma pickRandomDistinct_three arr g picked g' :
  Odd.pickRandomDistinct arr 3 g = (Some picked, g') → (3 ≤ length picked)%nat →
  ∃ m1 m2 m3, picked = [m1; m2; m3] ∧ m1 ∈ arr ∧ m2 ∈ arr ∧ m3 ∈ arr.
Proof.
  unfold Odd.pickRandomDistinct. destruct (length arr <? 3)%nat; [by intros [=]|].
  pose proof (pickLoop_length 3 arr [] g) as Hlen.
  pose proof (λ x, pickLoop_elem 3 arr [] g x) as Helem.
  destruct (Odd.pickLoop 3 arr [] g) as [p g1]. intros [= <- <-] Hge. simpl in *.
  destruct p as [|m1 [|m2 [|m3 [|m4 p]]]]; simpl in *; try lia.
  exists m1, m2, m3. split; [done|].
  assert (∀ x, x ∈ [m1; m2; m3] → x ∈ arr) as Hin.
  { intros x Hx. destruct (Helem x Hx) as [?%elem_of_nil|?]; done. }
  repeat split; apply Hin; set_solver.
Qed.

Lemma insert_head_Permutation (a : list Character) j x y :
  a !! j = Some y → y :: <[j := x]> a ≡ₚ x :: a.
Proof.
  revert j. induction a as [|z a IH]; intros [|j]; simpl; try done.
  - intros [= ->]. apply perm_swap.
  - intros Hj. rewrite (perm_swap z y), (IH _ Hj). apply perm_swap.
Qed.

Lemma swap_Permutation a i j : Odd.swap a i j ≡ₚ a.
Proof.
  unfold Odd.swap.
  destruct (a !! i) as [x|] eqn:Hi; [|done]. destruct (a !! j) as [y|] eqn:Hj; [|done].
  revert i j Hi Hj. induction a as [|z a IH]; intros [|i] [|j]; simpl; try done.
  - by intros [= ->] [= ->].
  - intros [= ->] Hj. by apply insert_head_Permutation.
  - intros Hi [= ->]. by apply insert_head_Permutation.
  - intros Hi Hj. by rewrite IH.
Qed.

Lemma shuffleLoop_Permutation i a g : (Odd.shuffleLoop i a g).1 ≡ₚ a.
Proof.
  revert a g. induction i as [|i IH]; intros a g; [done|].
  cbn [Odd.shuffleLoop]. destruct (randomIndex (S i + 1) g) as [j g'].
  rewrite IH. apply swap_Permutation.
Qed.

Lemma shuffleArray_Permutation arr g : (Odd.shuffleArray arr g).1 ≡ₚ arr.
Proof. apply shuffleLoop_Permutation. Qed.

(** ** The Odd-One-Out engine: what [startNewOddRound] commits *)

(** [startNewOddRound] always returns; it sets the phase to [error] and
    changes nothing else, or it commits a round. *)
Lemma startNewOddRound_cases rev settings allChars gs g :
  ∃ gs' g', Odd.startNewOddRound rev settings allChars gs g = Returned (gs', g') ∧
            (gs' = Odd.setPhase error gs ∨ oddCommit rev settings allChars gs gs').
Proof.
  unfold Odd.startNewOddRound, oddCommit.
  set (pool := Odd.buildFilteredPoolForOdd rev settings allChars (Odd.usedCharacterKeys gs)).
  set (groups := groupByTier pool).
  destruct (length pool <? 4)%nat; [eauto|].
  destruct (length (groupsKeys groups) <? 2)%nat; [eauto|].
  set (majors := filter _ (groupsKeys groups)).
  destruct (length majors =? 0)%nat eqn:Hmaj; [eauto|].
  destruct (randomIndex (length majors) g) as [i g1] eqn:Hi.
  destruct (randomIndex_lookup majors g) as [tM HtM].
  { intros Hnil. by rewrite Hnil in Hmaj. }
  rewrite Hi in HtM. simpl in HtM. rewrite HtM. cbn [mbind option_bind].
  assert (is_Some (groupsGet groups tM)) as [gM HgM].
  { apply groupsGet_keys. apply list_elem_of_lookup_2 in HtM.
    by apply list_elem_of_filter in HtM as [_ ?]. }
  rewrite HgM.
  destruct (length gM <? 3)%nat; [eauto|].
  destruct (Odd.pickRandomDistinct gM 3 g1) as [[mc|] g2] eqn:Hpick; [|eauto].
  destruct (Nat.ltb_spec (length mc) 3) as [|Hlen]; [eauto|].
  destruct (pickRandomDistinct_three _ _ _ _ Hpick Hlen)
    as (m1 & m2 & m3 & -> & Hm1 & Hm2 & Hm3).
  set (others := filter _ (groupsKeys groups)).
  destruct (length others =? 0)%nat eqn:Hoth; [eauto|].
  destruct (randomIndex (length others) g2) as [j g3] eqn:Hj.
  destruct (randomIndex_lookup others g2) as [tO HtO].
  { intros Hnil. by rewrite Hnil in Hoth. }
  rewrite Hj in HtO. simpl in HtO. rewrite HtO. cbn [mbind option_bind].
  assert (tO ≠ tM) as Hne.
  { apply list_elem_of_lookup_2, list_elem_of_filter in HtO as [[Hn _] _]. congruence. }
  destruct (groupsGet groups tO) as [gO|] eqn:HgO;
    cbn [default from_option Datatypes.id]; [|eauto].
  destruct (length gO =? 0)%nat eqn:HlenO; [eauto|].
  destruct (randomIndex (length gO) g3) as [k g4] eqn:Hk.
  destruct (randomIndex_lookup gO g3) as [o Ho].
  { intros Hnil. by rewrite Hnil in HlenO. }
  rewrite Hk in Ho. simpl in Ho. rewrite Ho.
  pose proof (shuffleArray_Permutation ([m1; m2; m3] ++ [o]) g4) as Hperm.
  destruct (Odd.shuffleArray ([m1; m2; m3] ++ [o]) g4) as [opts g5]. simpl in Hperm.
  apply list_elem_of_lookup_2 in Ho.
  destruct rev.
  - do 2 eexists. split; [done|]. right.
    exists tM, tO, gM, gO, m1, m2, m3, o, opts. by auto 12.
  - destruct (Nat.ltb_spec (length (Odd.uniqueByKey ∅ opts)) 4) as [|Hfour]; [eauto|].
    assert (Odd.uniqueByKey ∅ opts = opts) as Hu.
    { apply uniqueByKey_full. pose proof (uniqueByKey_length ∅ opts).
      apply Permutation_length in Hperm. simpl in Hperm. lia. }
    do 2 eexists. split; [done|]. right.
    exists tM, tO, gM, gO, m1, m2, m3, o, opts.
    rewrite Hu. repeat split; try done.
    intros _. rewrite <- Hu. apply uniqueByKey_NoDup.
Qed.

(** C2, as the code has it.  A round committed by [startNewOddRound] has
    exactly four options; exactly three of them have one [highestTier], the
    fourth has another, and [oddId] is the id of that fourth option.  In the
    revision that removes duplicates by Name+Origin the four identity keys
    are pairwise distinct. *)
Theorem odd_round_shape rev settings allChars gs g gs' g' :
  Odd.startNewOddRound rev settings allChars gs g = Returned (gs', g') →
  Odd.phase gs' = inRound →
  length (Odd.options gs') = 4%nat ∧
  (∃ tM tO o,
     tO ≠ tM ∧ highestTier o = Some tO ∧
     length (filter (λ c, highestTier c = Some tM) (Odd.options gs')) = 3%nat ∧
     filter (λ c, highestTier c ≠ Some tM) (Odd.options gs') = [o] ∧
     Odd.oddId gs' = Some (id o)) ∧
  (rev = RevAlt → NoDup (keysOf (Odd.options gs'))).
Proof.
  intros Hstart Hph.
  destruct (startNewOddRound_cases rev settings allChars gs g) as (gs1 & g1 & Heq & Hc).
  rewrite Hstart in Heq. injection Heq as <- <-.
  destruct Hc as [->|Hc]; [done|].
  destruct Hc as (tM & tO & gM & gO & m1 & m2 & m3 & o & opts & HgM & HgO & Hne
                  & Hm1 & Hm2 & Hm3 & Ho & Hperm & Hnd & ->). simpl.
  assert (∀ m, m ∈ gM → highestTier m = Some tM) as HtM.
  { intros m Hm. by destruct (groupByTier_members _ _ _ _ HgM Hm). }
  destruct (groupByTier_members _ _ _ _ HgO Ho) as [_ HtO].
  split; [by rewrite Hperm|]. split; [|done].
  exists tM, tO, o. split; [done|]. split; [done|].
  assert (filter (λ c, highestTier c = Some tM) [m1; m2; m3; o] = [m1; m2; m3]) as HfM.
  { rewrite !filter_cons_True by auto. rewrite filter_cons_False; [done|].
    rewrite HtO. congruence. }
  assert (filter (λ c, highestTier c ≠ Some tM) [m1; m2; m3; o] = [o]) as HfO.
  { rewrite !filter_cons_False by (rewrite HtM by done; auto).
    rewrite filter_cons_True; [done|]. rewrite HtO. congruence. }
  split; [by rewrite Hperm, HfM|]. split; [|done].
  apply Permutation_singleton_r. by rewrite Hperm, HfO.
Qed.

Lemma odd_round_shape_witness :
  length (Odd.options oddRoundOfFour) = 4%nat ∧
  (∃ tM tO o,
     tO ≠ tM ∧ highestTier o = Some tO ∧
     length (filter (λ c, highestTier c = Some tM) (Odd.options oddRoundOfFour)) = 3%nat ∧
     filter (λ c, highestTier c ≠ Some tM) (Odd.options oddRoundOfFour) = [o] ∧
     Odd.oddId oddRoundOfFour = Some (id o)) ∧
  (RevAlt = RevAlt → NoDup (keysOf (Odd.options oddRoundOfFour))).
Proof.
  apply (odd_round_shape RevAlt defaultSettings [goku; vegeta; frieza; saitama]
           Odd.initOddGameState countingRng oddRoundOfFour
           {| draws := draws countingRng; pos := 9 |}).
  - vm_compute. reflexivity.
  - reflexivity.
Defined.

(** The claim as stated fails in the revision of gameLogicOdd.js without
    de-duplication: two records of one character (same name and origin,
    different ids) are both shown in one committed round. *)
Lemma odd_round_duplicate_key_RevJs :
  ∃ gs' g',
    Odd.startNewOddRound RevJs defaultSettings [goku; gokuTwin; vegeta; saitama]
      Odd.initOddGameState countingRng = Returned (gs', g') ∧
    Odd.phase gs' = inRound ∧
    Odd.options gs' = [saitama; gokuTwin; goku; vegeta] ∧
    getCharacterKey gokuTwin = getCharacterKey goku ∧
    ¬ NoDup (keysOf (Odd.options gs')).
Proof.
  exists {| Odd.phase := inRound; Odd.options := [saitama; gokuTwin; goku; vegeta];
            Odd.oddId := Some (id saitama); Odd.streak := 0; Odd.usedCharacterKeys := ∅ |},
         {| draws := draws countingRng; pos := 9 |}.
  split; [vm_compute; reflexivity|]. split; [done|]. split; [done|]. split; [done|].
  simpl. intros Hnd. apply NoDup_cons in Hnd as [_ Hnd].
  apply NoDup_cons in Hnd as [Hn _]. apply Hn. vm_compute. by left.
Qed.

(** ** The no-repeat invariant of a run *)

Section NoRepeatRuns.
Context {W : Type}.
(** The keys used in the run so far, the round in play, and the step. *)
Variable used : W → gset string.
Variable inPlay : W → option (list Character).
Variable step : Op → W → W * list Event.

Hypothesis step_spec : ∀ op w, StepSpec used inPlay w (step op w).1 (step op w).2.

Lemma used_apart (u : gset string) cs cs' :
  Forall (λ c, getCharacterKey c ∈ u) cs →
  Forall (λ c, getCharacterKey c ∉ u) cs' →
  keysApart cs (Committed cs').
Proof.
  simpl. rewrite !Forall_forall. intros Hcs Hcs' c Hc.
  intros (c' & Hk & Hc')%list_elem_of_fmap.
  apply (Hcs' c' Hc'). rewrite <- Hk. by apply Hcs.
Qed.

Lemma runWith_noRepeat ops w resolved :
  RunInv used inPlay w resolved →
  noRepeat (runWith step ops w).2 ∧
  ∀ cs, cs ∈ resolved → Forall (keysApart cs) (sameRun (runWith step ops w).2).
Proof.
  revert w resolved. induction ops as [|op ops IH]; intros w resolved [Hused Hplay].
  { simpl. split; [done|]. intros; constructor. }
  cbn [runWith]. pose proof (step_spec op w) as Hstep.
  destruct (step op w) as [w1 ev1]. simpl in Hstep.
  destruct (runWith step ops w1) as [w2 ev2] eqn:Hrun.
  pose proof (IH w1) as IH1. rewrite Hrun in IH1. simpl in IH1. simpl.
  destruct Hstep as [Hu Hp|cs Hu Hp Hfresh|cs Hp Hp' Hu Hcs|Hu Hp|cs Hu Hp].
  - apply (IH1 resolved). split.
    + intros cs Hcs. rewrite Hu. by apply Hused.
    + intros cs cs' Hcs Hcs'. destruct Hp as [Hp|Hp]; [congruence|].
      rewrite Hp in Hcs'. by eapply Hplay.
  - destruct (IH1 resolved) as [Hnr Hap].
    { split.
      - intros cs0 Hcs0. rewrite Hu. by apply Hused.
      - intros cs0 cs' Hcs0. rewrite Hp. intros [= <-].
        eapply used_apart; [by apply Hused | done]. }
    simpl. split; [done|]. intros cs0 Hcs0. constructor; [|by apply Hap].
    eapply used_apart; [by apply Hused | done].
  - destruct (IH1 (cs :: resolved)) as [Hnr Hap].
    { split.
      - intros cs0 [->|Hcs0]%elem_of_cons; [done|].
        eapply Forall_impl; [by apply Hused|]. intros c Hc. by apply Hu.
      - intros cs0 cs' _. by rewrite Hp'. }
    simpl. split; [split; [|done]; apply Hap; by left|].
    intros cs0 Hcs0. constructor; [by eapply Hplay|]. apply Hap. by right.
  - destruct (IH1 []) as [Hnr _].
    { split; [by intros cs ?%elem_of_nil | by intros cs cs' ?%elem_of_nil]. }
    simpl. split; [done|]. intros; constructor.
  - destruct (IH1 []) as [Hnr _].
    { split; [by intros cs0 ?%elem_of_nil | by intros cs0 cs' ?%elem_of_nil]. }
    simpl. split; [done|]. intros; constructor.
Qed.

Lemma runWith_noRepeat_any ops w : noRepeat (runWith step ops w).2.
Proof.
  apply (runWith_noRepeat ops w []).
  split; [by intros cs ?%elem_of_nil | by intros cs cs' ?%elem_of_nil].
Qed.
End NoRepeatRuns.

(** ** The two engines keep the no-repeat invariant *)

Lemma classicCommitted_error gs : classicCommitted (Classic.setPhase error gs) = [].
Proof. reflexivity. Qed.

Lemma classicStart_spec rev settings allChars gs g :
  match Classic.startNewRound rev settings allChars gs g with
  | Returned (gs', g') =>
      (classicCommitted gs' = [] ∧ classicInPlay gs' = None ∧
       Classic.usedCharacterKeys gs' = Classic.usedCharacterKeys gs) ∨
      (∃ l r, classicCommitted gs' = [Committed [l; r]] ∧ classicInPlay gs' = Some [l; r] ∧
              Classic.usedCharacterKeys gs' = Classic.usedCharacterKeys gs ∧
              Forall (λ c, getCharacterKey c ∉ Classic.usedCharacterKeys gs) [l; r])
  | Threw (gs', g') => gs' = gs
  end.
Proof.
  pose proof (startNewRound_cases rev settings allChars gs g) as Hc.
  destruct (Classic.startNewRound rev settings allChars gs g) as [[gs' g']|[gs' g']];
    [|by destruct Hc].
  destruct Hc as [->|Hc]; [by left|]. right.
  apply classicCommit_cards in Hc
    as (l & r & tA & tB & Hph & Hp & Hu & _ & _ & _ & _ & _ & Hl & Hr).
  exists l, r. unfold classicCommitted, classicInPlay. rewrite Hph, Hp.
  repeat split; try done. by repeat constructor.
Qed.

Lemma classicStep_spec rev settings allChars op w :
  StepSpec classicUsed classicWorldInPlay w
    (classicStep rev settings allChars op w).1 (classicStep rev settings allChars op w).2.
Proof.
  destruct w as [[gs st] g]. destruct op as [|selectedId|]; cbn [classicStep].
  - pose proof (classicStart_spec rev settings allChars gs g) as Hs.
    destruct (Classic.startNewRound rev settings allChars gs g) as [[gs' g']|[gs' g']];
      cbn [fst snd].
    + destruct Hs as [(-> & Hp & Hu)|(l & r & -> & Hp & Hu & Hf)].
      * apply step_quiet; [done | by left].
      * by apply step_commit.
    + subst gs'. apply step_quiet; [done | by right].
  - destruct (handleChoice_cases selectedId gs st)
      as [[-> _]|(l & r & c & Hph & Hpair & _ & _ & ->)]; cbn [fst snd].
    + apply step_quiet; [done | by right].
    + rewrite Hpair. apply step_resolve.
      * unfold classicWorldInPlay, classicInPlay; simpl. by rewrite Hph, Hpair.
      * unfold classicWorldInPlay, classicInPlay; simpl. by destruct c.
      * unfold classicUsed; simpl. set_solver.
      * unfold classicUsed; simpl. repeat constructor; set_solver.
  - unfold Classic.restartGame.
    pose proof (classicStart_spec rev settings allChars Classic.initGameState g) as Hs.
    unfold Classic.initGameState in Hs.
    destruct (Classic.startNewRound rev settings allChars _ g) as [[gs' g']|[gs' g']];
      cbn [fst snd].
    + destruct Hs as [(-> & Hp & Hu)|(l & r & -> & Hp & Hu & Hf)].
      * by apply step_restart.
      * by apply step_restart_commit.
    + subst gs'. by apply step_restart.
Qed.

Lemma markUsed_elem used cs k :
  k ∈ Odd.markUsed used cs ↔ k ∈ used ∨ k ∈ keysOf cs.
Proof.
  unfold Odd.markUsed, keysOf. revert used.
  induction cs as [|c cs IH]; intros used; csimpl.
  - split; [by left|]. by intros [?|?%elem_of_nil].
  - rewrite IH, elem_of_union, elem_of_singleton, elem_of_cons. tauto.
Qed.

(** The four cards of a committed Odd-One-Out round are characters of the
    pool that are not used. *)
Lemma oddCommit_cards rev settings allChars gs gs' :
  oddCommit rev settings allChars gs gs' →
  Odd.phase gs' = inRound ∧ length (Odd.options gs') = 4%nat ∧
  Odd.usedCharacterKeys gs' = Odd.usedCharacterKeys gs ∧
  Forall (λ c, c ∈ allChars) (Odd.options gs') ∧
  Forall (λ c, getCharacterKey c ∉ Odd.usedCharacterKeys gs) (Odd.options gs').
Proof.
  intros (tM & tO & gM & gO & m1 & m2 & m3 & o & opts & HgM & HgO & Hne
          & Hm1 & Hm2 & Hm3 & Ho & Hperm & Hnd & ->). simpl.
  split; [done|]. split; [by rewrite Hperm|]. split; [done|].
  assert (∀ c, c ∈ opts → c ∈ allChars ∧ getCharacterKey c ∉ Odd.usedCharacterKeys gs)
    as Hall.
  { intros c Hc. rewrite Hperm in Hc.
    apply (buildFilteredPoolForOdd_elem rev settings).
    assert (c ∈ gM ∨ c ∈ gO) as [Hin|Hin].
    { rewrite !elem_of_cons, elem_of_nil in Hc.
      destruct Hc as [->|[->|[->|[->|[]]]]]; auto. }
    - by destruct (groupByTier_members _ _ _ _ HgM Hin).
    - by destruct (groupByTier_members _ _ _ _ HgO Hin). }
  split; apply Forall_forall; intros c Hc; by destruct (Hall c Hc).
Qed.

Lemma oddStart_spec rev settings allChars gs g :
  ∃ gs' g', Odd.startNewOddRound rev settings allChars gs g = Returned (gs', g') ∧
    Odd.usedCharacterKeys gs' = Odd.usedCharacterKeys gs ∧
    ((oddCommitted gs' = [] ∧ oddInPlay gs' = None) ∨
     (oddCommitted gs' = [Committed (Odd.options gs')] ∧
      oddInPlay gs' = Some (Odd.options gs') ∧
      Forall (λ c, getCharacterKey c ∉ Odd.usedCharacterKeys gs) (Odd.options gs'))).
Proof.
  destruct (startNewOddRound_cases rev settings allChars gs g) as (gs' & g' & Heq & Hc).
  exists gs', g'. split; [done|]. destruct Hc as [->|Hc]; [by auto|].
  apply oddCommit_cards in Hc as (Hph & Hlen & Hu & _ & Hf).
  split; [done|]. right. unfold oddCommitted, oddInPlay. by rewrite Hph, Hlen.
Qed.

Lemma oddStep_spec rev settings allChars op w :
  StepSpec oddUsed oddWorldInPlay w
    (oddStep rev settings allChars op w).1 (oddStep rev settings allChars op w).2.
Proof.
  destruct w as [[gs st] g]. destruct op as [|selectedId|]; cbn [oddStep].
  - destruct (oddStart_spec rev settings allChars gs g) as (gs' & g' & -> & Hu & Hs).
    cbn [fst snd]. destruct Hs as [[-> Hp]|(-> & Hp & Hf)].
    + apply step_quiet; [done | by left].
    + by apply step_commit.
  - destruct (handleOddChoice_cases selectedId gs st)
      as [[[m ->] _]|(c & Hph & Hlen & _ & _ & ->)]; cbn [fst snd].
    + apply step_quiet; [done | by right].
    + apply step_resolve.
      * unfold oddWorldInPlay, oddInPlay; simpl. by rewrite Hph, Hlen.
      * unfold oddWorldInPlay, oddInPlay; simpl. by destruct c.
      * unfold oddUsed; simpl. intros k Hk. apply markUsed_elem. by left.
      * unfold oddUsed; simpl. apply Forall_forall. intros x Hx.
        apply markUsed_elem. right. by apply list_elem_of_fmap_2.
  - unfold Odd.restartOddGame.
    destruct (oddStart_spec rev settings allChars Odd.initOddGameState g)
      as (gs' & g' & Heq & Hu & Hs).
    unfold Odd.initOddGameState in Heq. rewrite Heq. cbn [fst snd].
    destruct Hs as [[-> Hp]|(-> & Hp & Hf)].
    + by apply step_restart.
    + by apply step_restart_commit.
Qed.

(** C3. In every run of either engine, from any state, the identity keys
    of a resolved round are keys of no round committed or resolved later
    before the next restart. *)
Theorem no_repeat_within_run :
  (∀ rev settings allChars ops w,
     noRepeat (classicRun rev settings allChars ops w).2) ∧
  (∀ rev settings allChars ops w,
     noRepeat (oddRun rev settings allChars ops w).2).
Proof.
  split; intros rev settings allChars ops w.
  - apply (runWith_noRepeat_any classicUsed classicWorldInPlay).
    apply classicStep_spec.
  - apply (runWith_noRepeat_any oddUsed oddWorldInPlay).
    apply oddStep_spec.
Qed.

(** ** The argument [streakAfterRound] that the handlers pass *)

(** A valid choice calls [recordRound] once.  On a right answer the streak
    passed is the incremented one; on a wrong answer [recordRound] is called
    before the streak is reset, so the streak passed is the one the run had
    before the round. *)
Lemma recordRound_argument_passed :
  (∀ selectedId gs st correct sid cid k ph gs' st',
     Classic.handleChoice selectedId gs st = (Classic.Valid correct sid cid k ph, gs', st') →
     st' = recordRound correct
             (if correct then (Classic.streak gs + 1)%nat else Classic.streak gs) st) ∧
  (∀ selectedId gs st correct sid oid opts k ph gs' st',
     Odd.handleOddChoice selectedId gs st = (Odd.Valid correct sid oid opts k ph, gs', st') →
     st' = recordRound correct
             (if correct then (Odd.streak gs + 1)%nat else Odd.streak gs) st).
Proof.
  split.
  - intros selectedId gs st correct sid cid k ph gs' st' H.
    destruct (handleChoice_cases selectedId gs st)
      as [[Hinv _]|(l & r & c & _ & _ & _ & Hc & Hval)]; [congruence|].
    rewrite Hval in H. injection H as <- <- <- <- <- <- <-.
    destruct c; [|done]. by rewrite Nat.add_1_r.
  - intros selectedId gs st correct sid oid opts k ph gs' st' H.
    destruct (handleOddChoice_cases selectedId gs st)
      as [[[m Hinv] _]|(c & _ & _ & _ & Hc & Hval)]; [congruence|].
    rewrite Hval in H. by injection H as <- <- <- <- <- <- <- <-.
Qed.

(** C4 at a failing input.  After a right answer (streak 1) a wrong answer
    resets the streak to 0, and the call logged for it is
    [recordRound(false, 1)]: the streak passed is the one before the reset.
    The Odd-One-Out handler does the same at streak 2. *)
Theorem wrong_answer_passes_prior_streak :
  (Classic.streak rightThenWrongRun.1.1.1 = 0%nat ∧
   Classic.phase rightThenWrongRun.1.1.1 = afterWrong ∧
   recordRoundCalls rightThenWrongRun.1.1.2 = [(true, 1%nat); (false, 1%nat)]) ∧
  (∃ gs' st',
     Odd.handleOddChoice (id goku) oddRoundStreakTwo emptyStats
       = (Odd.Valid false (id goku) (Some (id saitama)) [saitama; vegeta; goku; frieza]
            0%nat afterWrong, gs', st') ∧
     Odd.streak gs' = 0%nat ∧
     recordRoundCalls st' = [(false, 2%nat)]).
Proof.
  split.
  - vm_compute. done.
  - eexists _, _. split; [reflexivity|]. vm_compute. done.
Qed.

(** ** When [startNewRound] can throw *)

Lemma indexOfFrom_lookup k xs x :
  0 ≤ k → k ≤ indexOfFrom k xs x →
  xs !! Z.to_nat (indexOfFrom k xs x - k) = Some x.
Proof.
  revert k. induction xs as [|y ys IH]; intros k Hk; simpl; [lia|].
  destruct (String.eqb_spec y x) as [->|Hne].
  - intros _. by rewrite Z.sub_diag.
  - intros Hle. destruct (indexOfFrom_bounds (k + 1) ys x) as [Hb|Hb]; [lia|].
    replace (Z.to_nat (indexOfFrom (k + 1) ys x - k))
      with (S (Z.to_nat (indexOfFrom (k + 1) ys x - (k + 1)))) by lia.
    simpl. apply IH; lia.
Qed.

(** Two labels at the same position of the ladder are the same label. *)
Lemma getTierIndex_inj tA tB :
  0 ≤ getTierIndex (Some tA) → getTierIndex (Some tA) = getTierIndex (Some tB) → tA = tB.
Proof.
  unfold getTierIndex, indexOf. intros Hpos Heq.
  pose proof (indexOfFrom_lookup 0 TIER_ORDER tA ltac:(lia) Hpos) as HA.
  pose proof (indexOfFrom_lookup 0 TIER_ORDER tB ltac:(lia) ltac:(lia)) as HB.
  rewrite Heq in HA. congruence.
Qed.

Lemma foldl_groupStep_keys pool acc :
  NoDup (groupsKeys acc) →
  NoDup (groupsKeys (foldl groupStep acc pool)) ∧
  ∀ t, t ∈ groupsKeys (foldl groupStep acc pool) →
       t ∈ groupsKeys acc ∨ ∃ c, c ∈ pool ∧ highestTier c = Some t.
Proof.
  revert acc. induction pool as [|c pool IH]; intros acc Hnd; simpl; [auto|].
  assert (NoDup (groupsKeys (groupStep acc c)) ∧
          ∀ t, t ∈ groupsKeys (groupStep acc c) →
               t ∈ groupsKeys acc ∨ highestTier c = Some t) as [Hnd' Hk].
  { unfold groupStep. destruct (highestTier c) as [key|]; [|auto].
    destruct (truthy (Some key)); [|auto]. rewrite groupsKeys_push.
    destruct (decide (key ∈ groupsKeys acc)) as [Hin|Hin]; [auto|]. split.
    - apply NoDup_app. split; [done|]. split; [|apply NoDup_singleton].
      intros t Ht Heq. apply list_elem_of_singleton in Heq as ->. done.
    - intros t [?|Heq]%elem_of_app; [auto|].
      apply list_elem_of_singleton in Heq as ->. auto. }
  destruct (IH _ Hnd') as [Hnd'' Hk'']. split; [done|].
  intros t Ht. destruct (Hk'' t Ht) as [Hin|(c' & ? & ?)].
  - destruct (Hk t Hin) as [?|?]; [by left|]. right. exists c. split; [by left | done].
  - right. exists c'. split; [by right | done].
Qed.

(** With at least two tiers, all of them on the ladder, [RevAlt] finds a
    candidate pair in normal mode; [RevJs] finds one in any case. *)
Lemma candidatePairsOf_nonempty rev tiers :
  (2 ≤ length tiers)%nat → NoDup tiers →
  (rev = RevJs ∨ Forall (λ t, 0 ≤ getTierIndex (Some t)) tiers) →
  Classic.candidatePairsOf rev false tiers ≠ [].
Proof.
  destruct tiers as [|tA [|tB rest]]; simpl; try lia. intros _ Hnd Hranked.
  assert (Classic.acceptsDistance rev false (Classic.tierDistance tA tB) = true) as Hadm.
  { destruct Hranked as [->|Hranked]; [done|]. destruct rev; [done|].
    unfold Classic.acceptsDistance, Classic.tierDistance. apply Z.ltb_lt.
    apply Forall_cons in Hranked as [HA _].
    assert (getTierIndex (Some tA) ≠ getTierIndex (Some tB)); [|lia].
    intros Heq. apply getTierIndex_inj in Heq as ->; [|done].
    apply NoDup_cons in Hnd as [Hn _]. apply Hn. by left. }
  rewrite filter_cons_True by done. done.
Qed.

(** X1. [startNewRound] returns, without an exception, in very hard mode,
    in the revision that takes every pair in normal mode, and whenever every
    tier of the pool is a label of the ladder (as the data loader
    guarantees). *)
Theorem startNewRound_returns rev settings allChars gs g :
  veryHardMode settings = true ∨ rev = RevJs ∨
  Forall (λ c, highestTier c = None ∨ 0 ≤ getTierIndex (highestTier c)) allChars →
  ∃ gs' g', Classic.startNewRound rev settings allChars gs g = Returned (gs', g').
Proof.
  intros Hcond. pose proof (startNewRound_cases rev settings allChars gs g) as Hc.
  destruct (Classic.startNewRound rev settings allChars gs g) as [[gs' g']|[gs' g']];
    [eauto|].
  exfalso. destruct Hc as (_ & Hvh & Hnil & Hlen).
  destruct Hcond as [?|Hcond]; [congruence|].
  revert Hnil. unfold classicPairs. rewrite Hvh.
  destruct (foldl_groupStep_keys (applyModeFilters settings allChars) [])
    as [Hnd Hkeys]; [constructor|].
  apply candidatePairsOf_nonempty; [done| |].
  - unfold classicTiers. by apply NoDup_filter.
  - destruct Hcond as [?|Hranked]; [by left|]. right.
    apply Forall_forall. intros t Ht. unfold classicTiers in Ht.
    apply list_elem_of_filter in Ht as [_ Ht].
    destruct (Hkeys t Ht) as [?%elem_of_nil|(c & Hc & Htier)]; [done|].
    apply applyModeFilters_subseteq in Hc.
    rewrite Forall_forall in Hranked. destruct (Hranked c Hc) as [?|?]; [congruence|].
    by rewrite <- Htier.
Qed.

Lemma startNewRound_returns_witness :
  ∃ gs' g', Classic.startNewRound RevAlt defaultSettings [goku; saitama]
              Classic.initGameState countingRng = Returned (gs', g').
Proof.
  apply (startNewRound_returns RevAlt defaultSettings [goku; saitama]
           Classic.initGameState countingRng).
  right; right.
  apply Forall_cons; split; [right; vm_compute; discriminate|].
  apply Forall_cons; split; [right; vm_compute; discriminate|].
  apply Forall_nil_2.
Defined.

(** Off the ladder the exception is real: in normal mode the revision that
    asks for [distance > 0] finds no candidate pair between two unranked
    tiers (both have index -1), and destructuring [candidatePairs[0]], which
    is [undefined], throws; the state is left as it was. *)
Theorem startNewRound_throws_off_ladder :
  Classic.startNewRound RevAlt defaultSettings [offLadderA; offLadderB]
    Classic.initGameState countingRng
  = Threw (Classic.initGameState, {| draws := draws countingRng; pos := 1 |}).
Proof. vm_compute. reflexivity. Qed.

(** X3. [startNewOddRound] always returns: it ends in phase [error], or in
    phase [inRound] with four options. *)
Theorem startNewOddRound_returns rev settings allChars gs g :
  ∃ gs' g',
    Odd.startNewOddRound rev settings allChars gs g = Returned (gs', g') ∧
    (Odd.phase gs' = error ∨
     (Odd.phase gs' = inRound ∧ length (Odd.options gs') = 4%nat)).
Proof.
  destruct (startNewOddRound_cases rev settings allChars gs g) as (gs' & g' & Heq & Hc).
  exists gs', g'. split; [done|]. destruct Hc as [->|Hc]; [by left|].
  apply oddCommit_cards in Hc as (? & ? & _). by right.
Qed.

(** ** tierUtils.js: positions on the ladder *)

Lemma indexOfFrom_absent k xs x : indexOfFrom k xs x = -1 → 0 ≤ k → x ∉ xs.
Proof.
  revert k. induction xs as [|y ys IH]; intros k; simpl; [by intros _ _ ?%elem_of_nil|].
  destruct (String.eqb_spec y x) as [->|Hne]; [lia|].
  intros Hm Hk [?|Hin]%elem_of_cons; [congruence|]. eapply IH; [done|lia|done].
Qed.

Lemma indexOfFrom_of_lookup k xs x i :
  NoDup xs → xs !! i = Some x → indexOfFrom k xs x = k + Z.of_nat i.
Proof.
  revert k i. induction xs as [|y ys IH]; intros k i Hnd; [done|].
  apply NoDup_cons in Hnd as [Hy Hnd]. destruct i as [|i]; simpl.
  - intros [= ->]. rewrite String.eqb_refl. lia.
  - intros Hi. destruct (String.eqb_spec y x) as [->|Hne].
    + exfalso. apply Hy. by eapply list_elem_of_lookup_2.
    + rewrite (IH (k + 1) i) by done. lia.
Qed.

(** X4. [getTierIndex] and the ladder are inverse to each other: a label has
    index [i] exactly when it stands at position [i] of [TIER_ORDER], and it
    has index -1 exactly when it is no label of the ladder. *)
Theorem getTierIndex_lookup :
  (∀ (t : string) (i : nat),
     getTierIndex (Some t) = Z.of_nat i ↔ TIER_ORDER !! i = Some t) ∧
  (∀ t : string, getTierIndex (Some t) = -1 ↔ t ∉ TIER_ORDER) ∧
  getTierIndex None = -1.
Proof.
  split; [|split; [|done]].
  - intros t i. unfold getTierIndex, indexOf. split.
    + intros Heq. pose proof (indexOfFrom_lookup 0 TIER_ORDER t ltac:(lia) ltac:(lia)) as H.
      rewrite Heq, Z.sub_0_r, Nat2Z.id in H. exact H.
    + intros Hi. rewrite (indexOfFrom_of_lookup 0 _ _ i TIER_ORDER_NoDup Hi). lia.
  - intros t. unfold getTierIndex, indexOf. split.
    + intros Hm. by apply (indexOfFrom_absent 0).
    + intros Hnot. destruct (indexOfFrom_bounds 0 TIER_ORDER t) as [?|Hb]; [done|].
      exfalso. apply Hnot.
      exact (list_elem_of_lookup_2 _ _ _
               (indexOfFrom_lookup 0 TIER_ORDER t ltac:(lia) (proj1 Hb))).
Qed.

(** X5. When the two tier indices differ the winner does not depend on the
    order of the arguments (on a tie it does: the second argument wins). *)
Theorem getStrongerCharacter_swap (a b : Character) :
  getTierIndex (highestTier a) ≠ getTierIndex (highestTier b) →
  getStrongerCharacter a b = getStrongerCharacter b a.
Proof.
  intros Hne. unfold getStrongerCharacter.
  destruct (Z.ltb_spec (getTierIndex (highestTier a)) 0);
    destruct (Z.ltb_spec (getTierIndex (highestTier b)) 0); simpl; try done.
  destruct (Z.ltb_spec (getTierIndex (highestTier a)) (getTierIndex (highestTier b)));
    destruct (Z.ltb_spec (getTierIndex (highestTier b)) (getTierIndex (highestTier a)));
    try done; lia.
Qed.

Lemma getStrongerCharacter_swap_witness :
  getStrongerCharacter azathoth saitama = getStrongerCharacter saitama azathoth.
Proof.
  apply (getStrongerCharacter_swap azathoth saitama). vm_compute. discriminate.
Defined.

(** ** dataLoader.js: the strongest tier of a row *)

Lemma bestTierLoop_spec ts best bestIndex :
  (best = None ∧ bestIndex = None) ∨
  (∃ b, best = Some b ∧ bestIndex = Some (getTierIndex (Some b))
        ∧ 0 ≤ getTierIndex (Some b)) →
  match DataLoader.bestTierLoop ts best bestIndex with
  | None => best = None ∧ Forall (λ t, getTierIndex (Some t) < 0) ts
  | Some t =>
      (Some t = best ∨ t ∈ ts) ∧ 0 ≤ getTierIndex (Some t) ∧
      (∀ b, best = Some b → getTierIndex (Some t) ≤ getTierIndex (Some b)) ∧
      Forall (λ t', 0 ≤ getTierIndex (Some t') →
                    getTierIndex (Some t) ≤ getTierIndex (Some t')) ts
  end.
Proof.
  revert best bestIndex. induction ts as [|t ts IH]; intros best bestIndex Hinv.
  - simpl. destruct Hinv as [[-> ->]|(b & -> & -> & Hb)]; [done|].
    repeat split; [by left | done | by intros ? [= ->] | constructor].
  - cbn [DataLoader.bestTierLoop]. fold (getTierIndex (Some t)).
    destruct (Z.leb_spec 0 (getTierIndex (Some t))) as [Hpos|Hneg]; cbn [andb].
    + destruct Hinv as [[-> ->]|(b & -> & -> & Hb)].
      * (* the first ranked entry is taken *)
        specialize (IH (Some t) (Some (getTierIndex (Some t)))
                       (or_intror (ex_intro _ t (conj eq_refl (conj eq_refl Hpos))))).
        destruct (DataLoader.bestTierLoop ts _ _) as [t0|]; [|by destruct IH as [[=] _]].
        destruct IH as (Hin & H0 & Hle & Hall). specialize (Hle t eq_refl).
        repeat split; [|done|by intros ? [=]|by constructor].
        right. destruct Hin as [[= ->]|?]; [by left | by right].
      * destruct (Z.ltb_spec (getTierIndex (Some t)) (getTierIndex (Some b))) as [Hlt|Hge].
        -- (* a stronger entry replaces the best so far *)
           specialize (IH (Some t) (Some (getTierIndex (Some t)))
                          (or_intror (ex_intro _ t (conj eq_refl (conj eq_refl Hpos))))).
           destruct (DataLoader.bestTierLoop ts _ _) as [t0|]; [|by destruct IH as [[=] _]].
           destruct IH as (Hin & H0 & Hle & Hall). specialize (Hle t eq_refl).
           repeat split; [|done| |by constructor].
           ++ right. destruct Hin as [[= ->]|?]; [by left | by right].
           ++ intros ? [= <-]. lia.
        -- (* the best so far is kept *)
           specialize (IH (Some b) (Some (getTierIndex (Some b)))
                          (or_intror (ex_intro _ b (conj eq_refl (conj eq_refl Hb))))).
           destruct (DataLoader.bestTierLoop ts _ _) as [t0|]; [|by destruct IH as [[=] _]].
           destruct IH as (Hin & H0 & Hle & Hall). specialize (Hle b eq_refl).
           repeat split; [|done|by intros ? [= <-]|].
           ++ destruct Hin as [?|?]; [by left | right; by right].
           ++ constructor; [|done]. intros _. lia.
    + (* an entry off the ladder is skipped *)
      specialize (IH best bestIndex Hinv).
      destruct (DataLoader.bestTierLoop ts best bestIndex) as [t0|].
      * destruct IH as (Hin & H0 & Hleb & Hall). repeat split; try done.
        -- destruct Hin as [?|?]; [by left | right; by right].
        -- constructor; [lia | done].
      * destruct IH as [-> Hall]. split; [done|]. by constructor.
Qed.

(** X6. [computeHighestTier] returns [null] exactly when no entry of the
    array is a label of the ladder (in particular for an empty array and for
    a value that is no array); otherwise it returns an entry of the array
    that is on the ladder and whose index is the least among the entries on
    the ladder. *)
Theorem computeHighestTier_spec :
  DataLoader.computeHighestTier None = None ∧
  (∀ ts, DataLoader.computeHighestTier (Some ts) = None ↔
         Forall (λ t, getTierIndex (Some t) < 0) ts) ∧
  (∀ ts t, DataLoader.computeHighestTier (Some ts) = Some t →
           t ∈ ts ∧ 0 ≤ getTierIndex (Some t) ∧
           Forall (λ t', 0 ≤ getTierIndex (Some t') →
                         getTierIndex (Some t) ≤ getTierIndex (Some t')) ts).
Proof.
  split; [done|].
  assert (∀ ts, DataLoader.computeHighestTier (Some ts)
                = DataLoader.bestTierLoop ts None None) as Hloop.
  { intros [|t ts]; reflexivity. }
  split; intros ts.
  - rewrite Hloop. pose proof (bestTierLoop_spec ts None None (or_introl (conj eq_refl eq_refl))) as H.
    destruct (DataLoader.bestTierLoop ts None None) as [t|].
    + split; [done|]. intros Hall. destruct H as ([[=]|Hin] & H0 & _).
      rewrite Forall_forall in Hall. specialize (Hall t Hin). lia.
    + by destruct H.
  - intros t. rewrite Hloop.
    pose proof (bestTierLoop_spec ts None None (or_introl (conj eq_refl eq_refl))) as H.
    intros Heq. rewrite Heq in H. destruct H as ([[=]|Hin] & H0 & _ & Hall). done.
Qed.

(** ** dataLoader.js: the normalised character *)

Lemma jsOr_default (v : jsString) :
  interpolate (jsOr (jsOr (Some (interpolate (jsOr v (Some "")))) v) (Some ""))
  = interpolate (jsOr v (Some "")).
Proof. destruct v as [[|ch s]|]; reflexivity. Qed.

Lemma append_nonempty (a b : string) : b ≠ "" → String.append a b ≠ "".
Proof. destruct a; simpl; [done | discriminate]. Qed.

(** X7. For every character that [normalizeCharacter] builds, the identity
    key is [name::origin] of the normalised fields (the fallback to the raw
    row never changes it), and the id is not empty. *)
Theorem normalizeCharacter_key raw :
  getCharacterKey (DataLoader.normalizeCharacter raw)
    = String.append (name (DataLoader.normalizeCharacter raw))
        (String.append "::" (origin (DataLoader.normalizeCharacter raw))) ∧
  id (DataLoader.normalizeCharacter raw) ≠ "".
Proof.
  split.
  - unfold getCharacterKey, DataLoader.normalizeCharacter; cbn [name origin _raw].
    cbn [mbind option_bind rawRowOf Name Origin]. by rewrite !jsOr_default.
  - unfold DataLoader.normalizeCharacter; cbn [id].
    destruct (DataLoader.ID raw) as [[|ch s]|]; cbn [jsOr truthy String.eqb negb];
      try done; apply append_nonempty; discriminate.
Qed.

Lemma computeHighestTier_ranked ts t :
  DataLoader.computeHighestTier (Some ts) = Some t → 0 ≤ getTierIndex (Some t).
Proof.
  assert (DataLoader.computeHighestTier (Some ts)
          = DataLoader.bestTierLoop ts None None) as -> by (by destruct ts).
  pose proof (bestTierLoop_spec ts None None (or_introl (conj eq_refl eq_refl))) as H.
  intros Heq. rewrite Heq in H. by destruct H as (_ & ? & _).
Qed.

Lemma normalizeCharacter_tier raw :
  highestTier (DataLoader.normalizeCharacter raw) = None ∨
  0 ≤ getTierIndex (highestTier (DataLoader.normalizeCharacter raw)).
Proof.
  unfold DataLoader.normalizeCharacter; cbn [highestTier].
  destruct (DataLoader.computeHighestTier (Some (default [] (DataLoader.AllTier raw))))
    as [t|] eqn:Hc; [|by left].
  apply computeHighestTier_ranked in Hc.
  unfold jsOr. destruct (truthy (Some t)); [by right | by left].
Qed.

(** ** The Classic engine on a loaded pool *)

Lemma classicTiers_NoDup settings allChars : NoDup (classicTiers settings allChars).
Proof.
  unfold classicTiers. apply NoDup_filter.
  by destruct (foldl_groupStep_keys (applyModeFilters settings allChars) [])
    as [? _]; [constructor|].
Qed.

Lemma classicTiers_ranked settings allChars :
  Forall (λ c, highestTier c = None ∨ 0 ≤ getTierIndex (highestTier c)) allChars →
  Forall (λ t, 0 ≤ getTierIndex (Some t)) (classicTiers settings allChars).
Proof.
  intros Hranked. apply Forall_forall. intros t Ht. unfold classicTiers in Ht.
  apply list_elem_of_filter in Ht as [_ Ht].
  destruct (foldl_groupStep_keys (applyModeFilters settings allChars) [])
    as [_ Hkeys]; [constructor|].
  destruct (Hkeys t Ht) as [?%elem_of_nil|(c & Hc & Htier)]; [done|].
  apply applyModeFilters_subseteq in Hc.
  rewrite Forall_forall in Hranked. destruct (Hranked c Hc) as [?|?]; [congruence|].
  by rewrite <- Htier.
Qed.

Lemma startNewRound_no_throw rev settings allChars gs g :
  Forall (λ c, highestTier c = None ∨ 0 ≤ getTierIndex (highestTier c)) allChars →
  ∃ gs' g', Classic.startNewRound rev settings allChars gs g = Returned (gs', g').
Proof.
  intros Hranked. pose proof (startNewRound_cases rev settings allChars gs g) as Hc.
  destruct (Classic.startNewRound rev settings allChars gs g) as [[gs' g']|[gs' g']];
    [eauto|].
  exfalso. destruct Hc as (_ & Hvh & Hnil & Hlen).
  revert Hnil. unfold classicPairs. rewrite Hvh.
  apply candidatePairsOf_nonempty; [done|apply classicTiers_NoDup|].
  right. by apply classicTiers_ranked.
Qed.

(** X8. On a pool that the data loader built, [startNewRound] returns
    without an exception, in both revisions, for all settings, from every
    state and for every outcome of [Math.random]. *)
Theorem loaded_pool_startNewRound_returns rev settings raws gs g :
  ∃ gs' g',
    Classic.startNewRound rev settings (DataLoader.normalizeCharacter <$> raws) gs g
    = Returned (gs', g').
Proof.
  apply startNewRound_no_throw. apply Forall_forall.
  intros c (raw & -> & _)%list_elem_of_fmap. apply normalizeCharacter_tier.
Qed.

(** ** The Classic engine: the committed pair *)

Lemma candidatePairsOf_distinct rev veryHard tiers tA tB :
  NoDup tiers → (tA, tB) ∈ Classic.candidatePairsOf rev veryHard tiers → tA ≠ tB.
Proof.
  induction tiers as [|t tiers IH]; csimpl; [by intros _ ?%elem_of_nil|].
  intros [Ht Hnd]%NoDup_cons [Hin|Hin]%elem_of_app; [|by apply IH].
  apply list_elem_of_fmap in Hin as (tB' & [= -> ->] & Hin).
  apply list_elem_of_filter in Hin as [_ Hin]. by intros ->.
Qed.

Lemma applyModeFilters_elem settings allChars c :
  c ∈ applyModeFilters settings allChars →
  c ∈ allChars ∧
  (veryHardMode settings = true → highestTier c ≠ Some "Tier 0") ∧
  (customMode settings = true → customSeries settings ≠ [] →
   origin c ∈ customSeries settings).
Proof.
  intros Hin. split; [by apply applyModeFilters_subseteq in Hin|].
  split; [intros Hvh; by eapply applyModeFilters_veryHard|].
  intros Hcm Hne. unfold applyModeFilters in Hin. rewrite Hcm in Hin.
  destruct (customSeries settings) as [|s series] eqn:Hs; [done|].
  cbn [length Nat.ltb Nat.leb andb] in Hin.
  by apply list_elem_of_filter in Hin as [? _].
Qed.

(** A committed Classic round in full: what [startNewRound] guarantees of
    the two cards. *)
Lemma classicCommit_full rev settings allChars gs gs' :
  classicCommit (Classic.buildFilteredGroups settings allChars)
                (classicPairs rev settings allChars) gs gs' →
  ∃ l r,
    gs' = {| Classic.phase := inRound; Classic.currentPair := Some (l, r);
             Classic.correctId :=
               Some (id (if getTierIndex (highestTier l) <? getTierIndex (highestTier r)
                         then l else r));
             Classic.streak := Classic.streak gs;
             Classic.usedCharacterKeys := Classic.usedCharacterKeys gs |} ∧
    0 ≤ getTierIndex (highestTier l) ∧ 0 ≤ getTierIndex (highestTier r) ∧
    getTierIndex (highestTier l) ≠ getTierIndex (highestTier r) ∧
    l ∈ applyModeFilters settings allChars ∧ r ∈ applyModeFilters settings allChars.
Proof.
  intros (tA & tB & gA & gB & l & r & s & Hp & HgA & HgB & Hl & Hr & _ & _ & Hs & ->).
  destruct (groupByTier_members _ _ _ _ HgA Hl) as [Hlp Hlt].
  destruct (groupByTier_members _ _ _ _ HgB Hr) as [Hrp Hrt].
  apply candidatePairsOf_distinct in Hp; [|apply classicTiers_NoDup].
  exists l, r. unfold getStrongerCharacter in Hs.
  destruct (Z.ltb_spec (getTierIndex (highestTier l)) 0) as [|Hl0]; [done|].
  destruct (Z.ltb_spec (getTierIndex (highestTier r)) 0) as [|Hr0]; [done|].
  injection Hs as <-. repeat split; try done.
  rewrite Hlt, Hrt. intros Heq. apply Hp. apply getTierIndex_inj; [|done].
  by rewrite <- Hlt.
Qed.

(** X9. Every round the Classic engine commits has a strictly stronger
    card: both tiers are on the ladder, their indices differ, and
    [correctId] is the id of the card with the lower index. *)
Theorem classic_round_has_strict_winner rev settings allChars gs g gs' g' :
  Classic.startNewRound rev settings allChars gs g = Returned (gs', g') →
  Classic.phase gs' = inRound →
  ∃ l r,
    Classic.currentPair gs' = Some (l, r) ∧
    0 ≤ getTierIndex (highestTier l) ∧ 0 ≤ getTierIndex (highestTier r) ∧
    getTierIndex (highestTier l) ≠ getTierIndex (highestTier r) ∧
    Classic.correctId gs' =
      Some (id (if getTierIndex (highestTier l) <? getTierIndex (highestTier r)
                then l else r)).
Proof.
  intros Hstart Hph. pose proof (startNewRound_cases rev settings allChars gs g) as Hc.
  rewrite Hstart in Hc. destruct Hc as [->|Hc]; [done|].
  apply classicCommit_full in Hc as (l & r & -> & ? & ? & ? & _).
  exists l, r. by repeat split.
Qed.

Lemma classic_round_has_strict_winner_witness :
  ∃ l r,
    Classic.currentPair twoPoolAfterStart = Some (l, r) ∧
    0 ≤ getTierIndex (highestTier l) ∧ 0 ≤ getTierIndex (highestTier r) ∧
    getTierIndex (highestTier l) ≠ getTierIndex (highestTier r) ∧
    Classic.correctId twoPoolAfterStart =
      Some (id (if getTierIndex (highestTier l) <? getTierIndex (highestTier r)
                then l else r)).
Proof.
  apply (classic_round_has_strict_winner RevAlt defaultSettings [goku; saitama]
           Classic.initGameState countingRng twoPoolAfterStart
           {| draws := draws countingRng; pos := 3 |}).
  - vm_compute. reflexivity.
  - reflexivity.
Defined.

(** X10. The two cards of a committed Classic round are characters of the
    pool that pass the mode filters: in very hard mode neither is a
    "Tier 0" character, and with the custom mode on and a series list that
    is not empty the origin of both is on the list. *)
Theorem classic_round_respects_filters rev settings allChars gs g gs' g' l r :
  Classic.startNewRound rev settings allChars gs g = Returned (gs', g') →
  Classic.phase gs' = inRound →
  Classic.currentPair gs' = Some (l, r) →
  Forall (λ c, c ∈ allChars ∧
               (veryHardMode settings = true → highestTier c ≠ Some "Tier 0") ∧
               (customMode settings = true → customSeries settings ≠ [] →
                origin c ∈ customSeries settings)) [l; r].
Proof.
  intros Hstart Hph Hpair.
  pose proof (startNewRound_cases rev settings allChars gs g) as Hc.
  rewrite Hstart in Hc. destruct Hc as [->|Hc]; [done|].
  apply classicCommit_full in Hc as (l' & r' & -> & _ & _ & _ & Hl & Hr).
  injection Hpair as <- <-.
  apply Forall_cons; split; [by apply applyModeFilters_elem|].
  apply Forall_cons; split; [by apply applyModeFilters_elem|]. constructor.
Qed.


Lemma classic_round_respects_filters_witness :
  Forall (λ c, c ∈ [goku; saitama; zeno; azathoth] ∧
               (veryHardMode dragonBallOnly = true → highestTier c ≠ Some "Tier 0") ∧
               (customMode dragonBallOnly = true → customSeries dragonBallOnly ≠ [] →
                origin c ∈ customSeries dragonBallOnly)) [goku; zeno].
Proof.
  apply (classic_round_respects_filters RevJs dragonBallOnly [goku; saitama; zeno; azathoth]
           Classic.initGameState countingRng customRound
           {| draws := draws countingRng; pos := 3 |} goku zeno).
  - vm_compute. reflexivity.
  - reflexivity.
  - reflexivity.
Defined.

(** ** The Odd-One-Out engine: the committed options *)

Lemma buildFilteredPoolForOdd_filters rev settings allChars used c :
  c ∈ Odd.buildFilteredPoolForOdd rev settings allChars used →
  c ∈ applyModeFilters settings allChars.
Proof.
  unfold Odd.buildFilteredPoolForOdd. intros Hin.
  assert (c ∈ filter (λ c, getCharacterKey c ∉ used) (applyModeFilters settings allChars))
    as [_ Hp]%list_elem_of_filter; [|done].
  destruct rev; [done|]. by apply uniqueByKey_elem in Hin as [? _].
Qed.

Lemma oddCommit_pool rev settings allChars gs gs' c :
  oddCommit rev settings allChars gs gs' → c ∈ Odd.options gs' →
  c ∈ Odd.buildFilteredPoolForOdd rev settings allChars (Odd.usedCharacterKeys gs).
Proof.
  intros (tM & tO & gM & gO & m1 & m2 & m3 & o & opts & HgM & HgO & Hne
          & Hm1 & Hm2 & Hm3 & Ho & Hperm & Hnd & ->). simpl. intros Hc.
  rewrite Hperm in Hc.
  assert (c ∈ gM ∨ c ∈ gO) as [Hin|Hin].
  { rewrite !elem_of_cons, elem_of_nil in Hc.
    destruct Hc as [->|[->|[->|[->|[]]]]]; auto. }
  - by destruct (groupByTier_members _ _ _ _ HgM Hin).
  - by destruct (groupByTier_members _ _ _ _ HgO Hin).
Qed.

(** X11. The four options of a committed Odd-One-Out round are characters
    of the pool that pass the mode filters and were not used in the run: in
    very hard mode none is a "Tier 0" character, and with the custom mode on
    and a series list that is not empty every origin is on the list. *)
Theorem odd_round_respects_filters rev settings allChars gs g gs' g' :
  Odd.startNewOddRound rev settings allChars gs g = Returned (gs', g') →
  Odd.phase gs' = inRound →
  Forall (λ c, c ∈ allChars ∧
               (veryHardMode settings = true → highestTier c ≠ Some "Tier 0") ∧
               (customMode settings = true → customSeries settings ≠ [] →
                origin c ∈ customSeries settings) ∧
               getCharacterKey c ∉ Odd.usedCharacterKeys gs) (Odd.options gs').
Proof.
  intros Hstart Hph.
  destruct (startNewOddRound_cases rev settings allChars gs g) as (gs1 & g1 & Heq & Hc).
  rewrite Hstart in Heq. injection Heq as <- <-.
  destruct Hc as [->|Hc]; [done|].
  apply Forall_forall. intros c Hin.
  pose proof (oddCommit_pool _ _ _ _ _ _ Hc Hin) as Hpool.
  destruct (buildFilteredPoolForOdd_elem _ _ _ _ _ Hpool) as [_ Hunused].
  apply buildFilteredPoolForOdd_filters, applyModeFilters_elem in Hpool
    as (? & ? & ?). done.
Qed.

Lemma odd_round_respects_filters_witness :
  Forall (λ c, c ∈ [goku; vegeta; frieza; saitama] ∧
               (veryHardMode defaultSettings = true → highestTier c ≠ Some "Tier 0") ∧
               (customMode defaultSettings = true → customSeries defaultSettings ≠ [] →
                origin c ∈ customSeries defaultSettings) ∧
               getCharacterKey c ∉ Odd.usedCharacterKeys Odd.initOddGameState)
         (Odd.options oddRoundOfFour).
Proof.
  apply (odd_round_respects_filters RevAlt defaultSettings [goku; vegeta; frieza; saitama]
           Odd.initOddGameState countingRng oddRoundOfFour
           {| draws := draws countingRng; pos := 9 |}).
  - vm_compute. reflexivity.
  - reflexivity.
Defined.

(** ** What a new round leaves alone *)

(** X12. Asking for a new round never changes the streak or the used keys
    of the run.  When no round is committed the state differs from the one
    before in the phase alone, which is [error]: the previous pair (the
    previous options) and the previous answer stay in place.  When
    [startNewRound] throws the state is untouched. *)
Theorem start_round_frame :
  (∀ rev settings allChars gs g,
     match Classic.startNewRound rev settings allChars gs g with
     | Returned (gs', _) =>
         Classic.streak gs' = Classic.streak gs ∧
         Classic.usedCharacterKeys gs' = Classic.usedCharacterKeys gs ∧
         (Classic.phase gs' = inRound ∨ gs' = Classic.setPhase error gs)
     | Threw (gs', _) => gs' = gs
     end) ∧
  (∀ rev settings allChars gs g,
     match Odd.startNewOddRound rev settings allChars gs g with
     | Returned (gs', _) =>
         Odd.streak gs' = Odd.streak gs ∧
         Odd.usedCharacterKeys gs' = Odd.usedCharacterKeys gs ∧
         (Odd.phase gs' = inRound ∨ gs' = Odd.setPhase error gs)
     | Threw (gs', _) => gs' = gs
     end).
Proof.
  split; intros rev settings allChars gs g.
  - pose proof (startNewRound_cases rev settings allChars gs g) as Hc.
    destruct (Classic.startNewRound rev settings allChars gs g) as [[gs' g']|[gs' g']];
      [|by destruct Hc].
    destruct Hc as [->|Hc]; [by auto|].
    apply classicCommit_full in Hc as (l & r & -> & _). by auto.
  - destruct (startNewOddRound_cases rev settings allChars gs g) as (gs' & g' & -> & Hc).
    destruct Hc as [->|Hc]; [by auto|].
    destruct Hc as (tM & tO & gM & gO & m1 & m2 & m3 & o & opts & _ & _ & _
                    & _ & _ & _ & _ & _ & _ & ->). by auto.
Qed.

(** ** When a round is available at the start of a run *)

Lemma groupStep_keeps acc c t g x :
  groupsGet acc t = Some g → x ∈ g →
  ∃ g', groupsGet (groupStep acc c) t = Some g' ∧ x ∈ g'.
Proof.
  intros Hg Hx. unfold groupStep.
  destruct (highestTier c) as [key|]; [|eauto].
  destruct (truthy (Some key)); [|eauto]. rewrite groupsGet_push.
  destruct (decide (key = t)) as [->|]; [|eauto].
  rewrite Hg. simpl. eexists. split; [done|]. apply elem_of_app. by left.
Qed.

Lemma foldl_groupStep_keeps pool acc t g x :
  groupsGet acc t = Some g → x ∈ g →
  ∃ g', groupsGet (foldl groupStep acc pool) t = Some g' ∧ x ∈ g'.
Proof.
  revert acc g. induction pool as [|c pool IH]; intros acc g Hg Hx; simpl; [eauto|].
  destruct (groupStep_keeps acc c t g x Hg Hx) as (g1 & Hg1 & Hx1). by eapply IH.
Qed.

(** Every character of the pool with a tier is in the group of its tier. *)
Lemma groupByTier_complete pool c t :
  c ∈ pool → highestTier c = Some t → truthy (Some t) = true →
  ∃ g, groupsGet (groupByTier pool) t = Some g ∧ c ∈ g.
Proof.
  unfold groupByTier. generalize (@nil (string * list Character)).
  induction pool as [|c' pool IH]; intros acc; [by intros ?%elem_of_nil|].
  intros [Heq|Hin]%elem_of_cons Ht Htruthy; simpl; [|by apply IH].
  subst c'.
  apply (foldl_groupStep_keeps pool _ t (default [] (groupsGet acc t) ++ [c])).
  - unfold groupStep. rewrite Ht, Htruthy, groupsGet_push. by rewrite decide_True.
  - apply elem_of_app. right. by left.
Qed.

Lemma classicTiers_elem settings allChars t :
  t ∈ classicTiers settings allChars ↔
  ∃ g, groupsGet (Classic.buildFilteredGroups settings allChars) t = Some g ∧ g ≠ [].
Proof.
  unfold classicTiers. rewrite list_elem_of_filter, <- groupsGet_keys. split.
  - intros [Hlen [g Hg]]. exists g. split; [done|]. rewrite Hg in Hlen. simpl in Hlen.
    intros ->. simpl in Hlen. lia.
  - intros (g & Hg & Hne). rewrite Hg. split; [|eauto]. simpl.
    destruct g; [done | simpl; lia].
Qed.

Lemma tierDistance_sym tA tB : Classic.tierDistance tA tB = Classic.tierDistance tB tA.
Proof. unfold Classic.tierDistance. lia. Qed.

Lemma candidatePairsOf_complete rev veryHard tiers tA tB :
  tA ∈ tiers → tB ∈ tiers → tA ≠ tB →
  Classic.acceptsDistance rev veryHard (Classic.tierDistance tA tB) = true →
  (tA, tB) ∈ Classic.candidatePairsOf rev veryHard tiers ∨
  (tB, tA) ∈ Classic.candidatePairsOf rev veryHard tiers.
Proof.
  intros HA HB Hne Hacc.
  assert (∀ x y, x ∈ tiers → y ∈ tiers → x ≠ y →
                 Classic.acceptsDistance rev veryHard (Classic.tierDistance x y) = true →
                 (∃ i j, (i < j)%nat ∧ tiers !! i = Some x ∧ tiers !! j = Some y) →
                 (x, y) ∈ Classic.candidatePairsOf rev veryHard tiers) as Hord.
  { clear. induction tiers as [|t tiers IH]; intros x y Hx Hy Hne Hacc (i & j & Hij & Hi & Hj).
    { by apply elem_of_nil in Hx. }
    csimpl. apply elem_of_app. destruct i as [|i].
    - injection Hi as ->. left. apply list_elem_of_fmap. exists y. split; [done|].
      apply list_elem_of_filter. split; [done|].
      destruct j as [|j]; [lia|]. by eapply list_elem_of_lookup_2.
    - right. destruct j as [|j]; [lia|]. simpl in Hi, Hj.
      apply IH; try done; try (by eapply list_elem_of_lookup_2).
      exists i, j. split; [lia | done]. }
  apply list_elem_of_lookup_1 in HA as Hi. destruct Hi as [i Hi].
  apply list_elem_of_lookup_1 in HB as Hj. destruct Hj as [j Hj].
  destruct (Nat.lt_trichotomy i j) as [Hlt|[->|Hgt]].
  - left. apply Hord; eauto.
  - congruence.
  - right. apply Hord; eauto. by rewrite tierDistance_sym.
Qed.

Lemma pickCharacterFromGroup_fresh used grp g :
  grp ≠ [] → Forall (λ c, getCharacterKey c ∉ used) grp →
  ∃ c g', Classic.pickCharacterFromGroup used (Some grp) g = (Some c, g') ∧ c ∈ grp.
Proof.
  intros Hne Hall. unfold Classic.pickCharacterFromGroup.
  assert (filter (λ c, getCharacterKey c ∉ used) grp = grp) as ->.
  { induction Hall as [|c grp' Hc _ IH]; [done|].
    rewrite filter_cons_True by done. f_equal.
    destruct grp' as [|c' grp'']; [done|]. by apply IH. }
  destruct grp as [|c0 grp0] eqn:Hgrp; [done|]. rewrite <- Hgrp in *.
  assert ((length grp =? 0)%nat = false) as -> by (subst grp; reflexivity).
  destruct (randomIndex (length grp) g) as [i g'] eqn:Hi.
  destruct (randomIndex_lookup grp g) as [c Hc]; [by subst grp|].
  rewrite Hi in Hc. simpl in Hc. exists c, g'. rewrite Hc. split; [done|].
  by eapply list_elem_of_lookup_2.
Qed.

Lemma ranked_truthy t : 0 ≤ getTierIndex (Some t) → truthy (Some t) = true.
Proof.
  destruct t as [|ch t]; [|done]. vm_compute. intros H. by destruct H.
Qed.

Lemma classicPairs_available rev settings allChars :
  rankedPool allChars →
  classicPairs rev settings allChars ≠ [] ↔ availablePair rev settings allChars.
Proof.
  intros Hranked. split.
  - intros Hne. destruct (classicPairs rev settings allChars) as [|[tA tB] ps] eqn:Hps;
      [done|].
    assert ((tA, tB) ∈ classicPairs rev settings allChars) as Hin by (rewrite Hps; by left).
    pose proof (candidatePairsOf_distinct _ _ _ _ _ (classicTiers_NoDup _ _) Hin) as Hd.
    apply candidatePairsOf_spec in Hin as (Hacc & HA & HB).
    apply classicTiers_elem in HA as (gA & HgA & HneA), HB as (gB & HgB & HneB).
    destruct gA as [|a gA]; [done|]. destruct gB as [|b gB]; [done|].
    destruct (groupByTier_members _ _ _ a HgA ltac:(by left)) as [Ha Hta].
    destruct (groupByTier_members _ _ _ b HgB ltac:(by left)) as [Hb Htb].
    exists a, b, tA, tB. by repeat split.
  - intros (a & b & tA & tB & Ha & Hb & Hta & Htb & Hd & Hacc).
    assert (∀ c t, c ∈ applyModeFilters settings allChars → highestTier c = Some t →
                   t ∈ classicTiers settings allChars) as Htier.
    { intros c t Hc Ht. apply classicTiers_elem.
      assert (truthy (Some t) = true) as Htr.
      { apply ranked_truthy. apply applyModeFilters_subseteq in Hc.
        unfold rankedPool in Hranked. rewrite Forall_forall in Hranked.
        destruct (Hranked c Hc) as [?|?]; [congruence | by rewrite <- Ht]. }
      destruct (groupByTier_complete _ c t Hc Ht Htr) as (g & Hg & Hin).
      exists g. split; [done|]. intros ->. by apply elem_of_nil in Hin. }
    destruct (candidatePairsOf_complete rev (veryHardMode settings)
                (classicTiers settings allChars) tA tB) as [Hin|Hin]; eauto;
      unfold classicPairs; intros Hnil; rewrite Hnil in Hin; by apply elem_of_nil in Hin.
Qed.

Lemma candidatePairsOf_short rev veryHard tiers :
  (length tiers < 2)%nat → Classic.candidatePairsOf rev veryHard tiers = [].
Proof. destruct tiers as [|t [|t' tiers]]; simpl; [done | done | lia]. Qed.

(** On a state in which no character of the filtered pool is used, the
    first attempt commits. *)
Lemma retryLoop_fresh n settings allChars pairs gs g :
  rankedPool allChars → pairs ≠ [] →
  (∀ tA tB, (tA, tB) ∈ pairs →
            tA ∈ classicTiers settings allChars ∧ tB ∈ classicTiers settings allChars) →
  Forall (λ c, getCharacterKey c ∉ Classic.usedCharacterKeys gs)
         (applyModeFilters settings allChars) →
  ∃ gs' g', Classic.retryLoop (S n) pairs (Classic.buildFilteredGroups settings allChars) gs g
            = Returned (gs', g') ∧ Classic.phase gs' = inRound.
Proof.
  intros Hranked Hne Hpairs Hfresh. cbn [Classic.retryLoop].
  destruct (randomIndex (length pairs) g) as [i g1] eqn:Hi.
  destruct (randomIndex_lookup pairs g Hne) as [[tA tB] Hp].
  rewrite Hi in Hp. simpl in Hp. rewrite Hp.
  apply list_elem_of_lookup_2, Hpairs in Hp as [HA HB].
  apply classicTiers_elem in HA as (gA & HgA & HneA), HB as (gB & HgB & HneB).
  assert (∀ t grp, groupsGet (Classic.buildFilteredGroups settings allChars) t = Some grp →
            Forall (λ c, (getCharacterKey c ∉ Classic.usedCharacterKeys gs) ∧
                         0 ≤ getTierIndex (highestTier c)) grp) as Hgroup.
  { intros t grp Hgrp. apply Forall_forall. intros c Hc.
    destruct (groupByTier_members _ _ _ _ Hgrp Hc) as [Hin Ht].
    rewrite Forall_forall in Hfresh. split; [by apply Hfresh|].
    apply applyModeFilters_subseteq in Hin.
    unfold rankedPool in Hranked. rewrite Forall_forall in Hranked.
    destruct (Hranked c Hin) as [?|?]; [congruence | done]. }
  rewrite HgA, HgB.
  destruct (pickCharacterFromGroup_fresh (Classic.usedCharacterKeys gs) gA g1 HneA)
    as (l & g2 & -> & Hl).
  { eapply Forall_impl; [by apply (Hgroup tA)|]. by intros ? [? _]. }
  destruct (pickCharacterFromGroup_fresh (Classic.usedCharacterKeys gs) gB g2 HneB)
    as (r & g3 & -> & Hr).
  { eapply Forall_impl; [by apply (Hgroup tB)|]. by intros ? [? _]. }
  pose proof (Hgroup tA gA HgA) as HallA. pose proof (Hgroup tB gB HgB) as HallB.
  rewrite Forall_forall in HallA, HallB.
  destruct (HallA l Hl) as [_ Hl0]. destruct (HallB r Hr) as [_ Hr0].
  unfold getStrongerCharacter.
  destruct (Z.ltb_spec (getTierIndex (highestTier l)) 0); [lia|].
  destruct (Z.ltb_spec (getTierIndex (highestTier r)) 0); [lia|].
  simpl. eauto.
Qed.

(** X13. While no character of the filtered pool has been used (as right
    after a restart) and every tier is on the ladder, [startNewRound]
    commits a round, whatever [Math.random] gives, exactly when the filtered
    pool holds two characters in different tiers at a distance the mode
    accepts; otherwise it only sets the phase to [error]. *)
Theorem fresh_round_available_iff rev settings allChars gs g :
  rankedPool allChars →
  Forall (λ c, getCharacterKey c ∉ Classic.usedCharacterKeys gs)
         (applyModeFilters settings allChars) →
  ∃ gs' g',
    Classic.startNewRound rev settings allChars gs g = Returned (gs', g') ∧
    (Classic.phase gs' = inRound ↔ availablePair rev settings allChars) ∧
    (Classic.phase gs' = inRound ∨ gs' = Classic.setPhase error gs).
Proof.
  intros Hranked Hfresh.
  pose proof (classicPairs_available rev settings allChars Hranked) as Hav.
  unfold Classic.startNewRound. fold (classicTiers settings allChars).
  fold (classicPairs rev settings allChars).
  destruct (Nat.ltb_spec (length (classicTiers settings allChars)) 2) as [Hlt|Hge].
  { do 2 eexists. split; [done|]. split; [|by right]. split; [done|].
    intros Ha. apply Hav in Ha. exfalso. apply Ha.
    by apply candidatePairsOf_short. }
  destruct (classicPairs rev settings allChars) as [|p ps] eqn:Hps.
  - destruct (veryHardMode settings) eqn:Hvh; cbn [andb length Nat.eqb].
    + do 2 eexists. split; [done|]. split; [|by right]. split; [done|].
      intros Ha. by apply Hav in Ha.
    + exfalso. revert Hps. unfold classicPairs. rewrite Hvh.
      apply candidatePairsOf_nonempty; [done | apply classicTiers_NoDup|].
      right. by apply classicTiers_ranked.
  - rewrite andb_false_r.
    destruct (retryLoop_fresh 39 settings allChars (p :: ps) gs g Hranked)
      as (gs' & g' & Heq & Hph); [done| |done|].
    { intros tA tB Hin. rewrite <- Hps in Hin.
      by apply candidatePairsOf_spec in Hin as (_ & ? & ?). }
    exists gs', g'. split; [done|]. split; [|by left].
    split; [|done]. intros _. by apply Hav.
Qed.

Lemma fresh_round_available_iff_witness :
  ∃ gs' g',
    Classic.startNewRound RevAlt veryHardSettings [kami; zeno] Classic.initGameState
      countingRng = Returned (gs', g') ∧
    (Classic.phase gs' = inRound ↔ availablePair RevAlt veryHardSettings [kami; zeno]) ∧
    (Classic.phase gs' = inRound ∨ gs' = Classic.setPhase error Classic.initGameState).
Proof.
  apply (fresh_round_available_iff RevAlt veryHardSettings [kami; zeno]
           Classic.initGameState countingRng).
  - apply Forall_cons; split; [right; vm_compute; discriminate|].
    apply Forall_cons; split; [right; vm_compute; discriminate|]. apply Forall_nil_2.
  - apply Forall_forall. intros c _. apply not_elem_of_empty.
Defined.

(** ** What a valid choice changes *)

Lemma recordRound_stats correct k st :
  totalRounds (stats (recordRound correct k st)) = (totalRounds (stats st) + 1)%nat ∧
  totalCorrectRounds (stats (recordRound correct k st))
    = (totalCorrectRounds (stats st) + (if correct then 1 else 0))%nat ∧
  bestStreak (stats (recordRound correct k st))
    = if correct then (bestStreak (stats st) `max` k)%nat else bestStreak (stats st).
Proof.
  unfold recordRound; simpl. rewrite recordRoundStats_best.
  unfold recordRoundStats. destruct correct; simpl; [|lia].
  destruct (bestStreak (stats st) <? k)%nat; simpl; lia.
Qed.

(** X14. A valid choice resolves the round in play: the phase becomes
    [afterCorrect] or [afterWrong], the pair (the options) and the answer
    stay, the identity keys of all cards shown are added to the used keys,
    [totalRounds] grows by one, [totalCorrectRounds] grows by one exactly on
    a right answer, and [bestStreak] becomes the larger of its value and the
    new streak on a right answer and is kept on a wrong one. *)
Theorem valid_choice_effect :
  (∀ selectedId gs st correct sid cid k ph gs' st',
     Classic.handleChoice selectedId gs st = (Classic.Valid correct sid cid k ph, gs', st') →
     ∃ l r,
       Classic.phase gs = inRound ∧ Classic.currentPair gs = Some (l, r) ∧
       sid = selectedId ∧ cid = Classic.correctId gs ∧
       ph = (if correct then afterCorrect else afterWrong) ∧
       Classic.phase gs' = ph ∧
       Classic.currentPair gs' = Some (l, r) ∧
       Classic.correctId gs' = Classic.correctId gs ∧
       Classic.usedCharacterKeys gs'
         = {[ getCharacterKey r ]} ∪ ({[ getCharacterKey l ]} ∪ Classic.usedCharacterKeys gs) ∧
       totalRounds (stats st') = (totalRounds (stats st) + 1)%nat ∧
       totalCorrectRounds (stats st')
         = (totalCorrectRounds (stats st) + (if correct then 1 else 0))%nat ∧
       bestStreak (stats st')
         = (if correct then (bestStreak (stats st) `max` (Classic.streak gs + 1))%nat
            else bestStreak (stats st))) ∧
  (∀ selectedId gs st correct sid oid opts k ph gs' st',
     Odd.handleOddChoice selectedId gs st
       = (Odd.Valid correct sid oid opts k ph, gs', st') →
     Odd.phase gs = inRound ∧ length (Odd.options gs) = 4%nat ∧
     sid = selectedId ∧ oid = Odd.oddId gs ∧ opts = Odd.options gs ∧
     ph = (if correct then afterCorrect else afterWrong) ∧
     Odd.phase gs' = ph ∧
     Odd.options gs' = Odd.options gs ∧ Odd.oddId gs' = Odd.oddId gs ∧
     (∀ key, key ∈ Odd.usedCharacterKeys gs' ↔
             key ∈ Odd.usedCharacterKeys gs ∨ key ∈ keysOf (Odd.options gs)) ∧
     totalRounds (stats st') = (totalRounds (stats st) + 1)%nat ∧
     totalCorrectRounds (stats st')
       = (totalCorrectRounds (stats st) + (if correct then 1 else 0))%nat ∧
     bestStreak (stats st')
       = (if correct then (bestStreak (stats st) `max` (Odd.streak gs + 1))%nat
          else bestStreak (stats st))).
Proof.
  split.
  - intros selectedId gs st correct sid cid k ph gs' st' H.
    destruct (handleChoice_cases selectedId gs st)
      as [[Hinv _]|(l & r & c & Hph & Hpair & _ & Hc & Hval)]; [congruence|].
    rewrite Hval in H. injection H as <- <- <- <- <- <- <-.
    destruct (recordRound_stats c (if c then S (Classic.streak gs) else Classic.streak gs) st)
      as (Ht & Hcr & Hb).
    exists l, r. unfold classicResolved; cbn [Classic.phase Classic.currentPair
      Classic.correctId Classic.usedCharacterKeys].
    repeat split; try done.
    rewrite Hb. destruct c; [by rewrite Nat.add_1_r | done].
  - intros selectedId gs st correct sid oid opts k ph gs' st' H.
    destruct (handleOddChoice_cases selectedId gs st)
      as [[[m Hinv] _]|(c & Hph & Hlen & _ & Hc & Hval)]; [congruence|].
    rewrite Hval in H. injection H as <- <- <- <- <- <- <- <-.
    destruct (recordRound_stats c (if c then (Odd.streak gs + 1)%nat else Odd.streak gs) st)
      as (Ht & Hcr & Hb).
    unfold oddResolved; cbn [Odd.phase Odd.options Odd.oddId Odd.usedCharacterKeys].
    repeat split; try done; try apply markUsed_elem.
    rewrite Hb. by destruct c.
Qed.

Lemma valid_choice_effect_witness :
  (∃ gs' st',
     Classic.handleChoice (id goku) twoPoolAfterStart emptyStats
       = (Classic.Valid true (id goku) (Some (id goku)) 1 afterCorrect, gs', st') ∧
     Classic.phase gs' = afterCorrect ∧ totalRounds (stats st') = 1%nat ∧
     bestStreak (stats st') = 1%nat) ∧
  (∃ gs' st',
     Odd.handleOddChoice (id goku) oddRoundOfFour emptyStats
       = (Odd.Valid false (id goku) (Some (id saitama)) (Odd.options oddRoundOfFour)
            0 afterWrong, gs', st') ∧
     Odd.phase gs' = afterWrong ∧ totalRounds (stats st') = 1%nat ∧
     bestStreak (stats st') = 0%nat).
Proof.
  split.
  - do 2 eexists. split; [reflexivity|].
    destruct (proj1 valid_choice_effect (id goku) twoPoolAfterStart emptyStats
                true (id goku) (Some (id goku)) 1%nat afterCorrect _ _ eq_refl)
      as (l & r & _ & _ & _ & _ & _ & Hph & _ & _ & _ & Ht & _ & Hb).
    exact (conj Hph (conj Ht Hb)).
  - do 2 eexists. split; [reflexivity|].
    destruct (proj2 valid_choice_effect (id goku) oddRoundOfFour emptyStats
                false (id goku) (Some (id saitama)) (Odd.options oddRoundOfFour)
                0%nat afterWrong _ _ eq_refl)
      as (_ & _ & _ & _ & _ & _ & Hph & _ & _ & _ & Ht & _ & Hb).
    exact (conj Hph (conj Ht Hb)).
Defined.

(** ** Stats over a run *)

Lemma resolvedCount_app log1 log2 :
  resolvedCount (log1 ++ log2) = (resolvedCount log1 + resolvedCount log2)%nat.
Proof.
  induction log1 as [|[| |] log1 IH]; simpl; [done| |by rewrite IH|]; by rewrite IH.
Qed.

Lemma runWith_invariant {W : Type} (step : Op → W → W * list Event) (P : W → Prop) :
  (∀ op w, P w → P (step op w).1) →
  ∀ ops w, P w → P (runWith step ops w).1.
Proof.
  intros Hstep ops. induction ops as [|op ops IH]; intros w Hw; simpl; [done|].
  specialize (Hstep op w Hw). destruct (step op w) as [w1 ev1].
  specialize (IH w1 Hstep). by destruct (runWith step ops w1) as [w2 ev2].
Qed.

Lemma runWith_counts {W : Type} (step : Op → W → W * list Event) (f : W → nat) :
  (∀ op w, f (step op w).1 = (f w + resolvedCount (step op w).2)%nat) →
  ∀ ops w, f (runWith step ops w).1 = (f w + resolvedCount (runWith step ops w).2)%nat.
Proof.
  intros Hstep ops. induction ops as [|op ops IH]; intros w; simpl; [lia|].
  specialize (Hstep op w). destruct (step op w) as [w1 ev1].
  specialize (IH w1). destruct (runWith step ops w1) as [w2 ev2]. simpl in *.
  rewrite resolvedCount_app. lia.
Qed.


(** One step of the Classic engine, as the stats see it: the stats are left
    alone and the streak is kept or reset, or one round is resolved and
    recorded. *)
Lemma classicStep_stats rev settings allChars op gs st g :
  ∃ gs' st' g' evs,
    classicStep rev settings allChars op (gs, st, g) = ((gs', st', g'), evs) ∧
    ((resolvedCount evs = 0%nat ∧ st' = st ∧
      (Classic.streak gs' = Classic.streak gs ∨ Classic.streak gs' = 0%nat)) ∨
     (∃ correct,
        resolvedCount evs = 1%nat ∧
        st' = recordRound correct
                (if correct then (Classic.streak gs + 1)%nat else Classic.streak gs) st ∧
        Classic.streak gs' = if correct then (Classic.streak gs + 1)%nat else 0%nat)).
Proof.
  assert (∀ gs0 g0, ∃ gs' g' out,
            Classic.startNewRound rev settings allChars gs0 g0 = out ∧
            (out = Returned (gs', g') ∨ out = Threw (gs', g')) ∧
            Classic.streak gs' = Classic.streak gs0 ∧
            resolvedCount (classicCommitted gs') = 0%nat) as Hstart.
  { intros gs0 g0. pose proof (startNewRound_cases rev settings allChars gs0 g0) as Hc.
    destruct (Classic.startNewRound rev settings allChars gs0 g0)
      as [[gs' g']|[gs' g']] eqn:Hs; exists gs', g'; eexists; (split; [done|]).
    - split; [by left|]. destruct Hc as [->|Hc]; [done|].
      apply classicCommit_full in Hc as (l & r & -> & _). done.
    - split; [by right|]. destruct Hc as [-> _]. split; [done|].
      unfold classicCommitted. by destruct (classicInPlay gs0). }
  destruct op as [|selectedId|]; cbn [classicStep].
  - destruct (Hstart gs g) as (gs' & g' & out & -> & [-> | ->] & Hstreak & Hcount);
      do 4 eexists; (split; [done|]); left; auto.
  - destruct (handleChoice_cases selectedId gs st)
      as [[-> _]|(l & r & c & _ & Hpair & _ & _ & ->)].
    + do 4 eexists. split; [done|]. left. auto.
    + rewrite Hpair. do 4 eexists. split; [done|]. right. exists c.
      split; [done|]. unfold classicResolved; simpl.
      destruct c; rewrite ?Nat.add_1_r; done.
  - unfold Classic.restartGame.
    destruct (Hstart Classic.initGameState g)
      as (gs' & g' & out & Heq & [-> | ->] & Hstreak & Hcount);
      unfold Classic.initGameState in Heq; rewrite Heq;
      do 4 eexists; (split; [done|]); left; auto.
Qed.

Lemma oddStep_stats rev settings allChars op gs st g :
  ∃ gs' st' g' evs,
    oddStep rev settings allChars op (gs, st, g) = ((gs', st', g'), evs) ∧
    ((resolvedCount evs = 0%nat ∧ st' = st ∧
      (Odd.streak gs' = Odd.streak gs ∨ Odd.streak gs' = 0%nat)) ∨
     (∃ correct,
        resolvedCount evs = 1%nat ∧
        st' = recordRound correct
                (if correct then (Odd.streak gs + 1)%nat else Odd.streak gs) st ∧
        Odd.streak gs' = if correct then (Odd.streak gs + 1)%nat else 0%nat)).
Proof.
  assert (∀ gs0 g0, ∃ gs' g',
            Odd.startNewOddRound rev settings allChars gs0 g0 = Returned (gs', g') ∧
            Odd.streak gs' = Odd.streak gs0 ∧
            resolvedCount (oddCommitted gs') = 0%nat) as Hstart.
  { intros gs0 g0.
    destruct (startNewOddRound_cases rev settings allChars gs0 g0) as (gs' & g' & Heq & Hc).
    exists gs', g'. split; [done|]. unfold oddCommitted.
    destruct Hc as [->|Hc]; [done|].
    destruct Hc as (tM & tO & gM & gO & m1 & m2 & m3 & o & opts & _ & _ & _
                    & _ & _ & _ & _ & _ & _ & ->). done. }
  destruct op as [|selectedId|]; cbn [oddStep].
  - destruct (Hstart gs g) as (gs' & g' & -> & Hstreak & Hcount).
    do 4 eexists. split; [done|]. left. auto.
  - destruct (handleOddChoice_cases selectedId gs st)
      as [[[m ->] _]|(c & _ & _ & _ & _ & ->)].
    + do 4 eexists. split; [done|]. left. auto.
    + do 4 eexists. split; [done|]. right. exists c. by destruct c.
  - unfold Odd.restartOddGame.
    destruct (Hstart Odd.initOddGameState g) as (gs' & g' & Heq & Hstreak & Hcount).
    unfold Odd.initOddGameState in Heq. rewrite Heq.
    do 4 eexists. split; [done|]. left. auto.
Qed.

(** The invariant of the stats: the streak of the run is at most the best
    streak, and the right answers are at most the rounds. *)
Lemma recordRound_keeps_order correct streak0 st :
  (streak0 ≤ bestStreak (stats st))%nat →
  (totalCorrectRounds (stats st) ≤ totalRounds (stats st))%nat →
  let st' := recordRound correct (if correct then (streak0 + 1)%nat else streak0) st in
  ((if correct then (streak0 + 1)%nat else 0%nat) ≤ bestStreak (stats st'))%nat ∧
  (totalCorrectRounds (stats st') ≤ totalRounds (stats st'))%nat.
Proof.
  intros Hs Hc st'. subst st'.
  destruct (recordRound_stats correct (if correct then (streak0 + 1)%nat else streak0) st)
    as (H1 & H2 & H3).
  rewrite H1, H2, H3. destruct correct; lia.
Qed.

(** X15. In every run of either engine, from every state in which the
    streak is at most [bestStreak] and [totalCorrectRounds] is at most
    [totalRounds], both stay so: the streak shown never exceeds the best
    streak shown. *)
Theorem run_keeps_stats_order :
  (∀ rev settings allChars ops (w : ClassicWorld),
     (Classic.streak w.1.1 ≤ bestStreak (stats w.1.2))%nat ∧
     (totalCorrectRounds (stats w.1.2) ≤ totalRounds (stats w.1.2))%nat →
     (Classic.streak (classicRun rev settings allChars ops w).1.1.1
        ≤ bestStreak (stats (classicRun rev settings allChars ops w).1.1.2))%nat ∧
     (totalCorrectRounds (stats (classicRun rev settings allChars ops w).1.1.2)
        ≤ totalRounds (stats (classicRun rev settings allChars ops w).1.1.2))%nat) ∧
  (∀ rev settings allChars ops (w : OddWorld),
     (Odd.streak w.1.1 ≤ bestStreak (stats w.1.2))%nat ∧
     (totalCorrectRounds (stats w.1.2) ≤ totalRounds (stats w.1.2))%nat →
     (Odd.streak (oddRun rev settings allChars ops w).1.1.1
        ≤ bestStreak (stats (oddRun rev settings allChars ops w).1.1.2))%nat ∧
     (totalCorrectRounds (stats (oddRun rev settings allChars ops w).1.1.2)
        ≤ totalRounds (stats (oddRun rev settings allChars ops w).1.1.2))%nat).
Proof.
  split; intros rev settings allChars ops w.
  - apply (runWith_invariant (classicStep rev settings allChars)
             (λ w : ClassicWorld,
                (Classic.streak w.1.1 ≤ bestStreak (stats w.1.2))%nat ∧
                (totalCorrectRounds (stats w.1.2) ≤ totalRounds (stats w.1.2))%nat)).
    clear. intros op [[gs st] g] [Hs Hc]. simpl in Hs, Hc.
    destruct (classicStep_stats rev settings allChars op gs st g)
      as (gs' & st' & g' & evs & -> & [(_ & -> & Hk)|(c & _ & -> & Hk)]); simpl.
    + split; [|done]. destruct Hk as [-> | ->]; [done | lia].
    + rewrite Hk. by apply recordRound_keeps_order.
  - apply (runWith_invariant (oddStep rev settings allChars)
             (λ w : OddWorld,
                (Odd.streak w.1.1 ≤ bestStreak (stats w.1.2))%nat ∧
                (totalCorrectRounds (stats w.1.2) ≤ totalRounds (stats w.1.2))%nat)).
    clear. intros op [[gs st] g] [Hs Hc]. simpl in Hs, Hc.
    destruct (oddStep_stats rev settings allChars op gs st g)
      as (gs' & st' & g' & evs & -> & [(_ & -> & Hk)|(c & _ & -> & Hk)]); simpl.
    + split; [|done]. destruct Hk as [-> | ->]; [done | lia].
    + rewrite Hk. by apply recordRound_keeps_order.
Qed.

Lemma run_keeps_stats_order_witness :
  (Classic.streak rightThenWrongRun.1.1.1 ≤ bestStreak (stats rightThenWrongRun.1.1.2))%nat ∧
  (totalCorrectRounds (stats rightThenWrongRun.1.1.2)
     ≤ totalRounds (stats rightThenWrongRun.1.1.2))%nat.
Proof.
  apply (proj1 run_keeps_stats_order RevAlt defaultSettings
           [azathoth; featherine; goku; saitama]
           [OpRestart; OpChoice (id azathoth); OpStart; OpChoice (id saitama)]
           (Classic.initGameState, emptyStats, countingRng)).
  split; vm_compute; lia.
Defined.

(** X16. Over every run of either engine [totalRounds] grows by exactly the
    number of rounds resolved in the run: starting a round, restarting and
    invalid choices never count. *)
Theorem run_counts_resolved_rounds :
  (∀ rev settings allChars ops (w : ClassicWorld),
     totalRounds (stats (classicRun rev settings allChars ops w).1.1.2)
     = (totalRounds (stats w.1.2)
        + resolvedCount (classicRun rev settings allChars ops w).2)%nat) ∧
  (∀ rev settings allChars ops (w : OddWorld),
     totalRounds (stats (oddRun rev settings allChars ops w).1.1.2)
     = (totalRounds (stats w.1.2)
        + resolvedCount (oddRun rev settings allChars ops w).2)%nat).
Proof.
  split; intros rev settings allChars ops w.
  - apply (runWith_counts (classicStep rev settings allChars)
             (λ w : ClassicWorld, totalRounds (stats w.1.2))).
    clear. intros op [[gs st] g].
    destruct (classicStep_stats rev settings allChars op gs st g)
      as (gs' & st' & g' & evs & -> & [(Hn & -> & _)|(c & Hn & -> & _)]);
      cbn [fst snd]; rewrite Hn; [lia|].
    by destruct (recordRound_stats c
                   (if c then (Classic.streak gs + 1)%nat else Classic.streak gs) st)
      as (-> & _).
  - apply (runWith_counts (oddStep rev settings allChars)
             (λ w : OddWorld, totalRounds (stats w.1.2))).
    clear. intros op [[gs st] g].
    destruct (oddStep_stats rev settings allChars op gs st g)
      as (gs' & st' & g' & evs & -> & [(Hn & -> & _)|(c & Hn & -> & _)]);
      cbn [fst snd]; rewrite Hn; [lia|].
    by destruct (recordRound_stats c
                   (if c then (Odd.streak gs + 1)%nat else Odd.streak gs) st)
      as (-> & _).
Qed.

(** ** When [startNewRound] is left by the exception *)

Lemma getTierIndex_off_or_on t : getTierIndex (Some t) = -1 ∨ 0 ≤ getTierIndex (Some t).
Proof.
  unfold getTierIndex, indexOf.
  destruct (indexOfFrom_bounds 0 TIER_ORDER t) as [?|?]; [by left | right; lia].
Qed.

Lemma candidatePairsOf_off_ladder tiers :
  Forall (λ t, getTierIndex (Some t) = -1) tiers →
  Classic.candidatePairsOf RevAlt false tiers = [].
Proof.
  induction 1 as [|tA rest HA Hrest IH]; cbn [Classic.candidatePairsOf]; [done|].
  rewrite IH, app_nil_r.
  assert (filter (λ tB, Classic.acceptsDistance RevAlt false (Classic.tierDistance tA tB) = true)
            rest = []) as ->; [|done].
  clear IH. induction Hrest as [|tB rest HB Hrest IH]; [done|].
  rewrite filter_cons_False; [done|].
  unfold Classic.acceptsDistance, Classic.tierDistance. rewrite HA, HB. done.
Qed.

Lemma candidatePairsOf_nil_off_ladder rev tiers :
  NoDup tiers → (2 ≤ length tiers)%nat →
  Classic.candidatePairsOf rev false tiers = [] →
  rev = RevAlt ∧ Forall (λ t, getTierIndex (Some t) = -1) tiers.
Proof.
  intros Hnd Hlen Hnil. destruct rev.
  { exfalso. revert Hnil. apply candidatePairsOf_nonempty; auto. }
  split; [done|]. apply Forall_forall. intros t Ht.
  assert (∃ t', t' ∈ tiers ∧ t ≠ t') as (t' & Ht' & Hne).
  { destruct tiers as [|a [|b rest]]; simpl in Hlen; try lia.
    apply NoDup_cons in Hnd as [Hab _].
    destruct (decide (t = a)) as [->|Hta].
    - exists b. split; [right; left|]. intros ->. apply Hab. left.
    - exists a. split; [left | done]. }
  destruct (Classic.acceptsDistance RevAlt false (Classic.tierDistance t t')) eqn:Hacc.
  { destruct (candidatePairsOf_complete RevAlt false tiers t t' Ht Ht' Hne Hacc) as [Hin|Hin];
      rewrite Hnil in Hin; by apply elem_of_nil in Hin. }
  unfold Classic.acceptsDistance, Classic.tierDistance in Hacc. apply Z.ltb_ge in Hacc.
  destruct (getTierIndex_off_or_on t) as [?|Hon]; [done|].
  exfalso. apply Hne. apply getTierIndex_inj; [done | lia].
Qed.

Lemma retryLoop_empty n groups gs g :
  Classic.retryLoop (S n) [] groups gs g = Threw (gs, {| draws := draws g; pos := S (pos g) |}).
Proof. reflexivity. Qed.

Lemma startNewRound_unfold rev settings allChars gs g :
  Classic.startNewRound rev settings allChars gs g =
  if (length (classicTiers settings allChars) <? 2)%nat then Returned (Classic.setPhase error gs, g)
  else if veryHardMode settings && (length (classicPairs rev settings allChars) =? 0)%nat
       then Returned (Classic.setPhase error gs, g)
       else Classic.retryLoop 40 (classicPairs rev settings allChars)
              (Classic.buildFilteredGroups settings allChars) gs g.
Proof. reflexivity. Qed.

(** X2. [startNewRound] is left by an exception in exactly one situation:
    the revision that asks for [distance > 0], normal mode, at least two
    tiers in the filtered pool, and none of them a label of the ladder (all
    have index -1, so no pair of tiers is a candidate and destructuring
    [candidatePairs[0]], which is [undefined], throws).  The state is then
    left as it was and [Math.random] has been called once. *)
Theorem startNewRound_throws_iff rev settings allChars gs g :
  ((∃ out, Classic.startNewRound rev settings allChars gs g = Threw out) ↔
   rev = RevAlt ∧ veryHardMode settings = false ∧
   (2 ≤ length (classicTiers settings allChars))%nat ∧
   Forall (λ t, getTierIndex (Some t) = -1) (classicTiers settings allChars)) ∧
  (∀ out, Classic.startNewRound rev settings allChars gs g = Threw out →
          out = (gs, {| draws := draws g; pos := S (pos g) |})).
Proof.
  assert (rev = RevAlt ∧ veryHardMode settings = false ∧
          (2 ≤ length (classicTiers settings allChars))%nat ∧
          Forall (λ t, getTierIndex (Some t) = -1) (classicTiers settings allChars) →
          Classic.startNewRound rev settings allChars gs g
          = Threw (gs, {| draws := draws g; pos := S (pos g) |})) as Hthrows.
  { intros (-> & Hvh & Hlen & Hoff). rewrite startNewRound_unfold.
    destruct (Nat.ltb_spec (length (classicTiers settings allChars)) 2); [lia|].
    unfold classicPairs. rewrite Hvh, candidatePairsOf_off_ladder by done.
    apply retryLoop_empty. }
  assert ((∃ out, Classic.startNewRound rev settings allChars gs g = Threw out) →
          rev = RevAlt ∧ veryHardMode settings = false ∧
          (2 ≤ length (classicTiers settings allChars))%nat ∧
          Forall (λ t, getTierIndex (Some t) = -1) (classicTiers settings allChars)) as Hcond.
  { intros [[gs' g'] Hs].
    pose proof (startNewRound_cases rev settings allChars gs g) as Hc. rewrite Hs in Hc.
    destruct Hc as (_ & Hvh & Hnil & Hlen). unfold classicPairs in Hnil. rewrite Hvh in Hnil.
    destruct (candidatePairsOf_nil_off_ladder rev _ (classicTiers_NoDup settings allChars)
                Hlen Hnil) as [-> Hoff].
    done. }
  split.
  - split; [done|]. intros Hc. rewrite (Hthrows Hc). eauto.
  - intros out Hs. rewrite (Hthrows (Hcond (ex_intro _ out Hs))) in Hs. congruence.
Qed.

(** ** The two-card page: ui.js on top of the engine *)

Lemma withEngine_start rev settings allChars gs g w :
  Classic.streak (Ui.gameState (Ui.withEngine w
                    (Classic.startNewRound rev settings allChars gs g)))
  = Classic.streak gs ∧
  Ui.statsStore (Ui.withEngine w (Classic.startNewRound rev settings allChars gs g))
  = Ui.statsStore w.
Proof.
  pose proof (startNewRound_cases rev settings allChars gs g) as Hc.
  destruct (Classic.startNewRound rev settings allChars gs g) as [[gs' g']|[gs' g']];
    cbn [Ui.withEngine Ui.gameState Ui.statsStore].
  - destruct Hc as [->|Hc]; [done|].
    by apply classicCommit_full in Hc as (l & r & -> & _).
  - by destruct Hc as [-> _].
Qed.

Lemma handle_keeps_page rev allChars st0 e w :
  firstRoundOnly st0 w → firstRoundOnly st0 (Ui.handle rev allChars e w).
Proof.
  unfold firstRoundOnly. intros (Hle & Hzero & Hbest & calls & Hcalls & Hall).
  assert (∀ settings' gs g (w1 : Ui.World),
            Ui.statsStore w1 = Ui.statsStore w → Classic.streak gs = 0%nat →
            firstRoundOnly st0
              (Ui.withEngine w1 (Classic.startNewRound rev settings' allChars gs g)))
    as Hrestart.
  { intros settings' gs g w1 Hst Hs. unfold firstRoundOnly.
    destruct (withEngine_start rev settings' allChars gs g w1) as [-> ->].
    rewrite Hst, Hs. split_and!; [lia | done | done |]. by exists calls. }
  destruct e as [side| | |veryHard customMode lightMode checkedSeries|];
    cbn [Ui.handle]; try (by apply Hrestart).
  unfold Ui.onCardClick.
  destruct (Classic.currentPair (Ui.gameState w)) as [[l r]|] eqn:Hpair;
    [|split_and!; [done..|by exists calls]].
  set (selectedId := match side with Ui.sideLeft => id l | Ui.sideRight => id r end).
  destruct (handleChoice_cases selectedId (Ui.gameState w) (Ui.statsStore w))
    as [[-> _]|(l' & r' & c & Hph & _ & _ & _ & ->)];
    cbn [Ui.gameState Ui.statsStore].
  { split_and!; [done..|by exists calls]. }
  rewrite (Hzero Hph).
  destruct (recordRound_stats c (if c then 1%nat else 0%nat) (Ui.statsStore w))
    as (_ & _ & Hb).
  unfold classicResolved. rewrite Hpair. cbn [Classic.streak Classic.phase].
  rewrite Hb, (Hzero Hph). split_and!.
  - destruct c; lia.
  - by destruct c.
  - destruct c; lia.
  - exists (calls ++ [(c, if c then 1%nat else 0%nat)]).
    cbn [recordRound recordRoundCalls]. rewrite Hcalls, <- app_assoc. split; [done|].
    apply Forall_app. split; [done|]. apply Forall_singleton. destruct c; simpl; lia.
Qed.

Lemma run_keeps_page rev allChars st0 events w :
  firstRoundOnly st0 w → firstRoundOnly st0 (Ui.run rev allChars events w).
Proof.
  unfold Ui.run. revert w. induction events as [|e events IH]; intros w Hinv; cbn [foldl].
  - done.
  - apply IH. by apply handle_keeps_page.
Qed.

(** X17. On the two-card page as ui.js wires it, the streak never exceeds
    1: the next-button and the restart-button both call [restartGame], so
    every round is the first of a new run.  From the load of the page
    ([showVsMode]) on, whatever is clicked, the streak is at most 1, every
    call of [recordRound] passes at most 1, and [bestStreak] does not rise
    above the larger of 1 and what it was. *)
Theorem classic_page_streak_at_most_one rev allChars events w :
  let w' := Ui.run rev allChars (Ui.ShowVs :: events) w in
  (Classic.streak (Ui.gameState w') ≤ 1)%nat ∧
  (bestStreak (stats (Ui.statsStore w')) ≤ bestStreak (stats (Ui.statsStore w)) `max` 1)%nat ∧
  ∃ calls, recordRoundCalls (Ui.statsStore w') = recordRoundCalls (Ui.statsStore w) ++ calls ∧
           Forall (λ c, (c.2 ≤ 1)%nat) calls.
Proof.
  intros w'. subst w'.
  assert (firstRoundOnly (Ui.statsStore w) (Ui.handle rev allChars Ui.ShowVs w)) as Hinit.
  { unfold firstRoundOnly. cbn [Ui.handle]. unfold Ui.showVsMode.
    destruct (withEngine_start rev (Ui.settings w) allChars Classic.initGameState
                (Ui.rng w) w) as [-> ->].
    cbn [Classic.initGameState Classic.streak].
    split_and!; [lia | done | lia |]. exists []. by rewrite app_nil_r. }
  apply (run_keeps_page rev allChars _ events) in Hinit.
  destruct Hinit as (? & _ & ? & ?). done.
Qed.

Lemma NoDup_fmap_eq {A B : Type} (f : A → B) (xs : list A) (x y : A) :
  NoDup (f <$> xs) → x ∈ xs → y ∈ xs → f x = f y → x = y.
Proof.
  intros Hnd [i Hi]%list_elem_of_lookup [j Hj]%list_elem_of_lookup Heq.
  assert (i = j) as ->; [|congruence].
  apply (NoDup_lookup (f <$> xs) i j (f x)); [done| |].
  - by rewrite list_lookup_fmap, Hi.
  - by rewrite list_lookup_fmap, Hj, Heq.
Qed.

(** X18. A click on a card of a round that [startNewRound] committed is
    judged by the tiers: when the two cards have different ids, the click is
    right exactly when the clicked card has the lower tier index; the streak
    grows by one or falls to 0, and the round is recorded once. *)
Theorem card_click_judged_by_tier rev settings allChars gs g gs' g' l r side st :
  Classic.startNewRound rev settings allChars gs g = Returned (gs', g') →
  Classic.phase gs' = inRound →
  Classic.currentPair gs' = Some (l, r) →
  id l ≠ id r →
  let w' := Ui.onCardClick side
              {| Ui.settings := settings; Ui.gameState := gs';
                 Ui.statsStore := st; Ui.rng := g' |} in
  let stronger :=
    match side with
    | Ui.sideLeft => getTierIndex (highestTier l) <? getTierIndex (highestTier r)
    | Ui.sideRight => getTierIndex (highestTier r) <? getTierIndex (highestTier l)
    end in
  Classic.phase (Ui.gameState w') = (if stronger then afterCorrect else afterWrong) ∧
  Classic.streak (Ui.gameState w') = (if stronger then S (Classic.streak gs) else 0%nat) ∧
  Ui.statsStore w' =
    recordRound stronger (if stronger then S (Classic.streak gs) else Classic.streak gs) st.
Proof.
  intros Hstart Hph Hpair Hid.
  pose proof (startNewRound_cases rev settings allChars gs g) as Hc.
  rewrite Hstart in Hc. destruct Hc as [->|Hc]; [done|].
  apply classicCommit_full in Hc as (l0 & r0 & -> & _ & _ & Hne & _).
  cbn [Classic.currentPair] in Hpair. injection Hpair as -> ->.
  unfold Ui.onCardClick, Classic.handleChoice.
  cbn [Ui.gameState Ui.statsStore Classic.currentPair Classic.phase Classic.correctId
       Classic.streak].
  destruct (decide (inRound ≠ inRound)) as [?|_]; [done|].
  destruct side.
  - destruct (decide (id l = id l)) as [_|?]; [|done].
    destruct (Z.ltb_spec (getTierIndex (highestTier l)) (getTierIndex (highestTier r))).
    + rewrite bool_decide_eq_true_2 by done. done.
    + rewrite bool_decide_eq_false_2 by congruence. done.
  - destruct (decide (id l = id r)) as [?|_]; [done|].
    destruct (decide (id r = id r)) as [_|?]; [|done].
    destruct (Z.ltb_spec (getTierIndex (highestTier l)) (getTierIndex (highestTier r)));
      destruct (Z.ltb_spec (getTierIndex (highestTier r)) (getTierIndex (highestTier l)));
      try lia.
    + rewrite bool_decide_eq_false_2 by congruence. done.
    + rewrite bool_decide_eq_true_2 by done. done.
Qed.

Lemma card_click_judged_by_tier_witness :
  let w' := Ui.onCardClick Ui.sideRight
              {| Ui.settings := defaultSettings; Ui.gameState := twoPoolAfterStart;
                 Ui.statsStore := emptyStats;
                 Ui.rng := {| draws := draws countingRng; pos := 3 |} |} in
  Classic.phase (Ui.gameState w') = afterWrong ∧
  Classic.streak (Ui.gameState w') = 0%nat ∧
  Ui.statsStore w' = recordRound false 0 emptyStats.
Proof.
  apply (card_click_judged_by_tier RevAlt defaultSettings [goku; saitama]
           Classic.initGameState countingRng twoPoolAfterStart
           {| draws := draws countingRng; pos := 3 |} goku saitama Ui.sideRight emptyStats).
  - vm_compute. reflexivity.
  - reflexivity.
  - reflexivity.
  - vm_compute. discriminate.
Defined.

(** X19. A click on an option of a round that [startNewOddRound] committed
    is judged by the tiers: when the four options have different ids, the
    click is right exactly when the clicked option is the one whose tier is
    not the tier of the three; the streak grows by one or falls to 0, and
    the round is recorded once. *)
Theorem odd_click_judged_by_tier rev settings allChars gs g gs' g' index c st :
  Odd.startNewOddRound rev settings allChars gs g = Returned (gs', g') →
  Odd.phase gs' = inRound →
  NoDup (id <$> Odd.options gs') →
  Odd.options gs' !! index = Some c →
  ∃ tM,
    length (filter (λ x, highestTier x = Some tM) (Odd.options gs')) = 3%nat ∧
    let odd := bool_decide (highestTier c ≠ Some tM) in
    let out := Ui.onOddCardClick index gs' st in
    Odd.phase out.1 = (if odd then afterCorrect else afterWrong) ∧
    Odd.streak out.1 = (if odd then (Odd.streak gs + 1)%nat else 0%nat) ∧
    out.2 = recordRound odd (if odd then (Odd.streak gs + 1)%nat else Odd.streak gs) st.
Proof.
  intros Hstart Hph Hnd Hlook.
  destruct (startNewOddRound_cases rev settings allChars gs g) as (gs1 & g1 & Heq & Hc).
  rewrite Hstart in Heq. injection Heq as <- <-.
  destruct Hc as [->|Hc]; [done|].
  destruct Hc as (tM & tO & gM & gO & m1 & m2 & m3 & o & opts & HgM & HgO & Hne
                  & Hm1 & Hm2 & Hm3 & Ho & Hperm & _ & ->).
  cbn [Odd.options] in Hnd, Hlook.
  assert (∀ m, m ∈ gM → highestTier m = Some tM) as HtM.
  { intros m Hm. by destruct (groupByTier_members _ _ _ _ HgM Hm). }
  destruct (groupByTier_members _ _ _ _ HgO Ho) as [_ HtO].
  exists tM. split.
  { cbn [Odd.options]. rewrite Hperm. rewrite !filter_cons_True by auto.
    rewrite filter_cons_False; [done|]. rewrite HtO. congruence. }
  assert (c ∈ opts) as Hin by (by eapply list_elem_of_lookup_2).
  assert (o ∈ opts) as Hoin by (rewrite Hperm; do 3 right; left).
  assert (bool_decide (Some (id c) = Some (id o)) = bool_decide (highestTier c ≠ Some tM))
    as Hjudge.
  { apply bool_decide_ext. split.
    - intros [= Hid]. apply (NoDup_fmap_eq id opts c o Hnd Hin Hoin) in Hid as ->.
      rewrite HtO. congruence.
    - intros Htier. rewrite Hperm in Hin.
      repeat (apply elem_of_cons in Hin as [->|Hin]; [by rewrite HtM in Htier|]).
      apply elem_of_cons in Hin as [->|Hin]; [done|]. by apply elem_of_nil in Hin. }
  unfold Ui.onOddCardClick. cbn [Odd.options]. rewrite Hlook.
  destruct (handleOddChoice_cases (id c)
              {| Odd.phase := inRound; Odd.options := opts; Odd.oddId := Some (id o);
                 Odd.streak := Odd.streak gs;
                 Odd.usedCharacterKeys := Odd.usedCharacterKeys gs |} st)
    as [[_ Hbad]|(correct & _ & _ & _ & -> & ->)].
  - exfalso. cbn [Odd.phase Odd.options] in Hbad. destruct Hbad as [?|[Hlen|Hall]]; [done| |].
    + apply Hlen. by rewrite Hperm.
    + rewrite Forall_forall in Hall. by apply (Hall c Hin).
  - cbn [Odd.oddId Odd.streak fst snd]. rewrite Hjudge.
    unfold oddResolved. cbn [Odd.phase Odd.streak]. done.
Qed.

Lemma odd_click_judged_by_tier_witness :
  ∃ tM,
    length (filter (λ x, highestTier x = Some tM) (Odd.options oddRoundOfFour)) = 3%nat ∧
    let odd := bool_decide (highestTier saitama ≠ Some tM) in
    let out := Ui.onOddCardClick 0 oddRoundOfFour emptyStats in
    Odd.phase out.1 = (if odd then afterCorrect else afterWrong) ∧
    Odd.streak out.1
      = (if odd then (Odd.streak Odd.initOddGameState + 1)%nat else 0%nat) ∧
    out.2 = recordRound odd (if odd then (Odd.streak Odd.initOddGameState + 1)%nat
                             else Odd.streak Odd.initOddGameState) emptyStats.
Proof.
  apply (odd_click_judged_by_tier RevAlt defaultSettings [goku; vegeta; frieza; saitama]
           Odd.initOddGameState countingRng oddRoundOfFour
           {| draws := draws countingRng; pos := 9 |} 0%nat saitama emptyStats).
  - vm_compute. reflexivity.
  - reflexivity.
  - apply (bool_decide_unpack _). vm_compute. exact I.
  - reflexivity.
Defined.

(** ** The helpers of the two engines *)

(** X20. [pickCharacterFromGroup] never returns a used character: it returns
    [null], without calling [Math.random], exactly when the group is missing
    or every member's key is used; otherwise it returns a member whose key is
    unused, after one call of [Math.random]. *)
Theorem pickCharacterFromGroup_spec used group g :
  match Classic.pickCharacterFromGroup used group g with
  | (None, g') =>
      g' = g ∧ Forall (λ c, getCharacterKey c ∈ used) (default [] group)
  | (Some c, g') =>
      c ∈ default [] group ∧ (getCharacterKey c ∉ used) ∧
      g' = {| draws := draws g; pos := S (pos g) |}
  end.
Proof.
  unfold Classic.pickCharacterFromGroup.
  destruct group as [grp|]; cbn [default from_option Datatypes.id]; [|by split].
  assert (filter (λ c, getCharacterKey c ∉ used) grp = [] →
          Forall (λ c, getCharacterKey c ∈ used) grp) as Hall.
  { intros Hnil. apply Forall_forall. intros c Hc.
    destruct (decide (getCharacterKey c ∈ used)) as [?|Hn]; [done|].
    assert (c ∈ filter (λ c, getCharacterKey c ∉ used) grp) as Hin
      by (by apply list_elem_of_filter).
    rewrite Hnil in Hin. by apply elem_of_nil in Hin. }
  destruct (Nat.eqb_spec (length grp) 0) as [Hz|Hz].
  { split; [done|]. by apply nil_length_inv in Hz as ->. }
  destruct (Nat.eqb_spec (length (filter (λ c, getCharacterKey c ∉ used) grp)) 0) as [Hf|Hf].
  { split; [done|]. apply Hall. by apply nil_length_inv. }
  destruct (randomIndex (length (filter (λ c, getCharacterKey c ∉ used) grp)) g)
    as [i g'] eqn:Hr.
  pose proof (randomIndex_lt (length (filter (λ c, getCharacterKey c ∉ used) grp)) g) as Hlt.
  rewrite Hr in Hlt. cbn [fst] in Hlt.
  destruct (lookup_lt_is_Some_2 (filter (λ c, getCharacterKey c ∉ used) grp) i) as [c Hc];
    [lia|].
  rewrite Hc. apply list_elem_of_lookup_2, list_elem_of_filter in Hc as [Hfresh Hin].
  split; [done|]. split; [done|]. unfold randomIndex in Hr. by injection Hr as _ <-.
Qed.

Lemma pickLoop_spec count copy picked g :
  (count ≤ length copy)%nat →
  ∃ new, (Odd.pickLoop count copy picked g).1 = picked ++ new ∧
         length new = count ∧ new ⊆+ copy ∧
         pos (Odd.pickLoop count copy picked g).2 = (pos g + count)%nat.
Proof.
  revert copy picked g. induction count as [|n IH]; intros copy picked g Hlen;
    cbn [Odd.pickLoop].
  { exists []. rewrite app_nil_r. split_and!; [done | done | apply submseteq_nil_l |].
    cbn [snd]. lia. }
  destruct (randomIndex (length copy) g) as [idx g'] eqn:Hr.
  pose proof (randomIndex_lt (length copy) g) as Hlt. rewrite Hr in Hlt. cbn [fst] in Hlt.
  assert (pos g' = S (pos g)) as Hpos.
  { unfold randomIndex in Hr. by injection Hr as _ <-. }
  destruct (lookup_lt_is_Some_2 copy idx) as [c Hc]; [lia|]. rewrite Hc.
  destruct (IH (delete idx copy) (picked ++ [c]) g') as (new & Heq & Hn & Hsub & Hp).
  { rewrite length_delete by eauto. lia. }
  exists (c :: new). rewrite Heq, <- app_assoc. split_and!; [done | simpl; lia | | lia].
  rewrite (delete_Permutation copy idx c Hc). by apply submseteq_skip.
Qed.

(** X21. [pickRandomDistinct] returns [null], without calling
    [Math.random], exactly when the array is shorter than [count];
    otherwise it returns [count] elements taken from different positions of
    the array (a sub-multiset of it), after [count] calls of
    [Math.random]. *)
Theorem pickRandomDistinct_spec arr count g :
  match Odd.pickRandomDistinct arr count g with
  | (None, g') => (length arr < count)%nat ∧ g' = g
  | (Some picked, g') =>
      (count ≤ length arr)%nat ∧ length picked = count ∧ picked ⊆+ arr ∧
      pos g' = (pos g + count)%nat
  end.
Proof.
  unfold Odd.pickRandomDistinct.
  destruct (Nat.ltb_spec (length arr) count) as [Hlt|Hge]; [done|].
  destruct (pickLoop_spec count arr [] g Hge) as (new & Heq & Hn & Hsub & Hp).
  destruct (Odd.pickLoop count arr [] g) as [picked g']. cbn [fst snd] in Heq, Hp.
  rewrite app_nil_l in Heq. subst picked. done.
Qed.

Lemma shuffleLoop_pos i a g : pos (Odd.shuffleLoop i a g).2 = (pos g + i)%nat.
Proof.
  revert a g. induction i as [|i IH]; intros a g; cbn [Odd.shuffleLoop]; [cbn [snd]; lia|].
  destruct (randomIndex (S i + 1) g) as [j g'] eqn:Hr.
  rewrite IH. unfold randomIndex in Hr. injection Hr as _ <-. cbn [pos]. lia.
Qed.

(** X22. [shuffleArray] returns a permutation of its argument, whatever
    [Math.random] yields, and calls it once for every position but the
    first. *)
Theorem shuffleArray_spec arr g :
  (Odd.shuffleArray arr g).1 ≡ₚ arr ∧
  length (Odd.shuffleArray arr g).1 = length arr ∧
  pos (Odd.shuffleArray arr g).2 = (pos g + (length arr - 1))%nat.
Proof.
  unfold Odd.shuffleArray.
  pose proof (shuffleLoop_Permutation (length arr - 1) arr g) as Hperm.
  split; [done|]. split; [by rewrite Hperm|]. apply shuffleLoop_pos.
Qed.

Lemma uniqueByKey_sublist seen cs : Odd.uniqueByKey seen cs `sublist_of` cs.
Proof.
  revert seen. induction cs as [|c cs IH]; intros seen; cbn [Odd.uniqueByKey]; [done|].
  destruct (decide (getCharacterKey c ∈ seen)).
  - by apply sublist_cons.
  - by apply sublist_skip.
Qed.

Lemma uniqueByKey_keys seen cs k :
  k ∈ keysOf (Odd.uniqueByKey seen cs) ↔ k ∈ keysOf cs ∧ k ∉ seen.
Proof.
  unfold keysOf. revert seen. induction cs as [|c cs IH]; intros seen;
    cbn [Odd.uniqueByKey fmap list_fmap].
  { split; [by intros ?%elem_of_nil | by intros [?%elem_of_nil _]]. }
  destruct (decide (getCharacterKey c ∈ seen)) as [Hs|Hs].
  - rewrite IH, elem_of_cons. split; [intros [? ?]; auto|].
    intros [[->|?] ?]; [done | auto].
  - cbn [fmap list_fmap]. rewrite !elem_of_cons, IH, elem_of_union, elem_of_singleton.
    split.
    + intros [->|[? Hn]]; [auto|]. split; [auto|]. intros ?. apply Hn. auto.
    + intros [[->|?] Hn]; [auto|].
      destruct (decide (k = getCharacterKey c)) as [->|?]; [auto|].
      right. split; [done|]. intros [?|?]; done.
Qed.

(** The characters that the two closing steps of [buildFilteredPoolForOdd]
    keep: those whose key is not used, not yet seen, and carried by no earlier
    character of the data. *)
Lemma uniqueByKey_first (used seen : gset string) (data : list Character) (c : Character) :
  c ∈ Odd.uniqueByKey seen (filter (λ d, getCharacterKey d ∉ used) data) ↔
  (getCharacterKey c ∉ used) ∧ (getCharacterKey c ∉ seen) ∧
  ∃ pre post, data = pre ++ c :: post ∧
              Forall (λ d, getCharacterKey d ≠ getCharacterKey c) pre.
Proof.
  revert seen. induction data as [|d data IH]; intros seen.
  { rewrite filter_nil. cbn [Odd.uniqueByKey]. split; [by intros ?%elem_of_nil|].
    intros (_ & _ & pre & post & Heq & _). by destruct pre. }
  assert (∀ seen',
            (getCharacterKey d ∈ used ∨ getCharacterKey d ∈ seen') →
            (∀ k, k ∈ seen ↔ k ∈ seen') →
            c ∈ Odd.uniqueByKey seen' (filter (λ d, getCharacterKey d ∉ used) data) ↔
            (getCharacterKey c ∉ used) ∧ (getCharacterKey c ∉ seen) ∧
            ∃ pre post, d :: data = pre ++ c :: post ∧
                        Forall (λ d, getCharacterKey d ≠ getCharacterKey c) pre) as Hskip.
  { intros seen' Hd Hseen. rewrite IH. split.
    - intros (Hu & Hs & pre & post & -> & Hpre). split; [done|].
      split; [by rewrite Hseen|]. exists (d :: pre), post. split; [done|].
      apply Forall_cons. split; [|done]. intros Heq. rewrite Heq in Hd.
      by destruct Hd.
    - intros (Hu & Hs & pre & post & Heq & Hpre). split; [done|].
      split; [by rewrite <- Hseen|]. destruct pre as [|d' pre].
      + injection Heq as -> ->. rewrite Hseen in Hs. by destruct Hd.
      + injection Heq as -> ->. apply Forall_cons in Hpre as [_ Hpre]. eauto. }
  rewrite filter_cons. destruct (decide (getCharacterKey d ∉ used)) as [Hdu|Hdu].
  - cbn [Odd.uniqueByKey]. destruct (decide (getCharacterKey d ∈ seen)) as [Hds|Hds].
    { apply Hskip; [by right | done]. }
    rewrite elem_of_cons, IH. split.
    + intros [->|(Hu & Hs & pre & post & -> & Hpre)].
      * split; [done|]. split; [done|]. exists [], data. split; [done | constructor].
      * apply not_elem_of_union in Hs as [Hne Hs]. split; [done|]. split; [done|].
        exists (d :: pre), post. split; [done|]. apply Forall_cons. split; [|done].
        intros Heq. apply Hne. by apply elem_of_singleton.
    + intros (Hu & Hs & pre & post & Heq & Hpre). destruct pre as [|d' pre].
      * injection Heq as -> ->. by left.
      * injection Heq as -> ->. apply Forall_cons in Hpre as [Hne Hpre].
        right. split; [done|]. split; [|eauto].
        apply not_elem_of_union. split; [|done]. intros Heq%elem_of_singleton. done.
  - apply Hskip; [|done]. left. by apply dec_stable.
Qed.

(** X23. The pool of the revision of [buildFilteredPoolForOdd] that removes
    duplicates holds exactly one character for every identity key that is
    unused among the filtered characters, and it is the first of that key:
    the keys of the pool are pairwise distinct, they are the unused keys of
    the filtered characters, the pool keeps the order of the data, and a
    character is in the pool exactly when its key is unused and no earlier
    character of the filtered data has the same key. *)
Theorem buildFilteredPoolForOdd_one_per_key settings allChars used :
  let pool := Odd.buildFilteredPoolForOdd RevAlt settings allChars used in
  NoDup (keysOf pool) ∧
  (∀ k, k ∈ keysOf pool ↔ k ∈ keysOf (applyModeFilters settings allChars) ∧ k ∉ used) ∧
  pool `sublist_of` applyModeFilters settings allChars ∧
  (∀ c, c ∈ pool ↔
        (getCharacterKey c ∉ used) ∧
        ∃ pre post, applyModeFilters settings allChars = pre ++ c :: post ∧
                    Forall (λ d, getCharacterKey d ≠ getCharacterKey c) pre).
Proof.
  unfold Odd.buildFilteredPoolForOdd. split_and!.
  - apply uniqueByKey_NoDup.
  - intros k. rewrite uniqueByKey_keys. unfold keysOf.
    rewrite !list_elem_of_fmap. split.
    + intros [(c & -> & [Hn Hc]%list_elem_of_filter) _]. eauto.
    + intros [(c & -> & Hc) Hn]. split; [|by intros ?%elem_of_empty].
      exists c. split; [done|]. by apply list_elem_of_filter.
  - etrans; [apply uniqueByKey_sublist|]. apply sublist_filter.
  - intros c. rewrite uniqueByKey_first. split.
    + intros (? & _ & ?). done.
    + intros (? & ?). split; [done|]. split; [by intros ?%elem_of_empty | done].
Qed.

Lemma foldl_groupStep_get pool acc t :
  truthy (Some t) = true →
  groupsGet (foldl groupStep acc pool) t =
  match filter (λ c, highestTier c = Some t) pool with
  | [] => groupsGet acc t
  | f => Some (default [] (groupsGet acc t) ++ f)
  end.
Proof.
  intros Ht. revert acc. induction pool as [|c pool IH]; intros acc; cbn [foldl]; [done|].
  rewrite IH. unfold groupStep.
  destruct (highestTier c) as [key|] eqn:Hkey; [|by rewrite filter_cons_False by congruence].
  destruct (decide (key = t)) as [->|Hne].
  - rewrite Ht, filter_cons_True by done. rewrite groupsGet_push.
    destruct (decide (t = t)) as [_|?]; [|done]. cbn [default from_option Datatypes.id].
    destruct (filter (λ c, highestTier c = Some t) pool); [done|].
    by rewrite <- app_assoc.
  - rewrite filter_cons_False by congruence.
    destruct (truthy (Some key)); [|done]. rewrite groupsGet_push.
    by destruct (decide (key = t)).
Qed.

Lemma foldl_groupStep_get_falsy pool acc t :
  truthy (Some t) = false →
  groupsGet (foldl groupStep acc pool) t = groupsGet acc t.
Proof.
  intros Ht. revert acc. induction pool as [|c pool IH]; intros acc; cbn [foldl]; [done|].
  rewrite IH. unfold groupStep.
  destruct (highestTier c) as [key|]; [|done].
  destruct (truthy (Some key)) eqn:Hk; [|done]. rewrite groupsGet_push.
  destruct (decide (key = t)) as [->|?]; [congruence | done].
Qed.

(** X24. The grouping loop of [buildFilteredGroups] and of
    [startNewOddRound]: the group of a tier is the list of the characters of
    the pool with that tier, in the order of the pool; a tier that no
    character has, and the empty label, have no group; and every key of the
    [Map] occurs once. *)
Theorem groupByTier_spec pool t :
  groupsGet (groupByTier pool) t =
    match filter (λ c, highestTier c = Some t) pool with
    | [] => None
    | f => if truthy (Some t) then Some f else None
    end ∧
  NoDup (groupsKeys (groupByTier pool)).
Proof.
  unfold groupByTier. split.
  - destruct (truthy (Some t)) eqn:Ht.
    + by rewrite foldl_groupStep_get.
    + rewrite foldl_groupStep_get_falsy by done.
      by destruct (filter (λ c, highestTier c = Some t) pool).
  - apply foldl_groupStep_keys. constructor.
Qed.

(** ** When an Odd-One-Out round is offered *)

Lemma group_is_filter pool t grp :
  groupsGet (groupByTier pool) t = Some grp →
  grp = filter (λ c, highestTier c = Some t) pool.
Proof.
  unfold groupByTier. destruct (truthy (Some t)) eqn:Ht.
  - rewrite foldl_groupStep_get by done. cbn [groupsGet default from_option Datatypes.id].
    destruct (filter (λ c, highestTier c = Some t) pool); [done|].
    rewrite app_nil_l. congruence.
  - by rewrite foldl_groupStep_get_falsy.
Qed.

Lemma groupSize_Some groups t :
  (1 ≤ Odd.groupSize groups t)%nat →
  ∃ grp, groupsGet groups t = Some grp ∧ length grp = Odd.groupSize groups t.
Proof.
  unfold Odd.groupSize. destruct (groupsGet groups t) as [grp|];
    cbn [default from_option Datatypes.id length]; [eauto | lia].
Qed.

Lemma filter_two_tiers pool tM tO :
  tO ≠ tM →
  (length (filter (λ c, highestTier c = Some tM) pool)
   + length (filter (λ c, highestTier c = Some tO) pool) ≤ length pool)%nat.
Proof.
  intros Hne. induction pool as [|c pool IH]; [done|].
  rewrite !filter_cons.
  destruct (decide (highestTier c = Some tM)) as [HM|?];
    destruct (decide (highestTier c = Some tO)) as [HO|?]; cbn [length]; try lia.
  congruence.
Qed.

Lemma two_elements_length {A : Type} (l : list A) x y :
  x ∈ l → y ∈ l → x ≠ y → (2 ≤ length l)%nat.
Proof.
  destruct l as [|a [|b l]]; cbn [length]; [|intros Hx Hy|lia].
  - by intros ?%elem_of_nil.
  - apply list_elem_of_singleton in Hx, Hy. congruence.
Qed.

Lemma uniqueByKey_id seen cs :
  NoDup (keysOf cs) → (∀ c, c ∈ cs → getCharacterKey c ∉ seen) →
  Odd.uniqueByKey seen cs = cs.
Proof.
  unfold keysOf. revert seen. induction cs as [|c cs IH]; intros seen Hnd Hfresh;
    cbn [Odd.uniqueByKey]; [done|].
  cbn [fmap list_fmap] in Hnd. apply NoDup_cons in Hnd as [Hc Hnd].
  destruct (decide (getCharacterKey c ∈ seen)) as [Hin|_].
  { exfalso. apply (Hfresh c); [left | done]. }
  f_equal. apply IH; [done|]. intros c' Hc' [Hk|Hk]%elem_of_union.
  - apply elem_of_singleton in Hk. apply Hc. rewrite <- Hk.
    apply list_elem_of_fmap. eauto.
  - apply (Hfresh c'); [by right | done].
Qed.

Lemma pickRandomDistinct_enough arr count g :
  (count ≤ length arr)%nat →
  ∃ picked g', Odd.pickRandomDistinct arr count g = (Some picked, g') ∧
               length picked = count ∧ picked ⊆+ arr.
Proof.
  intros Hge. unfold Odd.pickRandomDistinct.
  destruct (Nat.ltb_spec (length arr) count) as [Hlt|_]; [lia|].
  destruct (pickLoop_spec count arr [] g Hge) as (new & Heq & Hn & Hsub & _).
  destruct (Odd.pickLoop count arr [] g) as [picked g']. cbn [fst] in Heq.
  rewrite app_nil_l in Heq. subst picked. eauto.
Qed.

Lemma submseteq_NoDup_keep {A : Type} (l k : list A) : l ⊆+ k → NoDup k → NoDup l.
Proof.
  intros [k' Hk]%submseteq_Permutation Hnd. rewrite Hk in Hnd.
  by apply NoDup_app in Hnd as [? _].
Qed.

Lemma startNewOddRound_possible rev settings allChars gs g :
  oddRoundPossible
    (Odd.buildFilteredPoolForOdd rev settings allChars (Odd.usedCharacterKeys gs)) →
  ∃ gs' g', Odd.startNewOddRound rev settings allChars gs g = Returned (gs', g') ∧
            Odd.phase gs' = inRound.
Proof.
  unfold Odd.startNewOddRound, oddRoundPossible.
  set (pool := Odd.buildFilteredPoolForOdd rev settings allChars (Odd.usedCharacterKeys gs)).
  set (groups := groupByTier pool).
  intros (tM0 & tO0 & Hne0 & H3 & H1).
  destruct (groupSize_Some groups tM0) as (gM0 & HgM0 & HlenM0); [lia|].
  destruct (groupSize_Some groups tO0) as (gO0 & HgO0 & HlenO0); [lia|].
  destruct (Nat.ltb_spec (length pool) 4) as [Hshort|_].
  { exfalso. pose proof (filter_two_tiers pool tM0 tO0 Hne0) as Hsum.
    rewrite <- (group_is_filter pool tM0 gM0 HgM0) in Hsum.
    rewrite <- (group_is_filter pool tO0 gO0 HgO0) in Hsum. lia. }
  assert (tM0 ∈ groupsKeys groups) as HkM0 by (apply groupsGet_keys; eauto).
  assert (tO0 ∈ groupsKeys groups) as HkO0 by (apply groupsGet_keys; eauto).
  destruct (Nat.ltb_spec (length (groupsKeys groups)) 2) as [Hshort|_].
  { exfalso. pose proof (two_elements_length _ _ _ HkO0 HkM0 Hne0). lia. }
  set (majors := filter _ (groupsKeys groups)).
  assert (tM0 ∈ majors) as HinM0.
  { apply list_elem_of_filter. split; [|done]. split; [done|].
    apply Exists_exists. exists tO0. auto. }
  destruct (Nat.eqb_spec (length majors) 0) as [Hz|_].
  { apply nil_length_inv in Hz. rewrite Hz in HinM0. by apply elem_of_nil in HinM0. }
  destruct (randomIndex (length majors) g) as [i g1] eqn:Hi.
  destruct (randomIndex_lookup majors g) as [tM HtM].
  { intros Hnil. rewrite Hnil in HinM0. by apply elem_of_nil in HinM0. }
  rewrite Hi in HtM. cbn [fst] in HtM. rewrite HtM. cbn [mbind option_bind].
  apply list_elem_of_lookup_2, list_elem_of_filter in HtM as [[HsizeM Hother] HkM].
  destruct (groupSize_Some groups tM) as (gM & HgM & HlenM); [lia|].
  rewrite HgM.
  destruct (Nat.ltb_spec (length gM) 3) as [?|_]; [lia|].
  destruct (pickRandomDistinct_enough gM 3 g1) as (mc & g2 & -> & Hmc & Hsub); [lia|].
  destruct (Nat.ltb_spec (length mc) 3) as [?|_]; [lia|].
  set (others := filter _ (groupsKeys groups)).
  apply Exists_exists in Hother as (tO1 & HkO1 & HneO1 & HsizeO1).
  assert (tO1 ∈ others) as HinO1.
  { apply list_elem_of_filter. split; [|done]. split; [congruence | lia]. }
  destruct (Nat.eqb_spec (length others) 0) as [Hz|_].
  { apply nil_length_inv in Hz. rewrite Hz in HinO1. by apply elem_of_nil in HinO1. }
  destruct (randomIndex (length others) g2) as [j g3] eqn:Hj.
  destruct (randomIndex_lookup others g2) as [tO HtO].
  { intros Hnil. rewrite Hnil in HinO1. by apply elem_of_nil in HinO1. }
  rewrite Hj in HtO. cbn [fst] in HtO. rewrite HtO. cbn [mbind option_bind].
  apply list_elem_of_lookup_2, list_elem_of_filter in HtO as [[HneO HsizeO] HkO].
  destruct (groupSize_Some groups tO) as (gO & HgO & HlenO); [lia|].
  rewrite HgO. cbn [default from_option Datatypes.id].
  destruct (Nat.eqb_spec (length gO) 0) as [?|_]; [lia|].
  destruct (randomIndex (length gO) g3) as [k g4] eqn:Hk.
  destruct (randomIndex_lookup gO g3) as [o Ho].
  { intros Hnil. rewrite Hnil in HlenO. cbn [length] in HlenO. lia. }
  rewrite Hk in Ho. cbn [fst] in Ho. rewrite Ho.
  pose proof (shuffleArray_Permutation (mc ++ [o]) g4) as Hperm.
  destruct (Odd.shuffleArray (mc ++ [o]) g4) as [opts g5]. cbn [fst] in Hperm.
  apply list_elem_of_lookup_2 in Ho.
  destruct rev; [by do 2 eexists|].
  assert (Odd.uniqueByKey ∅ opts = opts) as ->.
  { apply uniqueByKey_id; [|by intros ? _ ?%elem_of_empty].
    assert (NoDup (keysOf pool)) as Hpool by apply uniqueByKey_NoDup.
    pose proof (group_is_filter pool tM gM HgM) as HfM.
    pose proof (group_is_filter pool tO gO HgO) as HfO.
    assert (mc ⊆+ pool) as Hmcpool.
    { etrans; [done|]. rewrite HfM. apply sublist_submseteq, sublist_filter. }
    unfold keysOf. rewrite Hperm, fmap_app. apply NoDup_app. split_and!.
    - apply (submseteq_NoDup_keep _ (keysOf pool)); [|done]. by apply fmap_submseteq.
    - intros key (m & -> & Hm)%list_elem_of_fmap Hko.
      cbn [fmap list_fmap] in Hko. apply list_elem_of_singleton in Hko.
      assert (m ∈ gM) as HmM by (by eapply elem_of_submseteq).
      rewrite HfM in HmM. apply list_elem_of_filter in HmM as [HtierM Hmpool].
      rewrite HfO in Ho. apply list_elem_of_filter in Ho as [HtierO Hopool].
      apply (NoDup_fmap_eq getCharacterKey pool m o Hpool Hmpool Hopool) in Hko.
      subst m. congruence.
    - apply NoDup_singleton. }
  destruct (Nat.ltb_spec (length opts) 4) as [Hlt|_]; [|by do 2 eexists].
  apply Permutation_length in Hperm. rewrite length_app in Hperm. cbn [length] in Hperm. lia.
Qed.

(** X25. [startNewOddRound] offers a round exactly when one can be built:
    it ends in phase [inRound] if and only if, among the characters of the
    pool, some tier has three and another tier has one.  None of the later
    guards of the function, and in the revision that removes duplicates the
    closing check of the four options, ever turns such a round down. *)
Theorem odd_round_available_iff rev settings allChars gs g :
  (∃ gs' g', Odd.startNewOddRound rev settings allChars gs g = Returned (gs', g') ∧
             Odd.phase gs' = inRound) ↔
  oddRoundPossible
    (Odd.buildFilteredPoolForOdd rev settings allChars (Odd.usedCharacterKeys gs)).
Proof.
  split; [|apply startNewOddRound_possible].
  intros (gs' & g' & Hs & Hph). revert Hs.
  unfold Odd.startNewOddRound, oddRoundPossible.
  set (pool := Odd.buildFilteredPoolForOdd rev settings allChars (Odd.usedCharacterKeys gs)).
  set (groups := groupByTier pool).
  destruct (length pool <? 4)%nat; [by intros [= <- <-]|].
  destruct (length (groupsKeys groups) <? 2)%nat; [by intros [= <- <-]|].
  set (majors := filter _ (groupsKeys groups)).
  destruct (Nat.eqb_spec (length majors) 0) as [_|Hz]; [by intros [= <- <-]|].
  intros _. destruct majors as [|tM majors'] eqn:Hmaj; [done|].
  assert (tM ∈ majors) as Hin by (rewrite Hmaj; left).
  apply list_elem_of_filter in Hin as [[Hsize Hother] _].
  apply Exists_exists in Hother as (tO & _ & Hne & HsizeO).
  exists tM, tO. done.
Qed.

(** X26. [onApplySettings] starts a new run under the settings applied:
    the streak is 0, no key is used, the stats are untouched, the series
    checked count only when the custom toggle is on, and whenever a pair is
    on the page afterwards, both cards are characters of the data that pass
    the filters just applied. *)
Theorem apply_settings_restarts_with_filters
    rev allChars veryHard custom light checkedSeries w :
  let w' := Ui.onApplySettings rev allChars veryHard custom light checkedSeries w in
  Classic.streak (Ui.gameState w') = 0%nat ∧
  Classic.usedCharacterKeys (Ui.gameState w') = ∅ ∧
  Ui.statsStore w' = Ui.statsStore w ∧
  Ui.settings w' = {| veryHardMode := veryHard; customMode := custom;
                      customSeries := (if custom then checkedSeries else []);
                      lightMode := light |} ∧
  ∀ l r, Classic.currentPair (Ui.gameState w') = Some (l, r) →
         Forall (λ c, c ∈ allChars ∧
                      (veryHard = true → highestTier c ≠ Some "Tier 0") ∧
                      (custom = true → checkedSeries ≠ [] → origin c ∈ checkedSeries))
                [l; r].
Proof.
  unfold Ui.onApplySettings, Ui.restartAndRenderNewRound, Classic.restartGame.
  cbn [Ui.settings Ui.gameState Ui.statsStore Ui.rng].
  set (settings' := {| veryHardMode := veryHard; customMode := custom;
                       customSeries := (if custom then checkedSeries else []);
                       lightMode := light |}).
  pose proof (startNewRound_cases rev settings' allChars Classic.initGameState (Ui.rng w))
    as Hc.
  unfold Classic.initGameState in Hc.
  destruct (Classic.startNewRound rev settings' allChars _ (Ui.rng w))
    as [[gs' g']|[gs' g']]; cbn [Ui.withEngine Ui.settings Ui.gameState Ui.statsStore].
  - destruct Hc as [->|Hc]; [by split_and!|].
    apply classicCommit_full in Hc as (l & r & -> & _ & _ & _ & Hl & Hr).
    split_and!; try done. intros l' r' [= <- <-].
    apply applyModeFilters_elem in Hl as (? & HvhL & HcL).
    apply applyModeFilters_elem in Hr as (? & HvhR & HcR).
    unfold settings' in HvhL, HcL, HvhR, HcR.
    cbn [veryHardMode customMode customSeries] in HvhL, HcL, HvhR, HcR.
    apply Forall_cons; split; [|apply Forall_cons; split; [|apply Forall_nil_2]].
    + split_and!; [done | done |]. intros -> Hne. by apply HcL.
    + split_and!; [done | done |]. intros -> Hne. by apply HcR.
  - destruct Hc as [-> _]. by split_and!.
Qed.
